(** * score2bas: the MIDI to NovaBASIC transcoder of tools/score2bas.py

    A shallow embedding of the decode, select, reduce, schedule and encode
    pipeline of [tools/score2bas.py], and the properties of it that the
    specification states.

    Conventions of the embedding.
    - Python [int] is [Z]; a [bytes] buffer is a [list byte]; offsets into a
      buffer are non-negative [Z] (the source never builds a negative one).
    - A Python exception is a value of [exn]; a function that can raise
      returns a [result].
    - A [dict] whose iteration order the source relies on is an association
      list in insertion order; a [dict] that is only looked up, or whose
      items are sorted before use, is a [gmap]; a [set] is a [gset].
    - [sorted] is a stable insertion sort, as Python's sort is stable. *)

From Stdlib Require Import ZArith Lia Strings.Byte DecimalString.
From stdpp Require Import base option list sorting gmap strings pretty.

Local Open Scope Z_scope.

(** ** Exceptions and results *)

Inductive exn :=
  | MidiParseError (msg : string)
  | RuntimeError (msg : string)
  | ValueError (msg : string)
  | StructError
  | IndexError
  | ZeroDivisionError.

Inductive result (A : Type) :=
  | Ok (a : A)
  | Raise (e : exn).
Arguments Ok {A} a.
Arguments Raise {A} e.

#[global] Instance result_ret : MRet result := λ A a, Ok a.
#[global] Instance result_bind : MBind result := λ A B k r,
  match r with
  | Ok a => k a
  | Raise e => Raise e
  end.

Definition is_ok {A} (r : result A) : bool :=
  match r with Ok _ => true | Raise _ => false end.

(** ** Byte buffers *)

Definition b2z (b : byte) : Z := Z.of_N (Byte.to_N b).

Definition z2b (z : Z) : byte :=
  default x00 (Byte.of_N (Z.to_N (z mod 256))).

Definition len {A} (l : list A) : Z := Z.of_nat (length l).

(** [l[a:b]] for [0 <= a]: Python clips a slice to the buffer. *)
Definition slice {A} (l : list A) (a b : Z) : list A :=
  take (Z.to_nat (b - a)) (drop (Z.to_nat a) l).

(** [l[i]] for [0 <= i]: raises past the end. *)
Definition index (l : list byte) (i : Z) : result Z :=
  match l !! Z.to_nat i with
  | Some b => Ok (b2z b)
  | None => Raise IndexError
  end.

Definition be_value (bs : list byte) : Z :=
  fold_left (λ acc b, Z.lor (Z.shiftl acc 8) (b2z b)) bs 0.

(** [struct.unpack_from(">I", data, offset)[0]] *)
Definition unpack_u32 (data : list byte) (offset : Z) : result Z :=
  let bs := slice data offset (offset + 4) in
  if len bs <? 4 then Raise StructError else Ok (be_value bs).

(** [struct.unpack_from(">HHH", data, offset)] *)
Definition unpack_HHH (data : list byte) (offset : Z) : result (Z * Z * Z) :=
  let bs := slice data offset (offset + 6) in
  if len bs <? 6 then Raise StructError
  else Ok (be_value (slice bs 0 2), be_value (slice bs 2 4), be_value (slice bs 4 6)).

(** ** The event model *)

Record TempoEvent := mkTempo { te_tick : Z; te_bpm : Z }.

Record TimeSignature := mkTimeSig { numerator : Z; denominator : Z }.

Record NoteEvent := mkNote {
  start_tick : Z;
  end_tick : Z;
  channel : Z;
  note : Z;
  velocity : Z
}.

Record MidiSong := mkSong {
  ppqn : Z;
  notes : list NoteEvent;
  tempos : list TempoEvent;
  time_signature : TimeSignature;
  song_end_tick : Z
}.

Record VoiceConfig := mkVoice {
  wave : Z; attack : Z; decay : Z; sustain : Z; release : Z
}.

Definition DEFAULT_VOICES : list VoiceConfig :=
  [ mkVoice 2 2 6 10 6; mkVoice 0 1 4 12 4; mkVoice 4 2 5 10 6; mkVoice 1 2 4 9 5 ].

#[global] Instance TempoEvent_eq_dec : EqDecision TempoEvent.
Proof. solve_decision. Defined.
#[global] Instance TimeSignature_eq_dec : EqDecision TimeSignature.
Proof. solve_decision. Defined.
#[global] Instance NoteEvent_eq_dec : EqDecision NoteEvent.
Proof. solve_decision. Defined.

(** ** Variable-length quantities *)

(** The loop of [read_vlq], run over the bytes from [offset] on: [value] and
    [offset] are the loop's two variables. *)
Fixpoint read_vlq_from (rest : list byte) (value offset : Z) : result (Z * Z) :=
  match rest with
  | [] => Raise (MidiParseError "Unexpected EOF while reading VLQ")
  | b :: rest' =>
      let byte := b2z b in
      let offset := offset + 1 in
      let value := Z.lor (Z.shiftl value 7) (Z.land byte 0x7F) in
      if Z.land byte 0x80 =? 0 then Ok (value, offset)
      else read_vlq_from rest' value offset
  end.

Definition read_vlq (data : list byte) (offset : Z) : result (Z * Z) :=
  read_vlq_from (drop (Z.to_nat offset) data) 0 offset.

(** ** Rounding

    [int(round(n / d))] for integers [n] and [d <> 0]: Python's [/] is the
    correctly rounded quotient and [round] rounds a tie to the even
    neighbour.  For the operands the decoder can produce (a dividend below
    [2^26], and a divisor that is either below [2^24] or a power of two) the
    floating-point quotient lies on the same side of every half-integer as
    the exact one, so the exact rational is rounded here. *)
Definition round_half_even (n d : Z) : Z :=
  let n := if d <? 0 then - n else n in
  let d := Z.abs d in
  let q := n `div` d in
  let r := n `mod` d in
  if 2 * r <? d then q
  else if d <? 2 * r then q + 1
  else if Z.even q then q else q + 1.

(** ** The binary track decoder *)

(** [active]: the open notes, a [defaultdict(list)] from [(channel, pitch)]
    to the list of [(tick, velocity)] pushed for it, in insertion order of
    the keys (the order in which the end of a track closes them). *)
Definition active_map := list ((Z * Z) * list (Z * Z)).

(** [active.get(key)] *)
Fixpoint active_get (key : Z * Z) (a : active_map) : option (list (Z * Z)) :=
  match a with
  | [] => None
  | (k, stack) :: a' => if decide (k = key) then Some stack else active_get key a'
  end.

(** [active[key].append(v)]: a missing key is created, last, with [[]]. *)
Fixpoint active_append (key : Z * Z) (v : Z * Z) (a : active_map) : active_map :=
  match a with
  | [] => [(key, [v])]
  | (k, stack) :: a' =>
      if decide (k = key) then (k, stack ++ [v]) :: a'
      else (k, stack) :: active_append key v a'
  end.

(** [active[key].pop()], the key present: the stack object loses its last
    element in place. *)
Fixpoint active_pop (key : Z * Z) (a : active_map) : active_map :=
  match a with
  | [] => []
  | (k, stack) :: a' =>
      if decide (k = key) then (k, removelast stack) :: a'
      else (k, stack) :: active_pop key a'
  end.

(** The variables of one track's decode loop, with the three accumulators
    ([notes], [tempos], [time_signature]) that all tracks share. *)
Record track_state := mkTrackState {
  running_status : option Z;
  pos : Z;
  tick : Z;
  active : active_map;
  st_notes : list NoteEvent;
  st_tempos : list TempoEvent;
  st_time_signature : TimeSignature
}.

Inductive flow := Continue | Break.

(** A meta event, from the byte after the [0xFF] status (lines 157-178). *)
Definition meta_event (track : list byte) (st : track_state) (pos tick : Z)
    (running : option Z) : result (flow * track_state) :=
  if len track <=? pos then Raise (MidiParseError "Malformed meta event")
  else
    meta_type ← index track pos;
    let pos := pos + 1 in
    '(meta_len, pos) ← read_vlq track pos;
    let meta_data := slice track pos (pos + meta_len) in
    let pos := pos + meta_len in
    let st' tempos ts :=
      mkTrackState running pos tick (active st) (st_notes st) tempos ts in
    if (meta_type =? 0x51) && (len meta_data =? 3) then
      m0 ← index meta_data 0;
      m1 ← index meta_data 1;
      m2 ← index meta_data 2;
      let us_per_quarter := Z.lor (Z.lor (Z.shiftl m0 16) (Z.shiftl m1 8)) m2 in
      if 0 <? us_per_quarter then
        let bpm := round_half_even 60000000 us_per_quarter in
        Ok (Continue,
            st' (st_tempos st ++ [mkTempo tick (Z.max 1 bpm)]) (st_time_signature st))
      else Ok (Continue, st' (st_tempos st) (st_time_signature st))
    else if (meta_type =? 0x58) && (2 <=? len meta_data) then
      m0 ← index meta_data 0;
      m1 ← index meta_data 1;
      let numerator := Z.max 1 m0 in
      let denominator := 2 ^ m1 in
      if 0 <? denominator then
        Ok (Continue, st' (st_tempos st) (mkTimeSig numerator denominator))
      else Ok (Continue, st' (st_tempos st) (st_time_signature st))
    else if meta_type =? 0x2F then
      Ok (Break, st' (st_tempos st) (st_time_signature st))
    else Ok (Continue, st' (st_tempos st) (st_time_signature st)).

(** A note-on, note-off or other two-byte channel event (lines 194-216). *)
Definition note_event (track : list byte) (st : track_state) (pos tick : Z)
    (running : option Z) (event_type channel : Z) : result (flow * track_state) :=
  if len track <=? pos + 1 then Raise (MidiParseError "Malformed MIDI event")
  else
    data1 ← index track pos;
    data2 ← index track (pos + 1);
    let pos := pos + 2 in
    let key := (channel, data1) in
    let st' act nts :=
      mkTrackState running pos tick act nts (st_tempos st) (st_time_signature st) in
    if (event_type =? 0x90) && (0 <? data2) then
      Ok (Continue, st' (active_append key (tick, data2) (active st)) (st_notes st))
    else if (event_type =? 0x80) || ((event_type =? 0x90) && (data2 =? 0)) then
      match active_get key (active st) with
      | Some stack =>
          match last stack with
          | Some (start_tick, velocity) =>
              let act := active_pop key (active st) in
              if start_tick <? tick then
                Ok (Continue,
                    st' act (st_notes st ++ [mkNote start_tick tick channel data1 velocity]))
              else Ok (Continue, st' act (st_notes st))
          | None => Ok (Continue, st' (active st) (st_notes st))
          end
      | None => Ok (Continue, st' (active st) (st_notes st))
      end
    else Ok (Continue, st' (active st) (st_notes st)).

(** Lines 146-154: the status of the event at [pos], the position after it
    and the running status to remember. *)
Definition read_status (track : list byte) (running : option Z) (pos : Z)
    : result (Z * Z * option Z) :=
  status ← index track pos;
  if 0x80 <=? status then
    Ok (status, pos + 1, if status <? 0xF0 then Some status else running)
  else
    match running with
    | None => Raise (MidiParseError "Running status used before status byte")
    | Some rs => Ok (rs, pos, running)
    end.

(** One turn of [while pos < len(track)] (lines 140-216). *)
Definition track_body (track : list byte) (st : track_state)
    : result (flow * track_state) :=
  '(delta, pos) ← read_vlq track (pos st);
  let tick := tick st + delta in
  let moved running pos :=
    mkTrackState running pos tick (active st) (st_notes st) (st_tempos st)
      (st_time_signature st) in
  if len track <=? pos then Ok (Break, moved (running_status st) pos)
  else
    '(status, pos, running) ← read_status track (running_status st) pos;
    if status =? 0xFF then meta_event track st pos tick running
    else if (status =? 0xF0) || (status =? 0xF7) then
      '(sysex_len, pos) ← read_vlq track pos;
      Ok (Continue, moved running (pos + sysex_len))
    else
      let event_type := Z.land status 0xF0 in
      let channel := Z.land status 0x0F in
      if (event_type =? 0xC0) || (event_type =? 0xD0) then
        if len track <=? pos then Raise (MidiParseError "Malformed MIDI event")
        else Ok (Continue, moved running (pos + 1))
      else note_event track st pos tick running event_type channel.

(** The [while] loop.  Every turn moves [pos] forward by at least the one
    byte of its delta time, so [length track] turns always suffice
    ([track_loop_fuel] below): the turn counter never cuts the loop short. *)
Fixpoint track_loop (turns : nat) (track : list byte) (st : track_state)
    : result track_state :=
  if len track <=? pos st then Ok st
  else
    match turns with
    | O => Ok st
    | S turns' =>
        '(fl, st') ← track_body track st;
        match fl with
        | Break => Ok st'
        | Continue => track_loop turns' track st'
        end
    end.

(** Lines 218-229: the notes still open when the track ends. *)
Definition close_stack (tick channel note : Z) (stack : list (Z * Z)) : list NoteEvent :=
  flat_map (λ '(start_tick, velocity),
    if start_tick <? tick then [mkNote start_tick tick channel note velocity] else [])
    stack.

Definition close_active (tick : Z) (a : active_map) : list NoteEvent :=
  flat_map (λ '((channel, note), stack), close_stack tick channel note stack) a.

(** ** [sorted]

    A stable insertion sort: [x] goes before the first element that is not
    strictly below it, so elements that compare equal keep their order. *)
Section Sorted.
Context {A : Type} (leb : A → A → bool).

Fixpoint insert_sorted (x : A) (l : list A) : list A :=
  match l with
  | [] => [x]
  | y :: l' => if leb x y then x :: l else y :: insert_sorted x l'
  end.

Definition sorted (l : list A) : list A := foldr insert_sorted [] l.
End Sorted.

(** The order of Python on pairs of integers. *)
Definition pair_leb (a b : Z * Z) : bool :=
  (a.1 <? b.1) || ((a.1 =? b.1) && (a.2 <=? b.2)).

Definition tag_is (bs : list byte) (tag : list Z) : bool :=
  bool_decide (b2z <$> bs = tag).

Definition MThd : list Z := [77; 84; 104; 100].
Definition MTrk : list Z := [77; 84; 114; 107].

(** Lines 134-216: the decode loop of one track, from its initial state. *)
Definition decode_track (track : list byte) (notes : list NoteEvent)
    (tempos : list TempoEvent) (ts : TimeSignature) : result track_state :=
  track_loop (length track) track (mkTrackState None 0 0 [] notes tempos ts).

(** The loop over the tracks (lines 125-231); [offset] and the four
    accumulators are its variables. *)
Fixpoint parse_tracks (count : nat) (data : list byte) (offset : Z)
    (notes : list NoteEvent) (tempos : list TempoEvent)
    (ts : TimeSignature) (song_end : Z)
    : result (list NoteEvent * list TempoEvent * TimeSignature * Z) :=
  match count with
  | O => Ok (notes, tempos, ts, song_end)
  | S count' =>
      if negb (tag_is (slice data offset (offset + 4)) MTrk)
      then Raise (MidiParseError "Missing MTrk header")
      else
        let offset := offset + 4 in
        track_len ← unpack_u32 data offset;
        let offset := offset + 4 in
        let track := slice data offset (offset + track_len) in
        let offset := offset + track_len in
        st ← decode_track track notes tempos ts;
        let notes := st_notes st ++ close_active (tick st) (active st) in
        parse_tracks count' data offset notes (st_tempos st)
          (st_time_signature st) (Z.max song_end (tick st))
  end.

(** Lines 233-240: the default tempo, then the last tempo of each tick, in
    ascending order of tick. *)
Definition tempo_dict (tempos : list TempoEvent) : gmap Z Z :=
  fold_left (λ m t, <[te_tick t := te_bpm t]> m) tempos ∅.

Definition finish_tempos (tempos : list TempoEvent) : list TempoEvent :=
  let tempos := match tempos with [] => [mkTempo 0 120] | _ => tempos end in
  (λ '(t, b), mkTempo t b) <$> sorted pair_leb (map_to_list (tempo_dict tempos)).

Definition parse_midi (data : list byte) : result MidiSong :=
  if negb (tag_is (slice data 0 4) MThd)
  then Raise (MidiParseError "Missing MThd header")
  else
    header_len ← unpack_u32 data 4;
    if header_len <? 6 then Raise (MidiParseError "Invalid MIDI header length")
    else
      '(fmt, track_count, division) ← unpack_HHH data 8;
      let offset := 8 + header_len in
      if negb (Z.land division 0x8000 =? 0)
      then Raise (MidiParseError "SMPTE timing MIDI is not supported")
      else
        let ppqn := division in
        if ppqn <=? 0 then Raise (MidiParseError "Invalid PPQN")
        else
          '(notes, tempos, ts, song_end) ←
            parse_tracks (Z.to_nat track_count) data offset [] [] (mkTimeSig 4 4) 0;
          Ok (mkSong ppqn notes (finish_tempos tempos) ts song_end).

(** ** Pitch to frequency

    [int(round(440.0 * (2.0 ** ((note - 69) / 12.0))))].  With
    [x = 440 * 2^((note - 69) / 12)], the integer nearest to [x] is
    [(floor (2 * x) + 1) / 2], and [floor (2 * x)] is the integer twelfth
    root of [880^12 * 2^(note - 69)].  [x] is rational only when [12] divides
    [note - 69], and then a half-integer only for [note = 21] ([27.5], which
    Python rounds to the even [28], as this formula does); otherwise the
    distance from [x] to the nearest half-integer is many orders of
    magnitude above the error of the floating-point evaluation for any
    pitch a data byte can hold, so the exact value is rounded here. *)
Fixpoint iroot12_bits (i : nat) (a r : Z) : Z :=
  match i with
  | O => r
  | S i' =>
      let r' := r + 2 ^ Z.of_nat i' in
      iroot12_bits i' a (if r' ^ 12 <=? a then r' else r)
  end.

Definition iroot12 (a : Z) : Z :=
  iroot12_bits (Z.to_nat (Z.log2 a / 12 + 1)) a 0.

Definition midi_note_to_freq (note : Z) : Z :=
  (iroot12 (Z.shiftl (880 ^ 12) (note - 69)) + 1) / 2.

(** ** The voice/channel selector *)

(** One comma-separated part of [--channels] after [strip()]: empty, a text
    [int()] accepts (with its value), or a text it rejects. *)
Inductive token :=
  | Blank
  | IntText (text : string) (value : Z)
  | NotInt (text : string).

Definition parse_channel_list (raw : option (list token)) : result (option (list Z)) :=
  match raw with
  | None => Ok None
  | Some parts =>
      channels ← foldl (λ acc part,
          channels ← acc;
          match part with
          | Blank => Ok channels
          | NotInt text =>
              Raise (ValueError ("Invalid channel '" +:+ text +:+ "', expected integers 1-16"))
          | IntText text value =>
              if negb ((1 <=? value) && (value <=? 16))
              then Raise (ValueError ("Invalid channel '" +:+ text +:+ "', expected range 1-16"))
              else Ok (channels ++ [value - 1])
          end) (Ok []) parts;
      match channels with
      | [] => Ok None
      | _ => Ok (Some channels)
      end
  end.

(** [by_channel[note.channel] += 1] over the notes. *)
Definition count_channels (notes : list NoteEvent) : gmap Z Z :=
  foldl (λ by_channel n,
    <[channel n := default 0 (by_channel !! channel n) + 1]> by_channel) ∅ notes.

(** The sort key [(-count, channel)] of the ranking. *)
Definition rank_leb (a b : Z * Z) : bool := pair_leb (- a.2, a.1) (- b.2, b.1).

Definition unused_channels (used : list Z) : list Z :=
  filter (λ ch, ch ∉ used) (seqZ 0 16).

Definition choose_voice_channels (notes : list NoteEvent) (voices : nat)
    (explicit : option (list Z)) : list Z :=
  match explicit with
  | Some ((_ :: _) as explicit) =>
      let chosen := take voices explicit in
      if (length chosen <? voices)%nat then
        chosen ++ take (voices - length chosen) (unused_channels chosen)
      else chosen
  | _ =>
      let by_channel := count_channels notes in
      let ranked := fst <$> sorted rank_leb (map_to_list by_channel) in
      match ranked with
      | [] => seqZ 0 (Z.of_nat voices)
      | _ =>
          let ranked :=
            if (length ranked <? voices)%nat
            then ranked ++ unused_channels ranked else ranked in
          take voices ranked
      end
  end.

(** ** The monophonic reducer *)

Inductive chord_policy := High | Low | First.

(** The sort key [(start_tick, end_tick, note)]. *)
Definition onset_leb (a b : NoteEvent) : bool :=
  (start_tick a <? start_tick b)
  || ((start_tick a =? start_tick b)
      && pair_leb (end_tick a, note a) (end_tick b, note b)).

Definition onset_step (chan : Z) (policy : chord_policy)
    (onsets : gmap Z NoteEvent) (n : NoteEvent) : gmap Z NoteEvent :=
  if negb (channel n =? chan) then onsets
  else
    match onsets !! start_tick n with
    | None => <[start_tick n := n]> onsets
    | Some existing =>
        let pick :=
          match policy with
          | High => note existing <? note n
          | Low => note n <? note existing
          | First => false
          end in
        if pick then <[start_tick n := n]> onsets else onsets
    end.

Definition select_monophonic_onsets (notes : list NoteEvent) (chan : Z)
    (policy : chord_policy) : gmap Z NoteEvent :=
  foldl (onset_step chan policy) ∅ (sorted onset_leb notes).

(** ** The timeline scheduler (emit_basic, lines 372-426) *)

Inductive tempo_mode := FixedTempo | TrackTempo.

(** A row [[wait_ticks, tempo, f0, d0, f1, d1, ...]]: every row the source
    builds starts as [[wait_ticks, tempo]] and is then extended. *)
Record row := mkRow { wait_ticks : Z; tempo : Z; slots : list Z }.

Definition fields (r : row) : list Z := wait_ticks r :: tempo r :: slots r.

#[global] Instance row_eq_dec : EqDecision row.
Proof. solve_decision. Defined.

Definition onsets_per_voice (song : MidiSong) (voices : nat)
    (voice_channels : list Z) (policy : chord_policy) : list (gmap Z NoteEvent) :=
  (λ chan, select_monophonic_onsets (notes song) chan policy)
    <$> take voices voice_channels.

(** Lines 381-383. *)
Definition tempo_by_tick (song : MidiSong) : result (gmap Z Z) :=
  let by_tick := tempo_dict (tempos song) in
  match by_tick !! 0 with
  | Some _ => Ok by_tick
  | None =>
      match tempos song with
      | [] => Raise IndexError
      | t :: _ => Ok (<[0 := te_bpm t]> by_tick)
      end
  end.

(** [d[min(d.keys())]] *)
Definition at_min_key (d : gmap Z Z) : result Z :=
  match elements (dom d) with
  | [] => Raise (ValueError "min() arg is an empty sequence")
  | k :: ks =>
      match d !! foldl Z.min k ks with
      | Some v => Ok v
      | None => Raise IndexError
      end
  end.

(** Lines 385-386. *)
Definition initial_bpm (bpm_override : option Z) (by_tick : gmap Z Z) : result Z :=
  bpm ← match bpm_override with
        | Some bpm => Ok bpm
        | None => at_min_key by_tick
        end;
  Ok (Z.max 1 bpm).

(** Lines 377-379 and 388-394: the set of ticks that get a row. *)
Definition all_ticks (per_voice : list (gmap Z NoteEvent)) (mode : tempo_mode)
    (by_tick : gmap Z Z) (song_end tail_ticks : Z) : gset Z :=
  let ticks := foldl (λ ticks onsets, ticks ∪ dom onsets) ∅ per_voice in
  let ticks :=
    match mode with
    | TrackTempo => ticks ∪ filter (λ tick, 0 < tick) (dom by_tick)
    | FixedTempo => ticks
    end in
  if 0 <? song_end then ticks ∪ {[ song_end + Z.max 0 tail_ticks ]} else ticks.

(** Lines 396-398. *)
Definition timeline (per_voice : list (gmap Z NoteEvent)) (mode : tempo_mode)
    (by_tick : gmap Z Z) (song_end tail_ticks : Z) : list Z :=
  match sorted Z.leb (elements (all_ticks per_voice mode by_tick song_end tail_ticks)) with
  | [] => [0]
  | ticks => ticks
  end.

Definition voice_slot (tick : Z) (onsets : gmap Z NoteEvent) : list Z :=
  match onsets !! tick with
  | None => [0; 0]
  | Some n => [midi_note_to_freq (note n); Z.max 1 (end_tick n - start_tick n)]
  end.

Definition make_row (per_voice : list (gmap Z NoteEvent)) (mode : tempo_mode)
    (by_tick : gmap Z Z) (prev_tick tick : Z) : row :=
  let wait_ticks := Z.max 0 (tick - prev_tick) in
  let tempo :=
    match mode, by_tick !! tick with
    | TrackTempo, Some bpm => if tick =? 0 then 0 else bpm
    | _, _ => 0
    end in
  mkRow wait_ticks tempo (flat_map (voice_slot tick) per_voice).

(** The loop of lines 403-420; [prev_tick] is its variable. *)
Fixpoint make_rows (per_voice : list (gmap Z NoteEvent)) (mode : tempo_mode)
    (by_tick : gmap Z Z) (prev_tick : Z) (ticks : list Z) : list row :=
  match ticks with
  | [] => []
  | tick :: ticks' =>
      make_row per_voice mode by_tick prev_tick tick
        :: make_rows per_voice mode by_tick tick ticks'
  end.

(** Lines 422-426. *)
Definition inert (r : row) : bool :=
  (tempo r =? 0) && forallb (λ v, v =? 0) (slots r) && (wait_ticks r =? 0).

Definition drop_inert_tail (events : list row) : list row :=
  match last events with
  | Some r => if inert r then removelast events else events
  | None => events
  end.

Definition make_events (per_voice : list (gmap Z NoteEvent)) (mode : tempo_mode)
    (by_tick : gmap Z Z) (song_end tail_ticks : Z) : list row :=
  drop_inert_tail
    (make_rows per_voice mode by_tick 0
       (timeline per_voice mode by_tick song_end tail_ticks)).

(** [[-1, 0] + [0] * (voices * 2)] *)
Definition sentinel (voices : nat) : row :=
  mkRow (-1) 0 (replicate (voices * 2) 0).

(** ** The row encoder (emit_basic, lines 428-547) *)

(** A line of the program: a statement [f"{line_no} {text}"], or a data
    line [f"{line_no} DATA "] followed by the rows of its chunk. *)
Inductive line :=
  | Stmt (line_no : Z) (text : string)
  | Data (line_no : Z) (chunk : list row).

Definition str (x : Z) : string := pretty x.

Definition join (sep : string) (parts : list string) : string :=
  String.concat sep parts.

Definition event_csv (r : row) : string := join "," (str <$> fields r).

Definition prefix (ln : Z) : string := str ln +:+ " DATA ".

Definition render (l : line) : string :=
  match l with
  | Stmt line_no text => str line_no +:+ " " +:+ text
  | Data line_no chunk => prefix line_no +:+ join "," (event_csv <$> chunk)
  end.

Definition slen (s : string) : Z := Z.of_nat (String.length s).

(** The lines written so far and the next line number. *)
Definition listing := (list line * Z)%type.

(** [lines.append(f"{line_no} {text}"); line_no += 10] *)
Definition put (text : string) (out : listing) : listing :=
  (out.1 ++ [Stmt out.2 text], out.2 + 10).

Definition upper (policy : chord_policy) : string :=
  match policy with High => "HIGH" | Low => "LOW" | First => "FIRST" end.

(** Lines 450-455. *)
Definition envelope_lines (voices : nat) (out : listing) : result listing :=
  foldl (λ acc v,
      out ← acc;
      match DEFAULT_VOICES !! Z.to_nat v with
      | None => Raise IndexError
      | Some vc =>
          Ok (put ("ENVELOPE " +:+ str v +:+ "," +:+ str (attack vc) +:+ ","
                   +:+ str (decay vc) +:+ "," +:+ str (sustain vc) +:+ ","
                   +:+ str (release vc) +:+ ":WAVE " +:+ str v +:+ ","
                   +:+ str (wave vc)) out)
      end) (Ok out) (seqZ 0 (Z.of_nat voices)).

(** Lines 484-493. *)
Definition sound_lines (voices : nat) (out : listing) : listing :=
  foldl (λ out v,
      let skip_line := out.2 + 40 in
      let out := put ("IF F" +:+ str v +:+ "=0 THEN " +:+ str skip_line) out in
      let out := put ("L=INT(D" +:+ str v +:+ "*SC+0.5)") out in
      let out := put "IF L<1 THEN L=1" out in
      put ("SOUND " +:+ str v +:+ ",F" +:+ str v +:+ ",L") out)
    out (seqZ 0 (Z.of_nat voices)).

(** Lines 428-503: everything before the data rows. *)
Definition program_lines (song : MidiSong) (input_label title : string)
    (voices : nat) (voice_channels : list Z) (policy : chord_policy)
    (initial_bpm volume ticks_per_bar ticks_per_beat : Z) : result (list line) :=
  let ts := time_signature song in
  let out : listing := ([], 10) in
  let out := put ("REM NovaBASIC v1.0 - " +:+ title) out in
  let out := put ("REM SOURCE: " +:+ input_label) out in
  let out :=
    put ("REM PPQN=" +:+ str (ppqn song) +:+ " TIME=" +:+ str (numerator ts)
         +:+ "/" +:+ str (denominator ts) +:+ " BPM0=" +:+ str initial_bpm
         +:+ " CHANNELS="
         +:+ join "," ((λ ch, str (ch + 1)) <$> take voices voice_channels)) out in
  let out :=
    put ("REM DATA: WTICKS,TEMPO,"
         +:+ join "," ((λ v, "F" +:+ str v +:+ ",D" +:+ str v)
                         <$> seqZ 0 (Z.of_nat voices))) out in
  let out := put ("VOLUME " +:+ str (Z.max 0 (Z.min 15 volume))) out in
  out ← envelope_lines voices out;
  let out :=
    put ("PP=" +:+ str (ppqn song) +:+ ":SCALE=100:BPM=" +:+ str initial_bpm
         +:+ "*SCALE/100") out in
  let out := put "SC=3600/(BPM*PP)" out in
  let out := put "RESTORE 2000" out in
  let read_vars :=
    ["W"; "T"] ++ flat_map (λ v, ["F" +:+ str v; "D" +:+ str v])
                    (seqZ 0 (Z.of_nat voices)) in
  let loop_line := out.2 in
  let out := put ("READ " +:+ join "," read_vars) out in
  let out := put "IF W<0 THEN 900" out in
  let out := put "WF=0" out in
  let out := put "IF W>0 THEN WF=INT(W*SC+0.5)" out in
  let out := put "IF WF<1 THEN WF=1" out in
  let out := put "IF W>0 THEN FOR I=1 TO WF:VSYNC:NEXT I" out in
  let out := put "IF T>0 THEN BPM=T*SCALE/100:SC=3600/(BPM*PP)" out in
  let out := sound_lines voices out in
  let out := put ("GOTO " +:+ str loop_line) out in
  let lines := out.1 ++ [Stmt out.2 "END"] in
  Ok (lines ++ [Stmt 2000 ("REM M1 TICKS/BAR=" +:+ str ticks_per_bar
                           +:+ " TICKS/BEAT=" +:+ str ticks_per_beat
                           +:+ " POLICY=" +:+ upper policy)]).

(** The variables of the loop over the events (lines 508-532). *)
Record data_state := mkData {
  d_lines : list line;
  d_data_line : Z;
  d_chunk : list row;
  d_current_measure : Z;
  d_prev_tick : Z
}.

(** One turn of the loop of lines 512-532. *)
Definition data_step (ticks_per_bar max_line_len : Z) (st : data_state)
    (event : row) : result data_state :=
  let tick := d_prev_tick st + wait_ticks event in
  '(lines, data_line, current_measure) ←
    (if d_current_measure st * ticks_per_bar <=? tick then
       if ticks_per_bar =? 0 then Raise ZeroDivisionError
       else
         Ok (d_lines st
               ++ [Stmt (d_data_line st) ("REM M" +:+ str (d_current_measure st + 1))],
             d_data_line st + 10,
             tick `div` ticks_per_bar + 1)
     else Ok (d_lines st, d_data_line st, d_current_measure st));
  let candidate := join "," (event_csv <$> (d_chunk st ++ [event])) in
  if max_line_len <? slen (prefix data_line) + slen candidate then
    match d_chunk st with
    | [] =>
        Raise (RuntimeError ("Event row too wide for max-line-len="
                             +:+ str max_line_len +:+ ": " +:+ event_csv event))
    | chunk =>
        Ok (mkData (lines ++ [Data data_line chunk]) (data_line + 10) [event]
              current_measure tick)
    end
  else Ok (mkData lines data_line (d_chunk st ++ [event]) current_measure tick).

(** Lines 505-539: the data lines and the sentinel, after [lines]. *)
Definition data_lines (lines : list line) (events : list row) (voices : nat)
    (ticks_per_bar max_line_len : Z) : result (list line) :=
  st ← foldl (λ acc event, st ← acc; data_step ticks_per_bar max_line_len st event)
         (Ok (mkData lines 2010 [] 1 0)) events;
  let '(lines, data_line) :=
    match d_chunk st with
    | [] => (d_lines st, d_data_line st)
    | chunk => (d_lines st ++ [Data (d_data_line st) chunk], d_data_line st + 10)
    end in
  Ok (lines ++ [Data data_line [sentinel voices]]).

(** Lines 541-545. *)
Definition check_lengths (max_line_len : Z) (lines : list line) : result unit :=
  foldl (λ acc src_line,
      _ ← acc;
      if max_line_len <? slen (render src_line) then
        Raise (RuntimeError ("Generated BASIC line exceeds max-line-len="
                             +:+ str max_line_len +:+ ": " +:+ render src_line))
      else Ok ()) (Ok ()) lines.

(** [emit_basic], up to the joining of the lines. *)
Definition emit_basic_lines (song : MidiSong) (input_label title : string)
    (voices : nat) (voice_channels : list Z) (policy : chord_policy)
    (mode : tempo_mode) (bpm_override : option Z)
    (volume tail_ticks max_line_len : Z) : result (list line) :=
  let per_voice := onsets_per_voice song voices voice_channels policy in
  by_tick ← tempo_by_tick song;
  bpm0 ← initial_bpm bpm_override by_tick;
  let events := make_events per_voice mode by_tick (song_end_tick song) tail_ticks in
  let ts := time_signature song in
  if denominator ts =? 0 then Raise ZeroDivisionError
  else
    let ticks_per_bar := round_half_even (ppqn song * 4 * numerator ts) (denominator ts) in
    let ticks_per_beat := round_half_even (ppqn song * 4) (denominator ts) in
    lines ← program_lines song input_label title voices voice_channels policy
              bpm0 volume ticks_per_bar ticks_per_beat;
    lines ← data_lines lines events voices ticks_per_bar max_line_len;
    _ ← check_lengths max_line_len lines;
    Ok lines.

Definition newline : string := String (Ascii.ascii_of_nat 10) EmptyString.

Definition emit_basic (song : MidiSong) (input_label title : string)
    (voices : nat) (voice_channels : list Z) (policy : chord_policy)
    (mode : tempo_mode) (bpm_override : option Z)
    (volume tail_ticks max_line_len : Z) : result string :=
  lines ← emit_basic_lines song input_label title voices voice_channels policy
            mode bpm_override volume tail_ticks max_line_len;
  Ok (join newline (render <$> lines) +:+ newline).

(** The rows a reader of the program's [DATA] lines sees, in order. *)
Definition data_rows (lines : list line) : list row :=
  flat_map (λ l, match l with Data _ chunk => chunk | Stmt _ _ => [] end) lines.

(** ** Sample inputs *)

Definition bytes (l : list Z) : list byte := z2b <$> l.

(** Resolution 480, one track: tempo 120 BPM and time signature 4/4 at tick
    0, pitch 60 over ticks 0-480 and pitch 64 over ticks 480-960 on channel
    0, end of track. *)
Definition two_note_file : list byte := bytes
  [ 77; 84; 104; 100; 0; 0; 0; 6; 0; 0; 0; 1; 1; 224;
    77; 84; 114; 107; 0; 0; 0; 37;
    0; 255; 81; 3; 7; 161; 32;
    0; 255; 88; 4; 4; 2; 24; 8;
    0; 144; 60; 100;
    131; 96; 128; 60; 0;
    0; 144; 64; 100;
    131; 96; 128; 64; 0;
    0; 255; 47; 0 ].

(** * Properties *)

(** ** [sorted] *)

Section SortedFacts.
Context {A : Type} (leb : A → A → bool).

Lemma insert_sorted_Permutation (x : A) (l : list A) :
  insert_sorted leb x l ≡ₚ x :: l.
Proof.
  induction l as [|y l IH]; simpl; [done|].
  destruct (leb x y); [done|].
  rewrite IH. apply Permutation_swap.
Qed.

Lemma sorted_Permutation (l : list A) : sorted leb l ≡ₚ l.
Proof.
  induction l as [|x l IH]; simpl; [done|].
  rewrite insert_sorted_Permutation. by f_equiv.
Qed.

Hypothesis leb_total : ∀ x y, leb x y = false → leb y x = true.

Lemma insert_sorted_Sorted (x : A) (l : list A) :
  Sorted (λ a b, leb a b = true) l →
  Sorted (λ a b, leb a b = true) (insert_sorted leb x l).
Proof.
  induction 1 as [|y l Hl IH Hy]; simpl.
  - by repeat constructor.
  - destruct (leb x y) eqn:Hxy.
    + constructor; [by constructor|by constructor].
    + constructor; [done|].
      destruct Hy as [|z l Hz]; simpl.
      * constructor. by apply leb_total.
      * destruct (leb x z); constructor; auto.
Qed.

Lemma sorted_Sorted (l : list A) :
  Sorted (λ a b, leb a b = true) (sorted leb l).
Proof.
  induction l as [|x l IH]; simpl; [constructor|].
  by apply insert_sorted_Sorted.
Qed.
End SortedFacts.

Lemma sorted_Z_ascending (l : list Z) :
  NoDup l → StronglySorted Z.lt (sorted Z.leb l).
Proof.
  intros Hnd.
  assert (Hs : StronglySorted Z.le (sorted Z.leb l)).
  { apply Sorted_StronglySorted; [intros ???; lia|].
    pose proof (sorted_Sorted Z.leb ltac:(intros; lia) l) as Hb.
    induction Hb as [|x l' _ IH Hx]; constructor; [done|].
    destruct Hx; constructor; lia. }
  assert (Hnd' : NoDup (sorted Z.leb l)) by by rewrite sorted_Permutation.
  induction Hs as [|x l' Hl' IH Hx]; [constructor|].
  apply NoDup_cons in Hnd' as [Hx' Hnd'].
  constructor; [by apply IH|].
  apply Forall_forall. intros y Hy.
  rewrite Forall_forall in Hx. specialize (Hx y Hy).
  assert (x ≠ y) by (intros ->; done). lia.
Qed.

(** ** The timeline *)

(** C7. Whatever the song, the voice count, the channel mapping, the chord
    policy, the tempo mode, the tempo map and the tail ticks, the timeline
    whose ticks become rows is strictly ascending, hence free of
    duplicates. *)
Theorem timeline_strictly_ascending (song : MidiSong) (voices : nat)
    (voice_channels : list Z) (policy : chord_policy) (mode : tempo_mode)
    (by_tick : gmap Z Z) (tail_ticks : Z) :
  StronglySorted Z.lt
    (timeline (onsets_per_voice song voices voice_channels policy) mode by_tick
       (song_end_tick song) tail_ticks).
Proof.
  unfold timeline.
  set (ticks := all_ticks _ _ _ _ _).
  pose proof (sorted_Z_ascending (elements ticks) (NoDup_elements ticks)) as Hs.
  destruct (sorted Z.leb (elements ticks)); [repeat constructor|done].
Qed.

(** ** Rows and the sentinel *)

Lemma make_rows_wait per_voice mode by_tick prev ticks :
  Forall (λ r, 0 ≤ wait_ticks r) (make_rows per_voice mode by_tick prev ticks).
Proof.
  revert prev. induction ticks as [|t ticks IH]; intros prev; simpl;
    constructor; [simpl; lia|apply IH].
Qed.

Lemma Forall_removelast {A} (P : A → Prop) (l : list A) :
  Forall P l → Forall P (removelast l).
Proof.
  induction 1 as [|x l Hx Hl IH]; simpl; [constructor|].
  destruct l; [constructor|]. by constructor.
Qed.

Lemma make_events_wait per_voice mode by_tick song_end tail_ticks :
  Forall (λ r, 0 ≤ wait_ticks r)
    (make_events per_voice mode by_tick song_end tail_ticks).
Proof.
  unfold make_events, drop_inert_tail.
  pose proof (make_rows_wait per_voice mode by_tick 0
                (timeline per_voice mode by_tick song_end tail_ticks)) as H.
  destruct (last _) as [r|]; [|done].
  destruct (inert r); [by apply Forall_removelast|done].
Qed.

Lemma data_rows_app (l1 l2 : list line) :
  data_rows (l1 ++ l2) = data_rows l1 ++ data_rows l2.
Proof. apply flat_map_app. Qed.

Lemma foldl_raise {A B} (f : result A → B → result A) (e : exn) (l : list B) :
  (∀ b, f (Raise e) b = Raise e) → foldl f (Raise e) l = Raise e.
Proof. intros Hf. induction l as [|b l IH]; simpl; [done|]. by rewrite Hf. Qed.

Lemma put_data_rows text out :
  data_rows (put text out).1 = data_rows out.1.
Proof. unfold put; simpl. rewrite data_rows_app; simpl. by rewrite app_nil_r. Qed.

Lemma envelope_lines_data_rows voices out out' :
  envelope_lines voices out = Ok out' → data_rows out'.1 = data_rows out.1.
Proof.
  unfold envelope_lines. generalize (seqZ 0 (Z.of_nat voices)) as vs.
  intros vs. revert out. induction vs as [|v vs IH]; intros out; simpl.
  - by intros [= ->].
  - destruct (DEFAULT_VOICES !! Z.to_nat v) as [vc|]; simpl.
    + intros H. apply IH in H. by rewrite H, put_data_rows.
    + rewrite foldl_raise; [done|done].
Qed.

Lemma sound_lines_data_rows voices out :
  data_rows (sound_lines voices out).1 = data_rows out.1.
Proof.
  unfold sound_lines. generalize (seqZ 0 (Z.of_nat voices)) as vs.
  intros vs. revert out. induction vs as [|v vs IH]; intros out; simpl; [done|].
  rewrite IH. by rewrite !put_data_rows.
Qed.

Lemma program_lines_data_rows song input_label title voices voice_channels
    policy bpm0 volume ticks_per_bar ticks_per_beat lines :
  program_lines song input_label title voices voice_channels policy bpm0 volume
    ticks_per_bar ticks_per_beat = Ok lines →
  data_rows lines = [].
Proof.
  unfold program_lines.
  destruct (envelope_lines _ _) as [out|] eqn:Henv; simpl; [|done].
  intros [= <-]. apply envelope_lines_data_rows in Henv.
  rewrite !data_rows_app; simpl. rewrite !app_nil_r.
  repeat first [rewrite put_data_rows|rewrite sound_lines_data_rows].
  rewrite Henv. by rewrite !put_data_rows.
Qed.

Lemma data_step_rows ticks_per_bar max_line_len st event st' :
  data_step ticks_per_bar max_line_len st event = Ok st' →
  data_rows (d_lines st') ++ d_chunk st'
  = data_rows (d_lines st) ++ d_chunk st ++ [event].
Proof.
  unfold data_step.
  destruct (d_current_measure st * ticks_per_bar <=? _);
    [destruct (ticks_per_bar =? 0); simpl; [done|]|simpl].
  all: destruct (max_line_len <? _).
  all: destruct (d_chunk st) eqn:Hc; try done.
  all: intros [= <-]; simpl; rewrite ?data_rows_app; simpl;
    rewrite ?app_nil_r, <-?app_assoc; done.
Qed.

Lemma data_loop_rows ticks_per_bar max_line_len events st st' :
  foldl (λ acc event, st ← acc; data_step ticks_per_bar max_line_len st event)
    (Ok st) events = Ok st' →
  data_rows (d_lines st') ++ d_chunk st'
  = data_rows (d_lines st) ++ d_chunk st ++ events.
Proof.
  revert st. induction events as [|event events IH]; intros st; simpl.
  - intros [= ->]. by rewrite app_nil_r.
  - destruct (data_step _ _ st event) as [st1|e] eqn:Hstep; simpl.
    + intros H. rewrite (IH _ H), app_assoc, (data_step_rows _ _ _ _ _ Hstep).
      by rewrite <-!app_assoc.
    + rewrite foldl_raise; [done|done].
Qed.

Lemma data_lines_rows lines events voices ticks_per_bar max_line_len lines' :
  data_lines lines events voices ticks_per_bar max_line_len = Ok lines' →
  data_rows lines' = data_rows lines ++ events ++ [sentinel voices]
  ∧ ∃ data_line, last lines' = Some (Data data_line [sentinel voices]).
Proof.
  unfold data_lines.
  destruct (foldl _ _ _) as [st|] eqn:Hloop; simpl; [|done].
  apply data_loop_rows in Hloop; simpl in Hloop.
  destruct (d_chunk st) eqn:Hc; intros [= <-].
  all: split; [|eexists; apply last_snoc].
  all: rewrite ?data_rows_app; simpl; rewrite ?app_nil_r in *.
  - by rewrite Hloop, <-app_assoc.
  - by rewrite Hloop, <-app_assoc.
Qed.

(** C8. Whenever [emit_basic] returns, the rows of its data lines are the
    scheduled rows followed by one sentinel row: the sentinel comes last, on
    the last line, with wait -1 and every other field 0, and every row
    before it has a wait of at least 0. *)
Theorem sentinel_termination (song : MidiSong) (input_label title : string)
    (voices : nat) (voice_channels : list Z) (policy : chord_policy)
    (mode : tempo_mode) (bpm_override : option Z)
    (volume tail_ticks max_line_len : Z) (lines : list line) :
  emit_basic_lines song input_label title voices voice_channels policy mode
    bpm_override volume tail_ticks max_line_len = Ok lines →
  ∃ (by_tick : gmap Z Z) (events : list row) (data_line : Z),
    tempo_by_tick song = Ok by_tick
    ∧ events = make_events (onsets_per_voice song voices voice_channels policy)
                 mode by_tick (song_end_tick song) tail_ticks
    ∧ data_rows lines = events ++ [sentinel voices]
    ∧ last lines = Some (Data data_line [sentinel voices])
    ∧ Forall (λ r, 0 ≤ wait_ticks r) events
    ∧ fields (sentinel voices) = -1 :: replicate (1 + 2 * voices) 0.
Proof.
  unfold emit_basic_lines.
  destruct (tempo_by_tick song) as [by_tick|] eqn:Hby; simpl; [|done].
  destruct (initial_bpm _ _) as [bpm0|]; simpl; [|done].
  destruct (denominator _ =? 0); [done|].
  destruct (program_lines _ _ _ _ _ _ _ _ _ _) as [head|] eqn:Hhead; simpl; [|done].
  destruct (data_lines _ _ _ _ _) as [all|] eqn:Hdata; simpl; [|done].
  destruct (check_lengths _ _); simpl; [|done].
  intros [= <-].
  apply program_lines_data_rows in Hhead.
  apply data_lines_rows in Hdata as [Hrows [data_line Hlast]].
  rewrite Hhead in Hrows; simpl in Hrows.
  eexists by_tick, _, data_line. split_and!; try done.
  - apply make_events_wait.
  - unfold fields, sentinel. cbn [wait_ticks tempo slots].
    by replace (voices * 2)%nat with (2 * voices)%nat by lia.
Qed.

(** ** Bytes, indexing and slices *)

Lemma b2z_range (b : byte) : 0 ≤ b2z b < 256.
Proof. unfold b2z. pose proof (Byte.to_N_bounded b). lia. Qed.

Lemma b2z_z2b (z : Z) : 0 ≤ z < 256 → b2z (z2b z) = z.
Proof.
  intros Hz. unfold b2z, z2b. rewrite Z.mod_small by done.
  destruct (Byte.of_N (Z.to_N z)) as [b|] eqn:Hb; simpl.
  - apply Byte.to_of_N in Hb. lia.
  - apply Byte.of_N_None_iff in Hb. lia.
Qed.

Lemma index_Ok (l : list byte) (i v : Z) :
  index l i = Ok v → 0 ≤ v < 256 ∧ (Z.to_nat i < length l)%nat.
Proof.
  unfold index. destruct (l !! Z.to_nat i) as [b|] eqn:Hb; [|done].
  intros [= <-]. split; [apply b2z_range|by eapply lookup_lt_Some].
Qed.

Lemma slice_all {A} (l : list A) (a b : Z) :
  len l ≤ b → slice l a b = drop (Z.to_nat a) l.
Proof.
  unfold slice, len. intros Hb. apply take_ge. rewrite length_drop. lia.
Qed.

Lemma len_slice {A} (l : list A) (a b : Z) :
  0 ≤ a → len (slice l a b) = Z.max 0 (Z.min b (len l) - a).
Proof. unfold slice, len. intros Ha. rewrite length_take, length_drop. lia. Qed.

Lemma index_slice (l : list byte) (a b i : Z) :
  0 ≤ a → 0 ≤ i → a + i < b → index (slice l a b) i = index l (a + i).
Proof.
  intros Ha Hi Hb. unfold index, slice.
  rewrite lookup_take_lt by lia. rewrite lookup_drop.
  by replace (Z.to_nat a + Z.to_nat i)%nat with (Z.to_nat (a + i)) by lia.
Qed.

(** ** Progress of the decode loop *)

Lemma read_vlq_from_bounds rest value offset value' offset' :
  read_vlq_from rest value offset = Ok (value', offset') →
  0 ≤ value → 0 ≤ value' ∧ offset < offset' ≤ offset + len rest.
Proof.
  unfold len. revert value offset.
  induction rest as [|b rest IH]; intros value offset; simpl; [done|].
  intros H Hv.
  assert (Hv' : 0 ≤ Z.lor (Z.shiftl value 7) (Z.land (b2z b) 127)).
  { apply Z.lor_nonneg. split; [by apply Z.shiftl_nonneg|].
    apply Z.land_nonneg. right; lia. }
  destruct (Z.land (b2z b) 128 =? 0).
  - injection H as <- <-. lia.
  - apply IH in H; [lia|done].
Qed.

Lemma read_vlq_bounds data offset value offset' :
  read_vlq data offset = Ok (value, offset') → 0 ≤ offset →
  0 ≤ value ∧ offset < offset' ≤ len data.
Proof.
  unfold read_vlq. intros H Ho.
  apply read_vlq_from_bounds in H; [|done].
  unfold len in *. rewrite length_drop in H. lia.
Qed.

Lemma meta_event_pos track st p tk running fl st' :
  meta_event track st p tk running = Ok (fl, st') → 0 ≤ p → p < pos st'.
Proof.
  unfold meta_event. intros H Hp.
  destruct (len track <=? p); [done|].
  destruct (index track p) as [meta_type|]; simpl in H; [|done].
  destruct (read_vlq track (p + 1)) as [[meta_len p']|] eqn:Hvlq; simpl in H; [|done].
  apply read_vlq_bounds in Hvlq as [? ?]; [|lia].
  repeat match type of H with
  | (if ?c then _ else _) = _ => destruct c
  | mbind _ (index ?l ?i) = _ => destruct (index l i); simpl in H; [|done]
  end.
  all: injection H as _ <-; simpl; lia.
Qed.

Lemma note_event_pos track st p tk running event_type chan fl st' :
  note_event track st p tk running event_type chan = Ok (fl, st') →
  pos st' = p + 2.
Proof.
  unfold note_event. intros H.
  destruct (len track <=? p + 1); [done|].
  destruct (index track p) as [data1|]; simpl in H; [|done].
  destruct (index track (p + 1)) as [data2|]; simpl in H; [|done].
  repeat match type of H with
  | (if ?c then _ else _) = _ => destruct c
  | match ?o with Some _ => _ | None => _ end = _ => destruct o as [[? ?]|]
  | match active_get ?k ?a with Some _ => _ | None => _ end = _ =>
      destruct (active_get k a)
  end.
  all: by injection H as _ <-.
Qed.

Lemma read_status_pos track running p status p' running' :
  read_status track running p = Ok (status, p', running') → p ≤ p'.
Proof.
  unfold read_status. destruct (index track p) as [s|]; simpl; [|done].
  destruct (128 <=? s); [intros [= _ <- _]; lia|].
  destruct running; [|done]. intros [= _ <- _]; lia.
Qed.

Lemma track_body_pos track st fl st' :
  track_body track st = Ok (fl, st') → 0 ≤ pos st → pos st < pos st'.
Proof.
  unfold track_body. intros H Hp.
  destruct (read_vlq track (pos st)) as [[delta p]|] eqn:Hvlq; simpl in H; [|done].
  apply read_vlq_bounds in Hvlq as [? ?]; [|done].
  destruct (len track <=? p); [injection H as _ <-; simpl; lia|].
  destruct (read_status track _ p) as [[[status p1] running]|] eqn:Hst;
    simpl in H; [|done].
  apply read_status_pos in Hst.
  destruct (status =? 255); [apply meta_event_pos in H; lia|].
  destruct ((status =? 240) || (status =? 247)).
  - destruct (read_vlq track p1) as [[sysex_len p2]|] eqn:Hsys;
      simpl in H; [|done].
    apply read_vlq_bounds in Hsys as [? ?]; [|lia].
    injection H as _ <-; simpl; lia.
  - destruct ((Z.land status 240 =? 192) || (Z.land status 240 =? 208)).
    + destruct (len track <=? p1); [done|].
      injection H as _ <-; simpl; lia.
    + apply note_event_pos in H. lia.
Qed.

(** The turn counter of [track_loop] is immaterial once it covers the bytes
    that are left: the loop always ends by its own condition or a [break]. *)
Lemma track_loop_fuel (n m : nat) (track : list byte) (st : track_state) :
  0 ≤ pos st → len track - pos st ≤ Z.of_nat n → len track - pos st ≤ Z.of_nat m →
  track_loop n track st = track_loop m track st.
Proof.
  revert m st. induction n as [|n IH]; intros m st Hp Hn Hm.
  - destruct m; simpl; destruct (len track <=? pos st) eqn:Hlen; try done; lia.
  - destruct m; simpl; destruct (len track <=? pos st) eqn:Hlen; try done; [lia|].
    destruct (track_body track st) as [[fl st']|] eqn:Hbody; simpl; [|done].
    destruct fl; [|done].
    apply track_body_pos in Hbody; [|done].
    apply IH; lia.
Qed.

Lemma track_loop_step (n : nat) (track : list byte) (st st' : track_state) :
  pos st < len track →
  track_body track st = Ok (Continue, st') →
  track_loop (S n) track st = track_loop n track st'.
Proof.
  intros Hp Hbody. simpl.
  destruct (len track <=? pos st) eqn:Hlen; [lia|]. by rewrite Hbody.
Qed.

Lemma track_loop_done (n : nat) (track : list byte) (st : track_state) :
  len track ≤ pos st → track_loop n track st = Ok st.
Proof.
  intros Hp. destruct n; simpl; destruct (len track <=? pos st) eqn:Hlen;
    try done; lia.
Qed.

(** ** Meta events *)

(** C5, as the code has it. A time-signature meta event (type 0x58, at
    least two payload bytes [m0], [m1]) always replaces the time signature,
    by [max(1, m0)] over [2^m1]: a numerator byte of 0 decodes as numerator
    1, and no payload falls back to 4/4. *)
Theorem time_signature_meta (track : list byte) (st : track_state)
    (p tk : Z) (running : option Z) (meta_len p' m0 m1 : Z) :
  p < len track →
  index track p = Ok 0x58 →
  read_vlq track (p + 1) = Ok (meta_len, p') →
  index (slice track p' (p' + meta_len)) 0 = Ok m0 →
  index (slice track p' (p' + meta_len)) 1 = Ok m1 →
  meta_event track st p tk running
  = Ok (Continue,
        mkTrackState running (p' + meta_len) tk (active st) (st_notes st)
          (st_tempos st) (mkTimeSig (Z.max 1 m0) (2 ^ m1)))
  ∧ (m0 = 0 → Z.max 1 m0 = 1)
  ∧ 0 < 2 ^ m1.
Proof.
  intros Hp Htype Hvlq Hm0 Hm1.
  pose proof (index_Ok _ _ _ Hm1) as [Hr1 Hl1].
  assert (Hpow : 0 < 2 ^ m1) by (apply Z.pow_pos_nonneg; lia).
  split_and!; [|lia|done].
  unfold meta_event.
  destruct (len track <=? p) eqn:Hlen; [lia|].
  rewrite Htype; simpl. rewrite Hvlq; simpl.
  destruct (2 <=? len (slice track p' (p' + meta_len))) eqn:Hlen2;
    [|unfold len in *; lia].
  rewrite Hm0, Hm1; simpl.
  destruct (0 <? 2 ^ m1) eqn:Hd; [done|lia].
Qed.

(** C10. A tempo meta event (type 0x51, three payload bytes) whose
    microseconds-per-quarter value is 0 adds no tempo and raises nothing:
    the loop goes on with only its position, tick and running status
    moved, and the division is not evaluated. *)
Theorem zero_tempo_meta (track : list byte) (st : track_state)
    (p tk : Z) (running : option Z) (meta_len p' m0 m1 m2 : Z) :
  p < len track →
  index track p = Ok 0x51 →
  read_vlq track (p + 1) = Ok (meta_len, p') →
  len (slice track p' (p' + meta_len)) = 3 →
  index (slice track p' (p' + meta_len)) 0 = Ok m0 →
  index (slice track p' (p' + meta_len)) 1 = Ok m1 →
  index (slice track p' (p' + meta_len)) 2 = Ok m2 →
  Z.lor (Z.lor (Z.shiftl m0 16) (Z.shiftl m1 8)) m2 = 0 →
  meta_event track st p tk running
  = Ok (Continue,
        mkTrackState running (p' + meta_len) tk (active st) (st_notes st)
          (st_tempos st) (st_time_signature st)).
Proof.
  intros Hp Htype Hvlq Hlen3 Hm0 Hm1 Hm2 Hus.
  unfold meta_event.
  destruct (len track <=? p) eqn:Hlen; [lia|].
  rewrite Htype; simpl. rewrite Hvlq; simpl.
  rewrite Hlen3; simpl. rewrite Hm0, Hm1, Hm2; simpl.
  by rewrite Hus.
Qed.

(** ** Note events *)

(** A status whose type nibble is note-off or note-on dispatches to
    [note_event]. *)
Lemma track_body_note (track : list byte) (st : track_state)
    (delta p status p1 : Z) (running : option Z) :
  read_vlq track (pos st) = Ok (delta, p) →
  p < len track →
  read_status track (running_status st) p = Ok (status, p1, running) →
  Z.land status 0xF0 = 0x80 ∨ Z.land status 0xF0 = 0x90 →
  track_body track st
  = note_event track st p1 (tick st + delta) running
      (Z.land status 0xF0) (Z.land status 0x0F).
Proof.
  intros Hvlq Hp Hst Htype. unfold track_body.
  rewrite Hvlq; simpl.
  destruct (len track <=? p) eqn:Hlen; [lia|].
  rewrite Hst; simpl.
  destruct (status =? 255) eqn:E1;
    [apply Z.eqb_eq in E1; subst status; vm_compute in Htype; lia|].
  destruct (status =? 240) eqn:E2;
    [apply Z.eqb_eq in E2; subst status; vm_compute in Htype; lia|].
  destruct (status =? 247) eqn:E3;
    [apply Z.eqb_eq in E3; subst status; vm_compute in Htype; lia|].
  simpl.
  destruct Htype as [-> | ->]; done.
Qed.

(** C9. A note-off, or a note-on of velocity 0, for a channel and pitch
    with no open note changes nothing but the position, the tick and the
    running status: nothing is raised, no note is emitted, no open note is
    touched, and the loop continues. *)
Theorem unmatched_note_off_ignored (track : list byte) (st : track_state)
    (delta p status p1 : Z) (running : option Z) (data1 data2 : Z) :
  read_vlq track (pos st) = Ok (delta, p) →
  p < len track →
  read_status track (running_status st) p = Ok (status, p1, running) →
  p1 + 1 < len track →
  index track p1 = Ok data1 →
  index track (p1 + 1) = Ok data2 →
  Z.land status 0xF0 = 0x80 ∨ (Z.land status 0xF0 = 0x90 ∧ data2 = 0) →
  active_get (Z.land status 0x0F, data1) (active st) = None
  ∨ active_get (Z.land status 0x0F, data1) (active st) = Some [] →
  track_body track st
  = Ok (Continue,
        mkTrackState running (p1 + 2) (tick st + delta) (active st)
          (st_notes st) (st_tempos st) (st_time_signature st)).
Proof.
  intros Hvlq Hp Hst Hp1 Hd1 Hd2 Htype Hopen.
  rewrite (track_body_note track st delta p status p1 running) by tauto.
  unfold note_event.
  destruct (len track <=? p1 + 1) eqn:Hlen; [lia|].
  rewrite Hd1, Hd2; simpl.
  destruct Htype as [-> | [-> ->]]; simpl.
  - by destruct Hopen as [-> | ->].
  - by destruct Hopen as [-> | ->].
Qed.

Lemma track_body_note_on (track : list byte) (st : track_state)
    (delta p status p1 : Z) (running : option Z) (data1 data2 : Z) :
  read_vlq track (pos st) = Ok (delta, p) →
  p < len track →
  read_status track (running_status st) p = Ok (status, p1, running) →
  p1 + 1 < len track →
  index track p1 = Ok data1 →
  index track (p1 + 1) = Ok data2 →
  Z.land status 0xF0 = 0x90 → 0 < data2 →
  track_body track st
  = Ok (Continue,
        mkTrackState running (p1 + 2) (tick st + delta)
          (active_append (Z.land status 0x0F, data1) (tick st + delta, data2) (active st))
          (st_notes st) (st_tempos st) (st_time_signature st)).
Proof.
  intros Hvlq Hp Hst Hp1 Hd1 Hd2 Htype Hvel.
  rewrite (track_body_note track st delta p status p1 running) by tauto.
  unfold note_event.
  destruct (len track <=? p1 + 1) eqn:Hlen; [lia|].
  rewrite Hd1, Hd2, Htype; simpl.
  destruct (0 <? data2) eqn:Hv; [done|lia].
Qed.

Lemma track_body_note_off (track : list byte) (st : track_state)
    (delta p status p1 : Z) (running : option Z) (data1 data2 : Z)
    (stack : list (Z * Z)) (start vel : Z) :
  read_vlq track (pos st) = Ok (delta, p) →
  p < len track →
  read_status track (running_status st) p = Ok (status, p1, running) →
  p1 + 1 < len track →
  index track p1 = Ok data1 →
  index track (p1 + 1) = Ok data2 →
  Z.land status 0xF0 = 0x80 ∨ (Z.land status 0xF0 = 0x90 ∧ data2 = 0) →
  active_get (Z.land status 0x0F, data1) (active st) = Some stack →
  last stack = Some (start, vel) →
  track_body track st
  = Ok (Continue,
        mkTrackState running (p1 + 2) (tick st + delta)
          (active_pop (Z.land status 0x0F, data1) (active st))
          (if start <? tick st + delta
           then st_notes st
                  ++ [mkNote start (tick st + delta) (Z.land status 0x0F) data1 vel]
           else st_notes st)
          (st_tempos st) (st_time_signature st)).
Proof.
  intros Hvlq Hp Hst Hp1 Hd1 Hd2 Htype Hget Hlast.
  rewrite (track_body_note track st delta p status p1 running) by tauto.
  unfold note_event.
  destruct (len track <=? p1 + 1) eqn:Hlen; [lia|].
  rewrite Hd1, Hd2; simpl.
  destruct Htype as [-> | [-> ->]]; simpl; rewrite Hget, Hlast;
    by destruct (start <? tick st + delta).
Qed.

Lemma active_get_head key stack (a : active_map) :
  active_get key ((key, stack) :: a) = Some stack.
Proof. simpl. by rewrite decide_True. Qed.

Lemma active_append_head key v stack (a : active_map) :
  active_append key v ((key, stack) :: a) = (key, stack ++ [v]) :: a.
Proof. simpl. by rewrite decide_True. Qed.

Lemma active_pop_head key stack (a : active_map) :
  active_pop key ((key, stack) :: a) = (key, removelast stack) :: a.
Proof. simpl. by rewrite decide_True. Qed.

Lemma land_data_byte (v : Z) :
  0 ≤ v < 128 → Z.land v 0x80 = 0 ∧ Z.land v 0x7F = v.
Proof.
  intros Hv.
  assert (H7 : Z.land v 0x7F = v).
  { change 0x7F with (Z.ones 7). rewrite Z.land_ones by lia.
    apply Z.mod_small. lia. }
  split; [|done].
  rewrite <-H7, <-Z.land_assoc. change (Z.land 0x7F 0x80) with 0.
  apply Z.land_0_r.
Qed.

Lemma land_status (base ch : Z) :
  base = 0x80 ∨ base = 0x90 → 0 ≤ ch < 16 →
  Z.land (base + ch) 0xF0 = base ∧ Z.land (base + ch) 0x0F = ch.
Proof.
  intros Hb Hch.
  assert (H : Forall (λ ch, ∀ base, base = 0x80 ∨ base = 0x90 →
                 Z.land (base + ch) 0xF0 = base ∧ Z.land (base + ch) 0x0F = ch)
                (seqZ 0 16)).
  { repeat (rewrite seqZ_cons by done; simpl).
    rewrite seqZ_nil by done.
    repeat constructor; destruct H as [-> | ->]; done. }
  rewrite Forall_seqZ in H. apply H; [lia|done].
Qed.

Lemma index_bytes (l : list Z) (i v : Z) :
  l !! Z.to_nat i = Some v → 0 ≤ v < 256 → index (bytes l) i = Ok v.
Proof.
  intros Hl Hv. unfold index, bytes.
  rewrite list_lookup_fmap, Hl; simpl. by rewrite b2z_z2b.
Qed.

Lemma read_vlq_one_byte (l : list Z) (offset v : Z) :
  l !! Z.to_nat offset = Some v → 0 ≤ v < 128 →
  read_vlq (bytes l) offset = Ok (v, offset + 1).
Proof.
  intros Hl Hv. unfold read_vlq, bytes.
  rewrite <-fmap_drop, (drop_S _ _ _ Hl); simpl.
  rewrite b2z_z2b by lia.
  destruct (land_data_byte v Hv) as [-> ->]. done.
Qed.

Lemma read_status_explicit (l : list Z) (running : option Z) (p status : Z) :
  l !! Z.to_nat p = Some status → 0x80 ≤ status < 0xF0 →
  read_status (bytes l) running p = Ok (status, p + 1, Some status).
Proof.
  intros Hl Hs. unfold read_status.
  rewrite (index_bytes l p status) by (done || lia); simpl.
  destruct (128 <=? status) eqn:H1; [|lia].
  destruct (status <? 240) eqn:H2; [done|lia].
Qed.

(** C2, as the code has it. A note-on at tick 0, a second note-on of the
    same channel and pitch at tick 5, and note-offs at ticks 8 and 12: the
    decoder emits exactly the two notes (5,8) and (0,12), in that order.
    Each note-off closes the note opened last. *)
Theorem retrigger_closes_latest_first (ch p v1 v2 r1 r2 : Z)
    (notes : list NoteEvent) (tempos : list TempoEvent) (ts : TimeSignature) :
  0 ≤ ch < 16 → 0 ≤ p < 128 →
  0 < v1 < 128 → 0 < v2 < 128 → 0 ≤ r1 < 128 → 0 ≤ r2 < 128 →
  let track := bytes [ 0; 0x90 + ch; p; v1;
                       5; 0x90 + ch; p; v2;
                       3; 0x80 + ch; p; r1;
                       4; 0x80 + ch; p; r2 ] in
  decode_track track notes tempos ts
  = Ok (mkTrackState (Some (0x80 + ch)) 16 12 [((ch, p), [])]
          (notes ++ [mkNote 5 8 ch p v2; mkNote 0 12 ch p v1]) tempos ts)
  ∧ close_active 12 [((ch, p), [])] = [].
Proof.
  intros Hch Hp Hv1 Hv2 Hr1 Hr2 track. split; [|done].
  destruct (land_status 0x90 ch) as [Hon_t Hon_c]; [tauto|done|].
  destruct (land_status 0x80 ch) as [Hoff_t Hoff_c]; [tauto|done|].
  unfold decode_track.
  change (length track) with 16%nat.
  assert (Hlen : len track = 16) by done.
  (* note-on at tick 0 *)
  erewrite track_loop_step; cycle 1.
  { simpl pos. lia. }
  { eapply (track_body_note_on track _ 0 1 (0x90 + ch) 2 _ p v1);
      try (simpl pos; simpl running_status); try lia.
    - by apply read_vlq_one_byte.
    - apply read_status_explicit; [done|lia].
    - apply index_bytes; [done|lia].
    - apply index_bytes; [done|lia]. }
  cbn [tick active st_notes st_tempos st_time_signature].
  rewrite Hon_c. cbn [active_append].
  (* note-on at tick 5 *)
  erewrite track_loop_step; cycle 1.
  { simpl pos. lia. }
  { eapply (track_body_note_on track _ 5 5 (0x90 + ch) 6 _ p v2);
      try (simpl pos; simpl running_status); try lia.
    - by apply read_vlq_one_byte.
    - apply read_status_explicit; [done|lia].
    - apply index_bytes; [done|lia].
    - apply index_bytes; [done|lia]. }
  cbn [tick active st_notes st_tempos st_time_signature].
  rewrite Hon_c, active_append_head. cbn [app].
  (* note-off at tick 8 closes the note opened at tick 5 *)
  erewrite track_loop_step; cycle 1.
  { simpl pos. lia. }
  { eapply (track_body_note_off track _ 3 9 (0x80 + ch) 10 _ p r1 _ 5 v2);
      try (simpl pos; simpl running_status); try lia.
    - by apply read_vlq_one_byte.
    - apply read_status_explicit; [done|lia].
    - apply index_bytes; [done|lia].
    - apply index_bytes; [done|lia].
    - cbn [active]. rewrite Hoff_c. apply active_get_head.
    - done. }
  cbn [tick active st_notes st_tempos st_time_signature].
  rewrite Hoff_c, active_pop_head. cbn [removelast].
  (* note-off at tick 12 closes the note opened at tick 0 *)
  erewrite track_loop_step; cycle 1.
  { simpl pos. lia. }
  { eapply (track_body_note_off track _ 4 13 (0x80 + ch) 14 _ p r2 _ 0 v1);
      try (simpl pos; simpl running_status); try lia.
    - by apply read_vlq_one_byte.
    - apply read_status_explicit; [done|lia].
    - apply index_bytes; [done|lia].
    - apply index_bytes; [done|lia].
    - cbn [active]. rewrite Hoff_c. apply active_get_head.
    - done. }
  cbn [tick active st_notes st_tempos st_time_signature].
  rewrite Hoff_c, active_pop_head. cbn [removelast].
  rewrite track_loop_done by (simpl pos; lia).
  simpl. by rewrite <-!app_assoc.
Qed.

(** ** Declared lengths that run past the end *)

Lemma index_in_range (l : list byte) (i : Z) :
  0 ≤ i < len l → ∃ v, index l i = Ok v.
Proof.
  unfold index, len. intros Hi.
  destruct (lookup_lt_is_Some_2 l (Z.to_nat i)) as [b ->]; [lia|]. eauto.
Qed.

Lemma meta_event_total (track : list byte) (st : track_state) (p tk : Z)
    (running : option Z) (meta_type meta_len p' : Z) :
  p < len track →
  index track p = Ok meta_type →
  read_vlq track (p + 1) = Ok (meta_len, p') →
  ∃ fl st', meta_event track st p tk running = Ok (fl, st')
            ∧ pos st' = p' + meta_len
            ∧ st_notes st' = st_notes st ∧ active st' = active st.
Proof.
  intros Hp Htype Hvlq. unfold meta_event.
  destruct (len track <=? p) eqn:Hlen; [lia|].
  rewrite Htype; simpl. rewrite Hvlq; simpl.
  set (meta_data := slice track p' (p' + meta_len)).
  destruct ((meta_type =? 81) && (len meta_data =? 3)) eqn:H51.
  { apply andb_prop in H51 as [_ H3%Z.eqb_eq].
    destruct (index_in_range meta_data 0) as [m0 ->]; [lia|].
    destruct (index_in_range meta_data 1) as [m1 ->]; [lia|].
    destruct (index_in_range meta_data 2) as [m2 ->]; [lia|]. simpl.
    destruct (0 <? _); eauto 10. }
  destruct ((meta_type =? 88) && (2 <=? len meta_data)) eqn:H58.
  { apply andb_prop in H58 as [_ H2%Z.leb_le].
    destruct (index_in_range meta_data 0) as [m0 ->]; [lia|].
    destruct (index_in_range meta_data 1) as [m1 ->]; [lia|]. simpl.
    destruct (0 <? _); eauto 10. }
  destruct (meta_type =? 47); eauto 10.
Qed.

(** A chunk whose declared length reaches the end of the buffer or beyond:
    its body is what is left of the buffer. *)
Lemma parse_tracks_overrun (count : nat) (data : list byte) (offset track_len : Z)
    (notes : list NoteEvent) (tempos : list TempoEvent) (ts : TimeSignature)
    (song_end : Z) :
  0 ≤ offset →
  tag_is (slice data offset (offset + 4)) MTrk = true →
  unpack_u32 data (offset + 4) = Ok track_len →
  len data < offset + 8 + track_len →
  parse_tracks (S count) data offset notes tempos ts song_end
  = st ← decode_track (drop (Z.to_nat (offset + 8)) data) notes tempos ts;
    match count with
    | O => Ok (st_notes st ++ close_active (tick st) (active st),
               st_tempos st, st_time_signature st, Z.max song_end (tick st))
    | S _ => Raise (MidiParseError "Missing MTrk header")
    end.
Proof.
  intros Ho Htag Hlen Hover. simpl.
  rewrite Htag, Hlen; simpl.
  replace (offset + 4 + 4) with (offset + 8) by lia.
  rewrite slice_all by lia.
  destruct (decode_track _ _ _ _) as [st|]; simpl; [|done].
  destruct count as [|count]; simpl; [done|].
  unfold slice. rewrite drop_ge by (unfold len in *; lia).
  by rewrite take_nil.
Qed.

(** C3, as the code has it. A declared length that exceeds the bytes that
    remain is not an error.  A track chunk that declares more than the
    buffer holds is decoded from the bytes that are left (and a chunk
    expected after it is then missing its tag); a meta event whose payload
    length runs past the end of the track is decoded with the payload that
    is left, and a system-exclusive event whose length runs past the end is
    skipped: either way the track's loop then ends without an error. *)
Theorem declared_length_overrun_tolerated :
  (∀ (count : nat) (data : list byte) (offset track_len : Z)
     (notes : list NoteEvent) (tempos : list TempoEvent) (ts : TimeSignature)
     (song_end : Z),
     0 ≤ offset →
     tag_is (slice data offset (offset + 4)) MTrk = true →
     unpack_u32 data (offset + 4) = Ok track_len →
     len data < offset + 8 + track_len →
     parse_tracks (S count) data offset notes tempos ts song_end
     = st ← decode_track (drop (Z.to_nat (offset + 8)) data) notes tempos ts;
       match count with
       | O => Ok (st_notes st ++ close_active (tick st) (active st),
                  st_tempos st, st_time_signature st, Z.max song_end (tick st))
       | S _ => Raise (MidiParseError "Missing MTrk header")
       end)
  ∧ (∀ (track : list byte) (st : track_state) (delta p p1 : Z)
       (running : option Z) (meta_type meta_len p2 : Z),
       read_vlq track (pos st) = Ok (delta, p) →
       p < len track →
       read_status track (running_status st) p = Ok (0xFF, p1, running) →
       p1 < len track →
       index track p1 = Ok meta_type →
       read_vlq track (p1 + 1) = Ok (meta_len, p2) →
       len track < p2 + meta_len →
       ∃ fl st', track_body track st = Ok (fl, st')
                 ∧ pos st' = p2 + meta_len
                 ∧ st_notes st' = st_notes st ∧ active st' = active st
                 ∧ ∀ n, track_loop n track st' = Ok st')
  ∧ (∀ (track : list byte) (st : track_state) (delta p status p1 : Z)
       (running : option Z) (sysex_len p2 : Z),
       read_vlq track (pos st) = Ok (delta, p) →
       p < len track →
       read_status track (running_status st) p = Ok (status, p1, running) →
       status = 0xF0 ∨ status = 0xF7 →
       read_vlq track p1 = Ok (sysex_len, p2) →
       len track < p2 + sysex_len →
       let st' := mkTrackState running (p2 + sysex_len) (tick st + delta)
                    (active st) (st_notes st) (st_tempos st)
                    (st_time_signature st) in
       track_body track st = Ok (Continue, st')
       ∧ ∀ n, track_loop n track st' = Ok st').
Proof.
  split_and!.
  - apply parse_tracks_overrun.
  - intros track st delta p p1 running meta_type meta_len p2
      Hvlq Hp Hst Hp1 Htype Hlen Hover.
    destruct (meta_event_total track st p1 (tick st + delta) running
                meta_type meta_len p2) as (fl & st' & Hmeta & Hpos & Hn & Ha);
      [done..|].
    exists fl, st'. split_and!; [|done..|].
    + unfold track_body. rewrite Hvlq; simpl.
      destruct (len track <=? p) eqn:Hl; [lia|]. by rewrite Hst.
    + intros n. apply track_loop_done. lia.
  - intros track st delta p status p1 running sysex_len p2
      Hvlq Hp Hst Hstatus Hlen Hover st'. split.
    + unfold track_body. rewrite Hvlq; simpl.
      destruct (len track <=? p) eqn:Hl; [lia|]. rewrite Hst; simpl.
      destruct Hstatus as [-> | ->]; simpl; by rewrite Hlen.
    + intros n. apply track_loop_done. simpl. lia.
Qed.

(** ** The voice/channel selector *)

Lemma unused_channels_NoDup (used : list Z) : NoDup (unused_channels used).
Proof. apply NoDup_filter, NoDup_seqZ. Qed.

Lemma unused_channels_fresh (used : list Z) (ch : Z) :
  ch ∈ unused_channels used → ch ∉ used.
Proof. unfold unused_channels. rewrite list_elem_of_filter. tauto. Qed.

Lemma unused_channels_length (used : list Z) :
  (16 ≤ length (unused_channels used) + length used)%nat.
Proof.
  unfold unused_channels.
  pose proof (filter_app_complement (λ ch, ch ∉ used) (seqZ 0 16)) as Hperm.
  apply Permutation_length in Hperm.
  rewrite length_app, length_seqZ in Hperm.
  assert (length (filter (λ ch : Z, ¬ (ch ∉ used)) (seqZ 0 16)) ≤ length used)%nat.
  { apply submseteq_length, NoDup_submseteq.
    - apply NoDup_filter, NoDup_seqZ.
    - intros ch [Hin _]%list_elem_of_filter.
      by destruct (decide (ch ∈ used)). }
  lia.
Qed.

Lemma NoDup_take {A} (l : list A) (n : nat) : NoDup l → NoDup (take n l).
Proof. intros Hnd. exact (sublist_NoDup _ _ Hnd (sublist_take l n)). Qed.

Lemma NoDup_pad (chosen : list Z) (n : nat) :
  NoDup chosen → NoDup (chosen ++ take n (unused_channels chosen)).
Proof.
  intros Hnd. apply NoDup_app. split_and!; [done| |].
  - intros ch Hin Hin'. apply elem_of_take in Hin' as (i & Hin' & _).
    apply list_elem_of_lookup_2 in Hin'.
    by apply unused_channels_fresh in Hin'.
  - apply NoDup_take, unused_channels_NoDup.
Qed.

Lemma NoDup_pad_all (chosen : list Z) :
  NoDup chosen → NoDup (chosen ++ unused_channels chosen).
Proof.
  intros Hnd. apply NoDup_app. split_and!; [done| |apply unused_channels_NoDup].
  intros ch Hin Hin'. by apply unused_channels_fresh in Hin'.
Qed.

Lemma ranked_NoDup (notes : list NoteEvent) :
  NoDup (fst <$> sorted rank_leb (map_to_list (count_channels notes))).
Proof.
  rewrite sorted_Permutation. apply NoDup_fst_map_to_list.
Qed.

(** C4, as the code has it. For at most 16 voices the selector returns
    exactly that many channel indices.  In automatic mode they are pairwise
    distinct; in explicit mode they are distinct exactly when the first
    [voices] entries of the explicit list are: duplicates in the explicit
    list are kept, not rejected. *)
Theorem choose_voice_channels_spec (notes : list NoteEvent) (voices : nat)
    (explicit : option (list Z)) :
  (voices ≤ 16)%nat →
  length (choose_voice_channels notes voices explicit) = voices
  ∧ (NoDup (choose_voice_channels notes voices explicit)
     ↔ NoDup (take voices (default [] explicit))).
Proof.
  intros Hv. unfold choose_voice_channels.
  destruct explicit as [[|x explicit]|]; simpl default.
  2:{ set (chosen := take voices (x :: explicit)).
      pose proof (unused_channels_length chosen).
      destruct (Nat.ltb_spec (length chosen) voices) as [Hshort|Hshort].
      - split.
        + rewrite length_app, length_take. lia.
        + split; [by intros [? _]%NoDup_app|apply NoDup_pad].
      - split; [|done].
        unfold chosen in *. rewrite length_take in *. lia. }
  all: rewrite take_nil.
  all: pose proof (ranked_NoDup notes) as Hnd.
  all: destruct (fst <$> sorted rank_leb (map_to_list (count_channels notes)))
         as [|ch ranked] eqn:Hranked.
  all: try (split; [rewrite length_seqZ; lia
                   |split; [constructor|intros _; apply NoDup_seqZ]]).
  all: set (r := ch :: ranked) in *.
  all: pose proof (unused_channels_length r).
  all: destruct (Nat.ltb_spec (length r) voices) as [Hshort|Hshort].
  all: split; [rewrite length_take, ?length_app; lia|].
  all: split; [constructor|intros _].
  all: apply NoDup_take; by try apply NoDup_pad_all.
Qed.

(** ** The monophonic reducer *)

(** The notes that compete for tick [t] on channel [chan]. *)
Definition onset_at (chan t : Z) (n : NoteEvent) : Prop :=
  channel n = chan ∧ start_tick n = t.

#[global] Instance onset_at_dec chan t n : Decision (onset_at chan t n).
Proof. unfold onset_at. apply _. Defined.

(** What [onset_step] does to the entry of one tick. *)
Definition pick_step (policy : chord_policy) (existing : option NoteEvent)
    (n : NoteEvent) : option NoteEvent :=
  match existing with
  | None => Some n
  | Some e =>
      let pick :=
        match policy with
        | High => note e <? note n
        | Low => note n <? note e
        | First => false
        end in
      if pick then Some n else Some e
  end.

Lemma onset_fold_lookup chan policy t (l : list NoteEvent) (onsets : gmap Z NoteEvent) :
  foldl (onset_step chan policy) onsets l !! t
  = foldl (pick_step policy) (onsets !! t) (filter (onset_at chan t) l).
Proof.
  revert onsets. induction l as [|n l IH]; intros onsets; simpl; [done|].
  rewrite IH. unfold onset_step.
  destruct (channel n =? chan) eqn:Hch; simpl.
  - apply Z.eqb_eq in Hch.
    destruct (decide (start_tick n = t)) as [Ht|Ht].
    + rewrite filter_cons_True by done. simpl. subst t.
      unfold pick_step.
      destruct (onsets !! start_tick n) as [e|] eqn:He.
      * destruct policy; simpl;
          repeat match goal with
          | |- context [if ?c then _ else _] => destruct c
          end; by rewrite ?lookup_insert_eq, ?He.
      * by rewrite lookup_insert_eq.
    + rewrite filter_cons_False by (unfold onset_at; tauto).
      destruct (onsets !! start_tick n) as [e|];
        [destruct policy; simpl;
           repeat match goal with
           | |- context [if ?c then _ else _] => destruct c
           end|]; by rewrite ?lookup_insert_ne.
  - apply Z.eqb_neq in Hch.
    by rewrite filter_cons_False by (unfold onset_at; tauto).
Qed.

Lemma select_lookup (notes : list NoteEvent) (chan : Z) (policy : chord_policy) (t : Z) :
  select_monophonic_onsets notes chan policy !! t
  = foldl (pick_step policy) None
      (filter (onset_at chan t) (sorted onset_leb notes)).
Proof. unfold select_monophonic_onsets. by rewrite onset_fold_lookup. Qed.

Lemma pick_high (l : list NoteEvent) (e : NoteEvent) :
  ∃ w, foldl (pick_step High) (Some e) l = Some w
       ∧ (w = e ∨ w ∈ l) ∧ note e ≤ note w ∧ ∀ n, n ∈ l → note n ≤ note w.
Proof.
  revert e. induction l as [|x l IH]; intros e; simpl.
  - exists e. split_and!; [done|by left|lia|by intros n ?%elem_of_nil].
  - destruct (Z.ltb_spec (note e) (note x)).
    + destruct (IH x) as (w & -> & Hw & Hle & Hall). exists w.
      split_and!; [done| |lia|].
      * right. destruct Hw as [->|?]; [left|by right].
      * intros n [->|?]%elem_of_cons; [done|by apply Hall].
    + destruct (IH e) as (w & -> & Hw & Hle & Hall). exists w.
      split_and!; [done| |done|].
      * destruct Hw as [->|?]; [by left|right; by right].
      * intros n [->|?]%elem_of_cons; [lia|by apply Hall].
Qed.

Lemma pick_low (l : list NoteEvent) (e : NoteEvent) :
  ∃ w, foldl (pick_step Low) (Some e) l = Some w
       ∧ (w = e ∨ w ∈ l) ∧ note w ≤ note e ∧ ∀ n, n ∈ l → note w ≤ note n.
Proof.
  revert e. induction l as [|x l IH]; intros e; simpl.
  - exists e. split_and!; [done|by left|lia|by intros n ?%elem_of_nil].
  - destruct (Z.ltb_spec (note x) (note e)).
    + destruct (IH x) as (w & -> & Hw & Hle & Hall). exists w.
      split_and!; [done| |lia|].
      * right. destruct Hw as [->|?]; [left|by right].
      * intros n [->|?]%elem_of_cons; [done|by apply Hall].
    + destruct (IH e) as (w & -> & Hw & Hle & Hall). exists w.
      split_and!; [done| |done|].
      * destruct Hw as [->|?]; [by left|right; by right].
      * intros n [->|?]%elem_of_cons; [lia|by apply Hall].
Qed.

Lemma pick_first (l : list NoteEvent) (e : NoteEvent) :
  foldl (pick_step First) (Some e) l = Some e.
Proof. induction l as [|x l IH]; simpl; done. Qed.

Lemma onset_leb_spec (a b : NoteEvent) :
  onset_leb a b = true ↔
  start_tick a < start_tick b
  ∨ (start_tick a = start_tick b
     ∧ (end_tick a < end_tick b
        ∨ (end_tick a = end_tick b ∧ note a ≤ note b))).
Proof.
  unfold onset_leb, pair_leb; simpl.
  rewrite !orb_true_iff, !andb_true_iff, !orb_true_iff, !andb_true_iff.
  rewrite !Z.ltb_lt, !Z.eqb_eq, Z.leb_le. tauto.
Qed.

Lemma sorted_onsets_StronglySorted (notes : list NoteEvent) :
  StronglySorted (λ a b, onset_leb a b = true) (sorted onset_leb notes).
Proof.
  apply Sorted_StronglySorted.
  - intros a b c. rewrite !onset_leb_spec. lia.
  - apply sorted_Sorted. intros a b Hab.
    apply onset_leb_spec. apply not_true_iff_false in Hab.
    rewrite onset_leb_spec in Hab. lia.
Qed.

Lemma StronglySorted_filter_head {A} (R : A → A → Prop) (P : A → Prop)
    `{∀ x, Decision (P x)} (l : list A) (c : A) (rest : list A) :
  StronglySorted R l → filter P l = c :: rest → Forall (R c) rest.
Proof.
  induction 1 as [|x l Hl IH Hx]; [done|].
  destruct (decide (P x)).
  - rewrite filter_cons_True by done. intros [= -> <-].
    apply Forall_forall. intros y [_ Hy]%list_elem_of_filter.
    rewrite Forall_forall in Hx. by apply Hx.
  - rewrite filter_cons_False by done. apply IH.
Qed.

Lemma elem_of_three {A} (x a b c : A) :
  x ∈ [a; b; c] ↔ x = a ∨ x = b ∨ x = c.
Proof. rewrite !elem_of_cons, elem_of_nil. tauto. Qed.

(** C6, as the code has it. When the notes of a channel that start at a
    tick are exactly three, of pitches 60, 64 and 67, the winner at that
    tick has pitch 67 under [High] and pitch 60 under [Low].  Under [First]
    the winner is the note that comes first by (end tick, pitch): it has
    pitch 60 when the pitch-60 note ends no later than the other two, and
    it is never preceded by one of the three in that order. *)
Theorem chord_policy_three_onsets (notes : list NoteEvent) (chan t : Z)
    (n60 n64 n67 : NoteEvent) :
  filter (onset_at chan t) notes ≡ₚ [n60; n64; n67] →
  note n60 = 60 → note n64 = 64 → note n67 = 67 →
  note <$> select_monophonic_onsets notes chan High !! t = Some 67
  ∧ note <$> select_monophonic_onsets notes chan Low !! t = Some 60
  ∧ (end_tick n60 ≤ end_tick n64 → end_tick n60 ≤ end_tick n67 →
     note <$> select_monophonic_onsets notes chan First !! t = Some 60)
  ∧ ∃ w, select_monophonic_onsets notes chan First !! t = Some w
         ∧ w ∈ [n60; n64; n67]
         ∧ ∀ n, n ∈ [n60; n64; n67] →
             end_tick w < end_tick n
             ∨ (end_tick w = end_tick n ∧ note w ≤ note n).
Proof.
  intros Hperm H60 H64 H67.
  rewrite !select_lookup.
  pose proof (sorted_onsets_StronglySorted notes) as Hsorted.
  assert (Hc : filter (onset_at chan t) (sorted onset_leb notes) ≡ₚ [n60; n64; n67])
    by by rewrite sorted_Permutation.
  destruct (filter (onset_at chan t) (sorted onset_leb notes)) as [|c rest] eqn:Hf.
  { by apply Permutation_nil_l in Hc. }
  assert (Hin : ∀ n, n ∈ c :: rest ↔ n = n60 ∨ n = n64 ∨ n = n67).
  { intros n. by rewrite Hc, elem_of_three. }
  assert (Hnotes : ∀ n, n ∈ c :: rest → note n = 60 ∨ note n = 64 ∨ note n = 67).
  { intros n [-> | [-> | ->]]%Hin; lia. }
  assert (Hstart : ∀ n, n ∈ c :: rest → start_tick n = t).
  { intros n Hn. rewrite <-Hf in Hn.
    by apply list_elem_of_filter in Hn as [[_ ?] _]. }
  assert (Hcin : c ∈ c :: rest) by left.
  assert (H60in : n60 ∈ c :: rest) by (apply Hin; tauto).
  assert (H67in : n67 ∈ c :: rest) by (apply Hin; tauto).
  assert (Hfirst : ∀ n, n ∈ c :: rest →
            end_tick c < end_tick n ∨ (end_tick c = end_tick n ∧ note c ≤ note n)).
  { intros n Hn. pose proof (Hstart n Hn) as Hsn.
    apply elem_of_cons in Hn as [->|Hn]; [lia|].
    pose proof (StronglySorted_filter_head _ _ _ _ _ Hsorted Hf) as Hhead.
    rewrite Forall_forall in Hhead. specialize (Hhead n Hn).
    apply onset_leb_spec in Hhead.
    rewrite (Hstart c Hcin), Hsn in Hhead. lia. }
  simpl. split_and!.
  - destruct (pick_high rest c) as (w & -> & Hw & Hle & Hall). simpl. f_equal.
    assert (note w = 60 ∨ note w = 64 ∨ note w = 67).
    { apply Hnotes. destruct Hw as [->|?]; [left|by right]. }
    assert (note n67 ≤ note w).
    { apply elem_of_cons in H67in as [->|?]; [done|by apply Hall]. }
    lia.
  - destruct (pick_low rest c) as (w & -> & Hw & Hle & Hall). simpl. f_equal.
    assert (note w = 60 ∨ note w = 64 ∨ note w = 67).
    { apply Hnotes. destruct Hw as [->|?]; [left|by right]. }
    assert (note w ≤ note n60).
    { apply elem_of_cons in H60in as [->|?]; [done|by apply Hall]. }
    lia.
  - intros He64 He67. rewrite pick_first. simpl. f_equal.
    pose proof (Hfirst n60 H60in) as Hc60.
    apply Hin in Hcin as [-> | [-> | ->]]; lia.
  - exists c. rewrite pick_first. split_and!; [done|by apply elem_of_three, Hin|].
    intros n Hn%elem_of_three%Hin. by apply Hfirst.
Qed.

(** ** Pitch to frequency *)

Lemma iroot12_bits_spec (i : nat) (a r : Z) :
  0 ≤ r → r ^ 12 ≤ a < (r + 2 ^ Z.of_nat i) ^ 12 →
  let s := iroot12_bits i a r in 0 ≤ s ∧ s ^ 12 ≤ a < (s + 1) ^ 12.
Proof.
  revert r. induction i as [|i IH]; intros r Hr Ha.
  - cbn [iroot12_bits]. change (2 ^ Z.of_nat 0) with 1 in Ha. tauto.
  - cbn [iroot12_bits].
    assert (H2 : 2 ^ Z.of_nat (S i) = 2 ^ Z.of_nat i + 2 ^ Z.of_nat i).
    { rewrite Nat2Z.inj_succ, Z.pow_succ_r by lia. lia. }
    pose proof (Z.pow_pos_nonneg 2 (Z.of_nat i)) as Hpos.
    destruct (Z.leb_spec ((r + 2 ^ Z.of_nat i) ^ 12) a).
    + apply IH; [clear -Hr Hpos; lia|]. rewrite H2 in Ha. split; [tauto|].
      rewrite <-Z.add_assoc. tauto.
    + apply IH; [exact Hr|]. split; [tauto|exact H].
Qed.

(** [iroot12 a] is the integer twelfth root of [a]. *)
Lemma iroot12_spec (a : Z) :
  0 ≤ a → 0 ≤ iroot12 a ∧ iroot12 a ^ 12 ≤ a < (iroot12 a + 1) ^ 12.
Proof.
  intros Ha. unfold iroot12. apply iroot12_bits_spec; [lia|].
  split; [exact Ha|]. rewrite Z.add_0_l.
  destruct (decide (a = 0)) as [->|Hne]; [by vm_compute|].
  pose proof (Z.log2_nonneg a) as Hlog.
  pose proof (Z.div_pos (Z.log2 a) 12 Hlog ltac:(lia)) as Hdiv.
  rewrite Z2Nat.id by lia.
  rewrite <-Z.pow_mul_r by lia.
  pose proof (Z.log2_spec a ltac:(lia)) as [_ Hlt].
  eapply Z.lt_le_trans; [exact Hlt|].
  apply Z.pow_le_mono_r; [lia|].
  pose proof (Z.mod_pos_bound (Z.log2 a) 12 ltac:(lia)).
  pose proof (Z.div_mod (Z.log2 a) 12 ltac:(lia)). lia.
Qed.

(** The frequency of a pitch [note >= 0] is the integer [f] nearest to
    [440 * 2^((note - 69) / 12)]: on twelfth powers, with the power of two
    moved to the side where its exponent is not negative,
    [(2 f - 1)^12 * 2^down <= 880^12 * 2^up < (2 f + 1)^12 * 2^down]. *)
Lemma midi_note_to_freq_nearest (note : Z) :
  0 ≤ note →
  let f := midi_note_to_freq note in
  let up := Z.max 0 (note - 69) in
  let down := Z.max 0 (69 - note) in
  (2 * f - 1) ^ 12 * 2 ^ down ≤ 880 ^ 12 * 2 ^ up < (2 * f + 1) ^ 12 * 2 ^ down.
Proof.
  intros Hn f up down. subst f. unfold midi_note_to_freq.
  set (K := 880 ^ 12).
  assert (HK : 2 ^ 69 ≤ K) by (by vm_compute).
  set (a := Z.shiftl K (note - 69)).
  assert (HD : 0 < 2 ^ down) by (apply Z.pow_pos_nonneg; lia).
  assert (HU : 0 < 2 ^ up) by (apply Z.pow_pos_nonneg; lia).
  assert (Ha : 1 ≤ a ∧ a * 2 ^ down ≤ K * 2 ^ up < (a + 1) * 2 ^ down).
  { unfold a. destruct (Z.le_gt_cases 69 note) as [Hge|Hlt].
    - rewrite Z.shiftl_mul_pow2 by lia.
      replace up with (note - 69) by lia. replace down with 0 by lia.
      change (2 ^ 0) with 1. clearbody K. nia.
    - rewrite Z.shiftl_div_pow2 by lia.
      replace (- (note - 69)) with down by lia. replace up with 0 by lia.
      change (2 ^ 0) with 1.
      assert (2 ^ down ≤ 2 ^ 69) by (apply Z.pow_le_mono_r; lia).
      pose proof (Z.div_mod K (2 ^ down) ltac:(lia)) as Hdm.
      pose proof (Z.mod_pos_bound K (2 ^ down) HD) as Hmod.
      assert (1 ≤ K / 2 ^ down) by (apply Z.div_le_lower_bound; lia).
      clearbody K. nia. }
  destruct Ha as (Ha1 & Hlo & Hhi).
  destruct (iroot12_spec a ltac:(lia)) as (Hr0 & Hrlo & Hrhi).
  set (r := iroot12 a) in *.
  assert (Hr1 : 1 ≤ r).
  { destruct (decide (r = 0)) as [Hz|]; [|lia].
    rewrite Hz in Hrhi. change ((0 + 1) ^ 12) with 1 in Hrhi. lia. }
  pose proof (Z.div_mod (r + 1) 2 ltac:(lia)) as Hdm.
  pose proof (Z.mod_pos_bound (r + 1) 2 ltac:(lia)) as Hmod.
  set (f := (r + 1) / 2) in *.
  assert (Hf1 : (2 * f - 1) ^ 12 ≤ r ^ 12) by (apply Z.pow_le_mono_l; lia).
  assert (Hf2 : (r + 1) ^ 12 ≤ (2 * f + 1) ^ 12) by (apply Z.pow_le_mono_l; lia).
  clearbody K a r f. clear Hdm Hmod.
  generalize dependent ((2 * f - 1) ^ 12). generalize dependent ((2 * f + 1) ^ 12).
  generalize dependent ((r + 1) ^ 12). generalize dependent (r ^ 12).
  intros. nia.
Qed.

Example midi_note_to_freq_samples :
  midi_note_to_freq <$> [21; 57; 60; 62; 64; 67; 69; 81]
  = [28; 220; 262; 294; 330; 392; 440; 880].
Proof. by vm_compute. Qed.

(** ** The end-to-end scenario *)

Definition two_note_song : MidiSong :=
  mkSong 480 [mkNote 0 480 0 60 100; mkNote 480 960 0 64 100]
    [mkTempo 0 120] (mkTimeSig 4 4) 960.

(** C1, as the code has it. The two-note file decodes to the two-note song,
    whose final tick is 960; automatic selection of one voice picks channel
    0; and under every chord policy, in fixed tempo mode, the program holds
    three data rows, then the sentinel: pitch 60 sounds at 262 Hz, pitch 64
    at 330 Hz, and the final tick gets a closing row of its own. *)
Theorem two_note_scenario_rows :
  parse_midi two_note_file = Ok two_note_song
  ∧ choose_voice_channels (notes two_note_song) 1 None = [0]
  ∧ ∀ policy : chord_policy,
      ∃ lines,
        emit_basic_lines two_note_song "two_note.mid" "SCORE PLAYER" 1 [0]
          policy FixedTempo None 12 0 68 = Ok lines
        ∧ data_rows lines
          = [ mkRow 0 0 [262; 480]; mkRow 480 0 [330; 480]; mkRow 480 0 [0; 0];
              sentinel 1 ].
Proof.
  split_and!; [by vm_compute..|].
  intros []; eexists; (split; [vm_compute; reflexivity|by vm_compute]).
Qed.

(** The rows C1 expects are not the rows of the program. *)
Lemma two_note_scenario_not_two_rows :
  ∃ lines,
    emit_basic_lines two_note_song "two_note.mid" "SCORE PLAYER" 1 [0]
      High FixedTempo None 12 0 68 = Ok lines
    ∧ data_rows lines
      ≠ [ mkRow 0 0 [262; 480]; mkRow 480 0 [294; 480]; sentinel 1 ].
Proof. eexists. split; [vm_compute; reflexivity|by vm_compute]. Qed.

(** ** Note stacking, on a file *)

(** Channel 0, pitch 60: on at tick 0, on again at tick 5, off at ticks 8
    and 12. *)
Definition retrigger_file : list byte := bytes
  [ 77; 84; 104; 100; 0; 0; 0; 6; 0; 0; 0; 1; 1; 224;
    77; 84; 114; 107; 0; 0; 0; 20;
    0; 144; 60; 100;
    5; 144; 60; 80;
    3; 128; 60; 0;
    4; 128; 60; 0;
    0; 255; 47; 0 ].

(** The notes C2 expects, (0,8) and (5,12), are not the notes decoded. *)
Lemma retrigger_file_notes :
  ∃ song,
    parse_midi retrigger_file = Ok song
    ∧ (λ n, (start_tick n, end_tick n)) <$> notes song = [(5, 8); (0, 12)]
    ∧ (λ n, (start_tick n, end_tick n)) <$> notes song ≠ [(0, 8); (5, 12)].
Proof. eexists. split_and!; [vm_compute; reflexivity|by vm_compute..]. Qed.

Lemma retrigger_witness :
  (0 ≤ 0 < 16 ∧ 0 ≤ 60 < 128 ∧ 0 < 100 < 128 ∧ 0 < 80 < 128
   ∧ 0 ≤ 0 < 128 ∧ 0 ≤ 0 < 128)
  ∧ decode_track
      (bytes [0; 0x90 + 0; 60; 100; 5; 0x90 + 0; 60; 80;
              3; 0x80 + 0; 60; 0; 4; 0x80 + 0; 60; 0]) [] [] (mkTimeSig 4 4)
    = Ok (mkTrackState (Some (0x80 + 0)) 16 12 [((0, 60), [])]
            ([] ++ [mkNote 5 8 0 60 80; mkNote 0 12 0 60 100]) [] (mkTimeSig 4 4))
  ∧ close_active 12 [((0, 60), [])] = [].
Proof.
  split; [lia|].
  apply (retrigger_closes_latest_first 0 60 100 80 0 0 [] [] (mkTimeSig 4 4)); lia.
Defined.

(** ** Declared lengths, on files *)

(** The two-note file with a track chunk that declares 100 bytes where 37
    remain. *)
Definition overrun_chunk_file : list byte := bytes
  [ 77; 84; 104; 100; 0; 0; 0; 6; 0; 0; 0; 1; 1; 224;
    77; 84; 114; 107; 0; 0; 0; 100;
    0; 255; 81; 3; 7; 161; 32;
    0; 255; 88; 4; 4; 2; 24; 8;
    0; 144; 60; 100;
    131; 96; 128; 60; 0;
    0; 144; 64; 100;
    131; 96; 128; 64; 0;
    0; 255; 47; 0 ].

(** A track that ends inside a tempo meta event declaring 10 payload bytes
    where 3 remain, and one that ends inside a system-exclusive event
    declaring 127 bytes where 1 remains. *)
Definition overrun_meta_track : list byte := bytes
  [ 0; 144; 60; 100;  96; 128; 60; 0;  0; 255; 81; 10; 7; 161; 32 ].

Definition overrun_sysex_track : list byte := bytes
  [ 0; 144; 60; 100;  96; 128; 60; 0;  0; 240; 127; 1 ].

Definition one_track_file (track : list byte) : list byte :=
  bytes [ 77; 84; 104; 100; 0; 0; 0; 6; 0; 0; 0; 1; 1; 224;
          77; 84; 114; 107; 0; 0; 0; len track ] ++ track.

(** Decoding succeeds in all three cases C3 says it fails: the truncated
    chunk gives the very song of the complete file, and the truncated tempo
    payload is decoded as a tempo. *)
Lemma overrun_files_decode :
  unpack_u32 overrun_chunk_file 18 = Ok 100
  ∧ len overrun_chunk_file - 22 = 37
  ∧ parse_midi overrun_chunk_file = Ok two_note_song
  ∧ parse_midi (one_track_file overrun_meta_track)
    = Ok (mkSong 480 [mkNote 0 96 0 60 100] [mkTempo 96 120] (mkTimeSig 4 4) 96)
  ∧ parse_midi (one_track_file overrun_sysex_track)
    = Ok (mkSong 480 [mkNote 0 96 0 60 100] [mkTempo 0 120] (mkTimeSig 4 4) 96).
Proof. split_and!; by vm_compute. Qed.

(** The state of the loop after the note of [overrun_meta_track] and
    [overrun_sysex_track] has been closed. *)
Definition after_note : track_state :=
  mkTrackState (Some 0x80) 8 96 [((0, 60), [])] [mkNote 0 96 0 60 100] []
    (mkTimeSig 4 4).

Lemma declared_length_overrun_witness :
  ((0 ≤ 14
    ∧ tag_is (slice overrun_chunk_file 14 (14 + 4)) MTrk = true
    ∧ unpack_u32 overrun_chunk_file (14 + 4) = Ok 100
    ∧ len overrun_chunk_file < 14 + 8 + 100)
   ∧ parse_tracks 1 overrun_chunk_file 14 [] [] (mkTimeSig 4 4) 0
     = st ← decode_track (drop (Z.to_nat (14 + 8)) overrun_chunk_file) [] []
              (mkTimeSig 4 4);
       Ok (st_notes st ++ close_active (tick st) (active st),
           st_tempos st, st_time_signature st, Z.max 0 (tick st)))
  ∧ ((read_vlq overrun_meta_track (pos after_note) = Ok (0, 9)
      ∧ 9 < len overrun_meta_track
      ∧ read_status overrun_meta_track (running_status after_note) 9
        = Ok (0xFF, 10, Some 0x80)
      ∧ 10 < len overrun_meta_track
      ∧ index overrun_meta_track 10 = Ok 0x51
      ∧ read_vlq overrun_meta_track (10 + 1) = Ok (10, 12)
      ∧ len overrun_meta_track < 12 + 10)
     ∧ ∃ fl st', track_body overrun_meta_track after_note = Ok (fl, st')
                 ∧ pos st' = 12 + 10
                 ∧ st_notes st' = st_notes after_note
                 ∧ active st' = active after_note
                 ∧ ∀ n, track_loop n overrun_meta_track st' = Ok st')
  ∧ ((read_vlq overrun_sysex_track (pos after_note) = Ok (0, 9)
      ∧ 9 < len overrun_sysex_track
      ∧ read_status overrun_sysex_track (running_status after_note) 9
        = Ok (0xF0, 10, Some 0x80)
      ∧ (0xF0 = 0xF0 ∨ 0xF0 = 0xF7)
      ∧ read_vlq overrun_sysex_track 10 = Ok (127, 11)
      ∧ len overrun_sysex_track < 11 + 127)
     ∧ let st' := mkTrackState (Some 0x80) (11 + 127) (tick after_note + 0)
                    (active after_note) (st_notes after_note)
                    (st_tempos after_note) (st_time_signature after_note) in
       track_body overrun_sysex_track after_note = Ok (Continue, st')
       ∧ ∀ n, track_loop n overrun_sysex_track st' = Ok st').
Proof.
  destruct declared_length_overrun_tolerated as (Hchunk & Hmeta & Hsysex).
  split; [|split]; split.
  - split_and!; [lia|reflexivity|reflexivity|by vm_compute].
  - apply (Hchunk 0%nat _ 14 100); [lia|reflexivity|reflexivity|by vm_compute].
  - split_and!; [reflexivity|by vm_compute|reflexivity|by vm_compute
                |reflexivity|reflexivity|by vm_compute].
  - apply (Hmeta _ _ 0 9 10 (Some 0x80) 0x51 10 12);
      [reflexivity|by vm_compute|reflexivity|by vm_compute
      |reflexivity|reflexivity|by vm_compute].
  - split_and!; [reflexivity|by vm_compute|reflexivity|by left
                |reflexivity|by vm_compute].
  - apply (Hsysex _ _ 0 9 0xF0 10 (Some 0x80) 127 11);
      [reflexivity|by vm_compute|reflexivity|by left|reflexivity|by vm_compute].
Defined.

(** ** The selector, on an explicit list with a duplicate *)

(** [--channels 1,1] with two voices: the list is accepted and both voices
    are mapped to channel 0, where C4 expects a rejection. *)
Lemma duplicate_channels_accepted :
  parse_channel_list (Some [IntText "1" 1; IntText "1" 1]) = Ok (Some [0; 0])
  ∧ choose_voice_channels (notes two_note_song) 2 (Some [0; 0]) = [0; 0]
  ∧ ¬ NoDup (choose_voice_channels (notes two_note_song) 2 (Some [0; 0])).
Proof.
  split_and!; [by vm_compute..|].
  intros Hnd. vm_compute in Hnd. apply NoDup_cons in Hnd as [Hnd _].
  apply Hnd. left.
Qed.

Lemma choose_voice_channels_witness :
  (2 ≤ 16)%nat
  ∧ length (choose_voice_channels (notes two_note_song) 2 (Some [3; 5])) = 2%nat
  ∧ (NoDup (choose_voice_channels (notes two_note_song) 2 (Some [3; 5]))
     ↔ NoDup (take 2 (default [] (Some [3; 5])))).
Proof.
  split; [lia|].
  apply (choose_voice_channels_spec (notes two_note_song) 2 (Some [3; 5])). lia.
Defined.

(** ** A time signature with numerator byte 0 *)

(** One note, after a time-signature meta event with payload 0, 2, 24, 8. *)
Definition zero_numerator_track : list byte := bytes
  [ 0; 255; 88; 4; 0; 2; 24; 8;  0; 144; 60; 100;  96; 128; 60; 0 ].

(** The time signature decoded is 1/4, where C5 expects 4/4. *)
Lemma zero_numerator_decodes_as_one :
  ∃ song,
    parse_midi (one_track_file zero_numerator_track) = Ok song
    ∧ time_signature song = mkTimeSig 1 4
    ∧ time_signature song ≠ mkTimeSig 4 4.
Proof. eexists. split_and!; [vm_compute; reflexivity|by vm_compute..]. Qed.

Lemma time_signature_meta_witness :
  (2 < len zero_numerator_track
   ∧ index zero_numerator_track 2 = Ok 0x58
   ∧ read_vlq zero_numerator_track (2 + 1) = Ok (4, 4)
   ∧ index (slice zero_numerator_track 4 (4 + 4)) 0 = Ok 0
   ∧ index (slice zero_numerator_track 4 (4 + 4)) 1 = Ok 2)
  ∧ meta_event zero_numerator_track
      (mkTrackState None 0 0 [] [] [] (mkTimeSig 4 4)) 2 0 None
    = Ok (Continue,
          mkTrackState None (4 + 4) 0 [] [] [] (mkTimeSig (Z.max 1 0) (2 ^ 2)))
  ∧ (0 = 0 → Z.max 1 0 = 1)
  ∧ 0 < 2 ^ 2.
Proof.
  split.
  - split_and!; [by vm_compute|reflexivity..].
  - apply (time_signature_meta zero_numerator_track
             (mkTrackState None 0 0 [] [] [] (mkTimeSig 4 4)) 2 0 None 4 4 0 2);
      [by vm_compute|reflexivity..].
Defined.

(** ** Chord policies, on three notes that end at different ticks *)

(** Pitches 67, 60 and 64 start together on channel 0 and end at ticks 10,
    20 and 30. *)
Definition staggered_chord : list NoteEvent :=
  [ mkNote 0 10 0 67 100; mkNote 0 20 0 60 100; mkNote 0 30 0 64 100 ].

(** First-seen selects pitch 67, the note that ends first, where C6 expects
    pitch 60. *)
Lemma first_seen_not_lowest :
  note <$> select_monophonic_onsets staggered_chord 0 First !! 0 = Some 67
  ∧ note <$> select_monophonic_onsets staggered_chord 0 First !! 0 ≠ Some 60.
Proof. split; by vm_compute. Qed.

Definition block_chord : list NoteEvent :=
  [ mkNote 0 480 0 60 100; mkNote 0 480 0 64 100; mkNote 0 480 0 67 100 ].

Lemma chord_policy_witness :
  (filter (onset_at 0 0) block_chord
     ≡ₚ [mkNote 0 480 0 60 100; mkNote 0 480 0 64 100; mkNote 0 480 0 67 100]
   ∧ note (mkNote 0 480 0 60 100) = 60
   ∧ note (mkNote 0 480 0 64 100) = 64
   ∧ note (mkNote 0 480 0 67 100) = 67)
  ∧ note <$> select_monophonic_onsets block_chord 0 High !! 0 = Some 67
  ∧ note <$> select_monophonic_onsets block_chord 0 Low !! 0 = Some 60
  ∧ (end_tick (mkNote 0 480 0 60 100) ≤ end_tick (mkNote 0 480 0 64 100) →
     end_tick (mkNote 0 480 0 60 100) ≤ end_tick (mkNote 0 480 0 67 100) →
     note <$> select_monophonic_onsets block_chord 0 First !! 0 = Some 60)
  ∧ ∃ w, select_monophonic_onsets block_chord 0 First !! 0 = Some w
         ∧ w ∈ [mkNote 0 480 0 60 100; mkNote 0 480 0 64 100; mkNote 0 480 0 67 100]
         ∧ ∀ n, n ∈ [mkNote 0 480 0 60 100; mkNote 0 480 0 64 100;
                      mkNote 0 480 0 67 100] →
             end_tick w < end_tick n
             ∨ (end_tick w = end_tick n ∧ note w ≤ note n).
Proof.
  split.
  - split_and!; reflexivity.
  - apply (chord_policy_three_onsets block_chord 0 0); reflexivity.
Defined.

(** ** Witnesses of the decoder and encoder theorems *)

Lemma sentinel_termination_witness :
  ∃ lines,
    emit_basic_lines two_note_song "two_note.mid" "SCORE PLAYER" 1 [0]
      High FixedTempo None 12 0 68 = Ok lines
    ∧ ∃ (by_tick : gmap Z Z) (events : list row) (data_line : Z),
        tempo_by_tick two_note_song = Ok by_tick
        ∧ events = make_events (onsets_per_voice two_note_song 1 [0] High)
                     FixedTempo by_tick (song_end_tick two_note_song) 0
        ∧ data_rows lines = events ++ [sentinel 1]
        ∧ last lines = Some (Data data_line [sentinel 1])
        ∧ Forall (λ r, 0 ≤ wait_ticks r) events
        ∧ fields (sentinel 1) = -1 :: replicate (1 + 2 * 1) 0.
Proof.
  eexists. split; [vm_compute; reflexivity|].
  eapply (sentinel_termination two_note_song "two_note.mid" "SCORE PLAYER" 1 [0]
            High FixedTempo None 12 0 68).
  vm_compute. reflexivity.
Defined.

(** A note-off for channel 0, pitch 60, as the first event of a track. *)
Definition stray_note_off_track : list byte := bytes [ 0; 128; 60; 0 ].

Lemma unmatched_note_off_witness :
  (read_vlq stray_note_off_track 0 = Ok (0, 1)
   ∧ 1 < len stray_note_off_track
   ∧ read_status stray_note_off_track None 1 = Ok (0x80, 2, Some 0x80)
   ∧ 2 + 1 < len stray_note_off_track
   ∧ index stray_note_off_track 2 = Ok 60
   ∧ index stray_note_off_track (2 + 1) = Ok 0
   ∧ (Z.land 0x80 0xF0 = 0x80 ∨ (Z.land 0x80 0xF0 = 0x90 ∧ 0 = 0))
   ∧ (active_get (Z.land 0x80 0x0F, 60) [] = None
      ∨ active_get (Z.land 0x80 0x0F, 60) [] = Some []))
  ∧ track_body stray_note_off_track
      (mkTrackState None 0 0 [] [] [] (mkTimeSig 4 4))
    = Ok (Continue,
          mkTrackState (Some 0x80) (2 + 2) (0 + 0) [] [] [] (mkTimeSig 4 4)).
Proof.
  split.
  - split_and!; [reflexivity|by vm_compute|reflexivity|by vm_compute
                |reflexivity|reflexivity|by left|by left].
  - apply (unmatched_note_off_ignored stray_note_off_track
             (mkTrackState None 0 0 [] [] [] (mkTimeSig 4 4))
             0 1 0x80 2 (Some 0x80) 60 0);
      [reflexivity|by vm_compute|reflexivity|by vm_compute
      |reflexivity|reflexivity|by left|by left].
Defined.

(** A tempo meta event of 0 microseconds per quarter note. *)
Definition zero_tempo_track : list byte := bytes [ 0; 255; 81; 3; 0; 0; 0 ].

Lemma zero_tempo_meta_witness :
  (2 < len zero_tempo_track
   ∧ index zero_tempo_track 2 = Ok 0x51
   ∧ read_vlq zero_tempo_track (2 + 1) = Ok (3, 4)
   ∧ len (slice zero_tempo_track 4 (4 + 3)) = 3
   ∧ index (slice zero_tempo_track 4 (4 + 3)) 0 = Ok 0
   ∧ index (slice zero_tempo_track 4 (4 + 3)) 1 = Ok 0
   ∧ index (slice zero_tempo_track 4 (4 + 3)) 2 = Ok 0
   ∧ Z.lor (Z.lor (Z.shiftl 0 16) (Z.shiftl 0 8)) 0 = 0)
  ∧ meta_event zero_tempo_track
      (mkTrackState None 0 0 [] [] [] (mkTimeSig 4 4)) 2 0 None
    = Ok (Continue, mkTrackState None (4 + 3) 0 [] [] [] (mkTimeSig 4 4)).
Proof.
  split.
  - split_and!; [by vm_compute|reflexivity..].
  - apply (zero_tempo_meta zero_tempo_track
             (mkTrackState None 0 0 [] [] [] (mkTimeSig 4 4)) 2 0 None 3 4 0 0 0);
      [by vm_compute|reflexivity..].
Defined.

(** [decode_track] gives [track_loop] as many turns as the track has bytes;
    more turns change nothing. *)
Lemma decode_track_turns (n : nat) (track : list byte) (notes : list NoteEvent)
    (tempos : list TempoEvent) (ts : TimeSignature) :
  (length track ≤ n)%nat →
  track_loop n track (mkTrackState None 0 0 [] notes tempos ts)
  = decode_track track notes tempos ts.
Proof.
  intros Hn. unfold decode_track.
  apply track_loop_fuel; unfold len; simpl; lia.
Qed.

(** * Further properties of the transcoder *)

(** ** Variable-length quantities *)

Lemma lor_shift7 (v x : Z) :
  0 ≤ x < 128 → Z.lor (Z.shiftl v 7) x = v * 128 + x.
Proof.
  intros Hx.
  assert (Hland : Z.land (Z.shiftl v 7) x = 0).
  { destruct (land_data_byte x Hx) as [_ H7]. rewrite <-H7.
    rewrite (Z.land_comm x), Z.land_assoc.
    change 0x7F with (Z.ones 7). rewrite (Z.land_ones _ 7) by lia.
    rewrite Z.shiftl_mul_pow2 by lia. rewrite Z.mod_mul by lia.
    apply Z.land_0_l. }
  pose proof (Z.add_lor_land (Z.shiftl v 7) x) as Hadd.
  rewrite Hland in Hadd. rewrite Z.shiftl_mul_pow2 in Hadd |- * by lia.
  change (2 ^ 7) with 128 in Hadd |- *. lia.
Qed.

Lemma land_continuation (x : Z) :
  0 ≤ x < 128 → Z.land (0x80 + x) 0x80 = 0x80 ∧ Z.land (0x80 + x) 0x7F = x.
Proof.
  intros Hx.
  replace (0x80 + x) with (Z.lor 0x80 x)
    by exact (lor_shift7 1 x Hx).
  rewrite !Z.land_lor_distr_l.
  destruct (land_data_byte x Hx) as [-> ->]. done.
Qed.

Lemma read_vlq_from_digits (ds : list Z) (d : Z) (rest : list byte) (value offset : Z) :
  Forall (λ x, 0 ≤ x < 128) ds → 0 ≤ d < 128 →
  read_vlq_from (bytes ((λ x, 0x80 + x) <$> ds) ++ z2b d :: rest) value offset
  = Ok (foldl (λ acc x, acc * 128 + x) value (ds ++ [d]), offset + len ds + 1).
Proof.
  intros Hds Hd. revert value offset.
  induction Hds as [|x ds Hx Hds IH]; intros value offset; simpl.
  - rewrite b2z_z2b by lia.
    destruct (land_data_byte d Hd) as [-> ->]; simpl.
    rewrite lor_shift7 by done. do 2 f_equal. unfold len; simpl; lia.
  - rewrite b2z_z2b by lia.
    destruct (land_continuation x Hx) as [-> ->]; simpl.
    rewrite lor_shift7 by done. unfold bytes in IH. rewrite IH.
    do 2 f_equal. unfold len; simpl; lia.
Qed.

(** X1. [read_vlq] reads a big-endian base-128 number: continuation bytes
    [0x80 + x] for the leading digits and a last byte below [0x80], wherever
    they stand in the buffer, give the value of the digits and the offset
    just after the last byte. *)
Theorem read_vlq_digits (before rest : list byte) (ds : list Z) (d : Z) :
  Forall (λ x, 0 ≤ x < 128) ds → 0 ≤ d < 128 →
  read_vlq (before ++ bytes ((λ x, 0x80 + x) <$> ds) ++ z2b d :: rest) (len before)
  = Ok (foldl (λ acc x, acc * 128 + x) 0 (ds ++ [d]), len before + len ds + 1).
Proof.
  intros Hds Hd. unfold read_vlq, len.
  rewrite Nat2Z.id, drop_app_length.
  by apply read_vlq_from_digits.
Qed.

Lemma read_vlq_digits_witness :
  (Forall (λ x, 0 ≤ x < 128) [3] ∧ 0 ≤ 96 < 128)
  ∧ read_vlq (bytes [0; 144] ++ bytes ((λ x, 0x80 + x) <$> [3]) ++ z2b 96 :: bytes [128])
      (len (bytes [0; 144]))
    = Ok (foldl (λ acc x, acc * 128 + x) 0 ([3] ++ [96]),
          len (bytes [0; 144]) + len [3] + 1).
Proof.
  assert (H : Forall (λ x, 0 ≤ x < 128) [3]) by (repeat constructor; lia).
  split; [split; [exact H|lia]|].
  apply (read_vlq_digits (bytes [0; 144]) (bytes [128]) [3] 96); [exact H|lia].
Defined.

Lemma read_vlq_from_cases (rest : list byte) (value offset : Z) :
  (∃ value' offset', read_vlq_from rest value offset = Ok (value', offset'))
  ∧ Exists (λ b, Z.land (b2z b) 0x80 = 0) rest
  ∨ read_vlq_from rest value offset
    = Raise (MidiParseError "Unexpected EOF while reading VLQ")
    ∧ Forall (λ b, Z.land (b2z b) 0x80 ≠ 0) rest.
Proof.
  revert value offset. induction rest as [|b rest IH]; intros value offset; simpl.
  - right. split; [done|constructor].
  - destruct (Z.eqb_spec (Z.land (b2z b) 128) 0) as [Hb|Hb].
    + left. split; [eauto|by left].
    + destruct (IH (Z.lor (Z.shiftl value 7) (Z.land (b2z b) 127)) (offset + 1))
        as [[Hok Hex]|[Herr Hall]].
      * left. split; [done|by right].
      * right. split; [done|by constructor].
Qed.

(** X2. [read_vlq] never reads past the buffer and fails in one way only.
    From a non-negative offset it returns a non-negative value and an
    offset that is beyond the start and at most the length of the buffer,
    exactly when some byte from the offset on has its high bit clear;
    otherwise (and so for an offset at or past the end) it raises the
    unexpected-EOF error. *)
Theorem read_vlq_total (data : list byte) (offset : Z) :
  0 ≤ offset →
  (∃ value offset',
     read_vlq data offset = Ok (value, offset')
     ∧ 0 ≤ value ∧ offset < offset' ≤ len data)
  ∧ Exists (λ b, Z.land (b2z b) 0x80 = 0) (drop (Z.to_nat offset) data)
  ∨ read_vlq data offset = Raise (MidiParseError "Unexpected EOF while reading VLQ")
    ∧ Forall (λ b, Z.land (b2z b) 0x80 ≠ 0) (drop (Z.to_nat offset) data).
Proof.
  intros Ho.
  destruct (read_vlq_from_cases (drop (Z.to_nat offset) data) 0 offset)
    as [[(value & offset' & Hok) Hex]|[Herr Hall]].
  - left. split; [|done]. exists value, offset'.
    split; [done|]. by apply read_vlq_bounds.
  - right. by split.
Qed.

Lemma read_vlq_total_witness :
  0 ≤ 1
  ∧ ((∃ value offset',
        read_vlq (bytes [0; 131; 96; 128]) 1 = Ok (value, offset')
        ∧ 0 ≤ value ∧ 1 < offset' ≤ len (bytes [0; 131; 96; 128]))
     ∧ Exists (λ b, Z.land (b2z b) 0x80 = 0)
         (drop (Z.to_nat 1) (bytes [0; 131; 96; 128]))
     ∨ read_vlq (bytes [0; 131; 96; 128]) 1
       = Raise (MidiParseError "Unexpected EOF while reading VLQ")
       ∧ Forall (λ b, Z.land (b2z b) 0x80 ≠ 0)
           (drop (Z.to_nat 1) (bytes [0; 131; 96; 128]))).
Proof. split; [lia|]. apply (read_vlq_total (bytes [0; 131; 96; 128]) 1). lia. Defined.

(** ** What every decoded song satisfies *)

(** A note with a positive duration that starts at or after tick 0, ends by
    tick [bound], and carries a channel nibble, a pitch byte and a non-zero
    velocity byte. *)
Definition note_ok (bound : Z) (n : NoteEvent) : Prop :=
  0 ≤ start_tick n ∧ start_tick n < end_tick n ∧ end_tick n ≤ bound
  ∧ 0 ≤ channel n ≤ 15 ∧ 0 ≤ note n ≤ 255 ∧ 1 ≤ velocity n ≤ 255.

Definition tempo_ok (bound : Z) (t : TempoEvent) : Prop :=
  0 ≤ te_tick t ≤ bound ∧ 1 ≤ te_bpm t ≤ 60000000.

Definition time_signature_ok (ts : TimeSignature) : Prop :=
  1 ≤ numerator ts ≤ 255 ∧ ∃ k, 0 ≤ k ≤ 255 ∧ denominator ts = 2 ^ k.

Definition entry_ok (tick : Z) (e : Z * Z) : Prop :=
  0 ≤ e.1 ≤ tick ∧ 1 ≤ e.2 ≤ 255.

Definition active_ok (tick : Z) (a : active_map) : Prop :=
  Forall (λ ks, (0 ≤ ks.1.1 ≤ 15 ∧ 0 ≤ ks.1.2 ≤ 255)
                ∧ Forall (entry_ok tick) ks.2) a.

Definition state_ok (bound : Z) (st : track_state) : Prop :=
  0 ≤ pos st ∧ 0 ≤ tick st
  ∧ active_ok (tick st) (active st)
  ∧ Forall (note_ok (Z.max bound (tick st))) (st_notes st)
  ∧ Forall (tempo_ok (Z.max bound (tick st))) (st_tempos st)
  ∧ time_signature_ok (st_time_signature st).

Lemma note_ok_mono (b b' : Z) (n : NoteEvent) : b ≤ b' → note_ok b n → note_ok b' n.
Proof. unfold note_ok. lia. Qed.

Lemma tempo_ok_mono (b b' : Z) (t : TempoEvent) : b ≤ b' → tempo_ok b t → tempo_ok b' t.
Proof. unfold tempo_ok. lia. Qed.

Lemma active_ok_mono (t t' : Z) (a : active_map) :
  t ≤ t' → active_ok t a → active_ok t' a.
Proof.
  intros Ht Ha. unfold active_ok in *.
  eapply Forall_impl; [exact Ha|]. intros ks [Hk Hs].
  split; [done|]. eapply Forall_impl; [exact Hs|]. unfold entry_ok. lia.
Qed.

Lemma active_append_ok (t : Z) (key v : Z * Z) (a : active_map) :
  0 ≤ key.1 ≤ 15 → 0 ≤ key.2 ≤ 255 → entry_ok t v →
  active_ok t a → active_ok t (active_append key v a).
Proof.
  intros Hk1 Hk2 Hv. unfold active_ok.
  induction 1 as [|[k stack] a [Hk Hs] Ha IH]; simpl.
  - constructor; [|constructor]. simpl. split; [done|].
    constructor; [done|constructor].
  - case_decide; constructor; simpl; try done.
    split; [done|]. apply Forall_app. split; [done|].
    constructor; [done|constructor].
Qed.

Lemma active_pop_ok (t : Z) (key : Z * Z) (a : active_map) :
  active_ok t a → active_ok t (active_pop key a).
Proof.
  unfold active_ok. induction 1 as [|[k stack] a [Hk Hs] Ha IH]; simpl.
  - constructor.
  - case_decide; constructor; simpl; try done.
    split; [done|by apply Forall_removelast].
Qed.

Lemma active_get_ok (t : Z) (key : Z * Z) (a : active_map) (stack : list (Z * Z)) :
  active_ok t a → active_get key a = Some stack → Forall (entry_ok t) stack.
Proof.
  unfold active_ok. induction 1 as [|[k s] a [Hk Hs] Ha IH]; simpl; [done|].
  case_decide; [by intros [= <-]|done].
Qed.

Lemma last_Forall {A} (P : A → Prop) (l : list A) (x : A) :
  Forall P l → last l = Some x → P x.
Proof.
  intros Hl Hx. rewrite Forall_forall in Hl. apply Hl.
  apply last_Some in Hx as [l' ->]. apply elem_of_app. right. left.
Qed.

Lemma land_nibble (s : Z) : 0 ≤ Z.land s 0x0F ≤ 15.
Proof.
  change (Z.land s 0x0F) with (Z.land s (Z.ones 4)). rewrite Z.land_ones by lia.
  change (2 ^ 4) with 16. pose proof (Z.mod_pos_bound s 16 ltac:(lia)). lia.
Qed.

Lemma round_half_even_bounds (n d : Z) :
  0 ≤ n → 0 < d → 0 ≤ round_half_even n d ≤ n.
Proof.
  intros Hn Hd. unfold round_half_even.
  destruct (d <? 0) eqn:Hneg; [lia|]. rewrite Z.abs_eq by lia.
  pose proof (Z.div_mod n d ltac:(lia)) as Hdm.
  pose proof (Z.mod_pos_bound n d Hd) as Hmod.
  assert (0 ≤ n `div` d) by (apply Z.div_pos; lia).
  assert (n `div` d ≤ n) by (apply Z.div_le_upper_bound; nia).
  destruct (2 * n `mod` d <? d) eqn:H1; [lia|].
  assert (1 ≤ n `mod` d) by lia.
  assert (n `div` d + 1 ≤ n) by nia.
  destruct (d <? 2 * n `mod` d); [lia|]. destruct (Z.even _); lia.
Qed.

Lemma state_ok_moved (bound : Z) (st : track_state) (running : option Z) (p tk : Z) :
  state_ok bound st → 0 ≤ p → tick st ≤ tk →
  state_ok bound
    (mkTrackState running p tk (active st) (st_notes st) (st_tempos st)
       (st_time_signature st)).
Proof.
  intros (Hp & Ht & Ha & Hn & Htm & Hts) Hp' Htk.
  unfold state_ok; simpl. split_and!; try done; try lia.
  - by eapply active_ok_mono.
  - eapply Forall_impl; [exact Hn|]. intros n. apply note_ok_mono. lia.
  - eapply Forall_impl; [exact Htm|]. intros n. apply tempo_ok_mono. lia.
Qed.

Lemma meta_event_ok (bound : Z) (track : list byte) (st : track_state)
    (p tk : Z) (running : option Z) (fl : flow) (st' : track_state) :
  state_ok bound st → 0 ≤ p → tick st ≤ tk →
  meta_event track st p tk running = Ok (fl, st') →
  state_ok bound st' ∧ tick st' = tk.
Proof.
  intros Hok Hp Htk H. unfold meta_event in H.
  destruct (len track <=? p); [done|].
  destruct (index track p) as [meta_type|]; simpl in H; [|done].
  destruct (read_vlq track (p + 1)) as [[meta_len p']|] eqn:Hvlq; simpl in H; [|done].
  apply read_vlq_bounds in Hvlq as [Hlen Hp']; [|lia].
  pose proof (state_ok_moved bound st running (p' + meta_len) tk Hok
                ltac:(lia) Htk) as Hmoved.
  set (meta_data := slice track p' (p' + meta_len)) in *.
  destruct ((meta_type =? 81) && (len meta_data =? 3)).
  { destruct (index meta_data 0) as [m0|] eqn:H0; simpl in H; [|done].
    destruct (index meta_data 1) as [m1|] eqn:H1; simpl in H; [|done].
    destruct (index meta_data 2) as [m2|] eqn:H2; simpl in H; [|done].
    destruct (Z.ltb_spec 0 (Z.lor (Z.lor (Z.shiftl m0 16) (Z.shiftl m1 8)) m2))
      as [Hus|Hus]; injection H as _ <-; [|done].
    split; [|done].
    destruct Hmoved as (? & ? & ? & ? & Htm & ?).
    unfold state_ok; simpl in *. split_and!; try done.
    apply Forall_app. split; [done|]. constructor; [|constructor].
    pose proof (round_half_even_bounds 60000000 _ ltac:(lia) Hus).
    unfold tempo_ok; simpl. lia. }
  destruct ((meta_type =? 88) && (2 <=? len meta_data)).
  { destruct (index meta_data 0) as [m0|] eqn:H0; simpl in H; [|done].
    destruct (index meta_data 1) as [m1|] eqn:H1; simpl in H; [|done].
    apply index_Ok in H0 as [H0 _]. apply index_Ok in H1 as [H1 _].
    destruct (0 <? 2 ^ m1); injection H as _ <-; [|done].
    split; [|done].
    destruct Hmoved as (? & ? & ? & ? & ? & ?).
    unfold state_ok; simpl in *. split_and!; try done.
    unfold time_signature_ok; simpl. split; [lia|]. exists m1. lia. }
  destruct (meta_type =? 47); by injection H as _ <-.
Qed.

Lemma note_event_ok (bound : Z) (track : list byte) (st : track_state)
    (p tk : Z) (running : option Z) (event_type chan : Z)
    (fl : flow) (st' : track_state) :
  state_ok bound st → 0 ≤ p → tick st ≤ tk → 0 ≤ chan ≤ 15 →
  note_event track st p tk running event_type chan = Ok (fl, st') →
  state_ok bound st' ∧ tick st' = tk.
Proof.
  intros Hok Hp Htk Hchan H. unfold note_event in H.
  destruct (len track <=? p + 1); [done|].
  destruct (index track p) as [data1|] eqn:H1; simpl in H; [|done].
  destruct (index track (p + 1)) as [data2|] eqn:H2; simpl in H; [|done].
  apply index_Ok in H1 as [H1 _]. apply index_Ok in H2 as [H2 _].
  pose proof (state_ok_moved bound st running (p + 2) tk Hok ltac:(lia) Htk)
    as Hmoved.
  destruct Hmoved as (Hp2 & Ht2 & Ha2 & Hn2 & Htm2 & Hts2). simpl in *.
  destruct (event_type =? 144) eqn:Hon; simpl in H.
  - destruct (Z.ltb_spec 0 data2) as [Hvel|Hvel]; simpl in H.
    + injection H as _ <-. split; [|done].
      unfold state_ok; simpl. split_and!; try done.
      apply active_append_ok; simpl; try done; try lia.
      unfold entry_ok; simpl. destruct Hok as (_ & ? & _). lia.
    + destruct (event_type =? 128); simpl in H.
      all: destruct (data2 =? 0); simpl in H.
      all: try (injection H as _ <-; split; [|done];
                unfold state_ok; simpl; split_and!; done).
      all: destruct (active_get (chan, data1) (active st)) as [stack|] eqn:Hget;
        [|injection H as _ <-; split; [|done];
          unfold state_ok; simpl; split_and!; done].
      all: destruct (last stack) as [[start vel]|] eqn:Hlast;
        [|injection H as _ <-; split; [|done];
          unfold state_ok; simpl; split_and!; done].
      all: pose proof (last_Forall _ _ _ (active_get_ok _ _ _ _ Ha2 Hget) Hlast)
        as [Hs Hv]; simpl in Hs, Hv.
      all: destruct (Z.ltb_spec start tk); injection H as _ <-; split; try done.
      all: unfold state_ok; simpl; split_and!; try done;
        try (by apply active_pop_ok).
      all: apply Forall_app; split; [done|]; constructor; [|constructor];
        unfold note_ok; simpl; lia.
  - destruct (event_type =? 128); simpl in H.
    2:{ injection H as _ <-; split; [|done].
        unfold state_ok; simpl; split_and!; done. }
    destruct (active_get (chan, data1) (active st)) as [stack|] eqn:Hget;
      [|injection H as _ <-; split; [|done];
        unfold state_ok; simpl; split_and!; done].
    destruct (last stack) as [[start vel]|] eqn:Hlast;
      [|injection H as _ <-; split; [|done];
        unfold state_ok; simpl; split_and!; done].
    pose proof (last_Forall _ _ _ (active_get_ok _ _ _ _ Ha2 Hget) Hlast)
      as [Hs Hv]; simpl in Hs, Hv.
    destruct (Z.ltb_spec start tk); injection H as _ <-; split; try done.
    all: unfold state_ok; simpl; split_and!; try done;
      try (by apply active_pop_ok).
    apply Forall_app; split; [done|]; constructor; [|constructor].
    unfold note_ok; simpl; lia.
Qed.

Lemma track_body_ok (bound : Z) (track : list byte) (st : track_state)
    (fl : flow) (st' : track_state) :
  state_ok bound st → track_body track st = Ok (fl, st') →
  state_ok bound st' ∧ tick st ≤ tick st'.
Proof.
  intros Hok H. pose proof Hok as (Hp & Htick & _). unfold track_body in H.
  destruct (read_vlq track (pos st)) as [[delta p]|] eqn:Hvlq; simpl in H; [|done].
  apply read_vlq_bounds in Hvlq as [Hdelta Hp']; [|done].
  destruct (len track <=? p).
  { injection H as _ <-. split; [|simpl; lia].
    apply state_ok_moved; [done|lia|lia]. }
  destruct (read_status track _ p) as [[[status p1] running]|] eqn:Hst;
    simpl in H; [|done].
  apply read_status_pos in Hst.
  destruct (status =? 255).
  { apply (meta_event_ok bound) in H as [? ->]; [split; [done|lia]|done|lia|lia]. }
  destruct ((status =? 240) || (status =? 247)).
  { destruct (read_vlq track p1) as [[sysex_len p2]|] eqn:Hsys; simpl in H; [|done].
    apply read_vlq_bounds in Hsys as [? ?]; [|lia].
    injection H as _ <-. split; [|simpl; lia].
    apply state_ok_moved; [done|lia|lia]. }
  destruct ((Z.land status 240 =? 192) || (Z.land status 240 =? 208)).
  { destruct (len track <=? p1); [done|].
    injection H as _ <-. split; [|simpl; lia].
    apply state_ok_moved; [done|lia|lia]. }
  apply (note_event_ok bound) in H as [? ->];
    [split; [done|lia]|done|lia|lia|apply land_nibble].
Qed.

Lemma track_loop_ok (bound : Z) (turns : nat) (track : list byte)
    (st st' : track_state) :
  state_ok bound st → track_loop turns track st = Ok st' →
  state_ok bound st' ∧ tick st ≤ tick st'.
Proof.
  revert st. induction turns as [|turns IH]; intros st Hok; simpl.
  - destruct (len track <=? pos st); intros [= <-]; (split; [done|lia]).
  - destruct (len track <=? pos st); [intros [= <-]; split; [done|lia]|].
    destruct (track_body track st) as [[fl st1]|] eqn:Hbody; simpl; [|done].
    apply (track_body_ok bound) in Hbody as [Hok1 Hle]; [|done].
    destruct fl.
    + intros H. apply IH in H as [? ?]; [|done]. split; [done|lia].
    + intros [= <-]. done.
Qed.

Lemma close_active_ok (t : Z) (a : active_map) :
  active_ok t a → Forall (note_ok t) (close_active t a).
Proof.
  unfold active_ok, close_active. intros Ha.
  apply Forall_flat_map. eapply Forall_impl; [exact Ha|].
  intros [[ch p] stack] [[Hch Hp] Hs]; simpl in *.
  unfold close_stack. apply Forall_flat_map. eapply Forall_impl; [exact Hs|].
  intros [start vel] [Hstart Hvel]; simpl in *.
  destruct (Z.ltb_spec start t); [|constructor].
  constructor; [|constructor]. unfold note_ok; simpl. lia.
Qed.

(** What the loop over the tracks keeps, from any offset. *)
Lemma parse_tracks_ok (count : nat) (data : list byte) (offset : Z)
    (notes : list NoteEvent) (tempos : list TempoEvent) (ts : TimeSignature)
    (song_end : Z) (notes' : list NoteEvent) (tempos' : list TempoEvent)
    (ts' : TimeSignature) (song_end' : Z) :
  0 ≤ song_end →
  Forall (note_ok song_end) notes → Forall (tempo_ok song_end) tempos →
  time_signature_ok ts →
  parse_tracks count data offset notes tempos ts song_end
  = Ok (notes', tempos', ts', song_end') →
  song_end ≤ song_end'
  ∧ Forall (note_ok song_end') notes' ∧ Forall (tempo_ok song_end') tempos'
  ∧ time_signature_ok ts'.
Proof.
  revert offset notes tempos ts song_end.
  induction count as [|count IH]; intros offset notes tempos ts song_end
    Hend Hnotes Htempos Hts; simpl.
  - intros [= <- <- <- <-]. split_and!; done || lia.
  - destruct (tag_is _ _); simpl; [|done].
    destruct (unpack_u32 data (offset + 4)) as [track_len|]; simpl; [|done].
    destruct (decode_track _ notes tempos ts) as [st|] eqn:Hdec; simpl; [|done].
    unfold decode_track in Hdec.
    apply (track_loop_ok song_end) in Hdec as [(Hp & Ht & Ha & Hn & Htm & Hts') _].
    2:{ unfold state_ok; simpl. rewrite Z.max_l by lia.
        split_and!; try done. constructor. }
    intros H. apply IH in H as (Hle & ? & ? & ?).
    + split_and!; [lia|done..].
    + lia.
    + apply Forall_app. split; [done|].
      eapply Forall_impl; [apply close_active_ok; exact Ha|].
      intros n. apply note_ok_mono. lia.
    + done.
    + done.
Qed.

Lemma lor_shiftl_low (v x n : Z) :
  0 ≤ n → 0 ≤ x < 2 ^ n → Z.lor (Z.shiftl v n) x = v * 2 ^ n + x.
Proof.
  intros Hn Hx.
  assert (Hland : Z.land (Z.shiftl v n) x = 0).
  { rewrite <-(Z.mod_small x (2 ^ n)) by done.
    rewrite <-Z.land_ones by done.
    rewrite (Z.land_comm x), Z.land_assoc, (Z.land_ones _ n) by done.
    rewrite Z.shiftl_mul_pow2 by done. rewrite Z.mod_mul by lia.
    apply Z.land_0_l. }
  pose proof (Z.add_lor_land (Z.shiftl v n) x) as Hadd.
  rewrite Hland in Hadd. rewrite Z.shiftl_mul_pow2 in Hadd |- * by done. lia.
Qed.

Lemma be_value_fold_bound (bs : list byte) (acc bound : Z) :
  0 ≤ acc < bound →
  0 ≤ fold_left (λ acc b, Z.lor (Z.shiftl acc 8) (b2z b)) bs acc
    < bound * 256 ^ len bs.
Proof.
  unfold len. revert acc bound. induction bs as [|b bs IH]; intros acc bound Hacc.
  - simpl. lia.
  - cbn [fold_left length]. pose proof (b2z_range b) as Hb.
    rewrite lor_shiftl_low by (done || (change (2 ^ 8) with 256; lia)).
    change (2 ^ 8) with 256.
    specialize (IH (acc * 256 + b2z b) (bound * 256) ltac:(lia)).
    rewrite Nat2Z.inj_succ, Z.pow_succ_r by lia. lia.
Qed.

Lemma be_value_bound (bs : list byte) : 0 ≤ be_value bs < 256 ^ len bs.
Proof.
  pose proof (be_value_fold_bound bs 0 1 ltac:(lia)) as H.
  unfold be_value. lia.
Qed.

Lemma land_bit15 (d : Z) :
  0 ≤ d < 65536 → Z.land d 0x8000 = 0 → d < 32768.
Proof.
  intros Hd Hland. destruct (Z.lt_ge_cases d 32768) as [|Hge]; [done|].
  exfalso.
  pose proof (lor_shiftl_low 1 (d - 32768) 15 ltac:(lia)
                ltac:(change (2 ^ 15) with 32768; lia)) as Hlor.
  change (Z.shiftl 1 15) with 32768 in Hlor. change (2 ^ 15) with 32768 in Hlor.
  replace (1 * 32768 + (d - 32768)) with d in Hlor by lia.
  rewrite <-Hlor, Z.land_lor_distr_l in Hland.
  apply Z.lor_eq_0_iff in Hland as [Hland _]. done.
Qed.

(** The steps of [parse_midi] that a decoded song has been through. *)
Lemma parse_midi_inv (data : list byte) (song : MidiSong) :
  parse_midi data = Ok song →
  ∃ header_len track_count seen,
    1 ≤ ppqn song ≤ 32767
    ∧ parse_tracks (Z.to_nat track_count) data (8 + header_len) [] []
        (mkTimeSig 4 4) 0
      = Ok (notes song, seen, time_signature song, song_end_tick song)
    ∧ tempos song = finish_tempos seen.
Proof.
  unfold parse_midi.
  destruct (tag_is _ _); simpl; [|done].
  destruct (unpack_u32 data 4) as [header_len|]; simpl; [|done].
  destruct (header_len <? 6); [done|].
  destruct (unpack_HHH data 8) as [[[fmt track_count] division]|] eqn:Hhdr;
    simpl; [|done].
  destruct (Z.eqb_spec (Z.land division 32768) 0) as [Hsmpte|]; simpl; [|done].
  destruct (Z.leb_spec division 0) as [|Hpos]; [done|].
  destruct (parse_tracks _ _ _ _ _ _ _) as [[[[nts seen] ts] song_end]|]
    eqn:Htracks; simpl; [|done].
  intros [= <-]. exists header_len, track_count, seen. simpl.
  split_and!; [lia| |done..].
  unfold unpack_HHH in Hhdr.
  destruct (len _ <? 6) eqn:Hlen; [done|]. injection Hhdr as _ _ <-.
  set (bs := slice (slice data 8 (8 + 6)) 4 6) in *.
  pose proof (be_value_bound bs) as Hb.
  assert (len bs ≤ 2) by (unfold bs; rewrite len_slice by lia; lia).
  assert (256 ^ len bs ≤ 256 ^ 2) by (apply Z.pow_le_mono_r; unfold len in *; lia).
  assert (be_value bs < 32768) by (apply land_bit15; [lia|done]). lia.
Qed.

(** *** The tempo map *)

Lemma tempo_fold_lookup (l : list TempoEvent) (m : gmap Z Z) (t b : Z) :
  fold_left (λ m e, <[te_tick e := te_bpm e]> m) l m !! t = Some b →
  mkTempo t b ∈ l ∨ m !! t = Some b.
Proof.
  revert m. induction l as [|[t' b'] l IH]; intros m; simpl; [by right|].
  intros [Hin|Hm]%IH; [left; by right|].
  destruct (decide (t' = t)) as [->|Hne].
  - rewrite lookup_insert_eq in Hm. injection Hm as ->. left. left.
  - rewrite lookup_insert_ne in Hm by done. by right.
Qed.

Lemma tempo_fold_last (l : list TempoEvent) (m : gmap Z Z) (t b : Z) :
  m !! t = Some b → Forall (λ e, te_tick e ≠ t) l →
  fold_left (λ m e, <[te_tick e := te_bpm e]> m) l m !! t = Some b.
Proof.
  intros Hm Hl. revert m Hm. induction Hl as [|e l He Hl IH]; intros m Hm; simpl.
  - done.
  - apply IH. by rewrite lookup_insert_ne.
Qed.

Lemma tempo_dict_last_wins (l1 l2 : list TempoEvent) (t b : Z) :
  Forall (λ e, te_tick e ≠ t) l2 →
  tempo_dict (l1 ++ mkTempo t b :: l2) !! t = Some b.
Proof.
  intros Hl2. unfold tempo_dict. rewrite fold_left_app. simpl.
  apply tempo_fold_last; [apply lookup_insert_eq|done].
Qed.

Definition default_tempos (seen : list TempoEvent) : list TempoEvent :=
  match seen with [] => [mkTempo 0 120] | _ => seen end.

Lemma elem_of_finish_tempos (seen : list TempoEvent) (t b : Z) :
  mkTempo t b ∈ finish_tempos seen
  ↔ tempo_dict (default_tempos seen) !! t = Some b.
Proof.
  unfold finish_tempos. fold (default_tempos seen).
  rewrite list_elem_of_fmap. split.
  - intros ([t' b'] & [= -> ->] & Hin).
    rewrite sorted_Permutation in Hin. by apply elem_of_map_to_list in Hin.
  - intros Hl. exists (t, b). split; [done|].
    rewrite sorted_Permutation. by apply elem_of_map_to_list.
Qed.

Lemma pair_leb_strict (l : list (Z * Z)) :
  Sorted (λ a b, pair_leb a b = true) l → NoDup l.*1 →
  StronglySorted (λ a b, a.1 < b.1) l.
Proof.
  intros Hs Hnd.
  assert (Hss : StronglySorted (λ a b : Z * Z, a.1 ≤ b.1) l).
  { apply Sorted_StronglySorted; [intros ???; lia|].
    clear Hnd. induction Hs as [|x l _ IH Hx]; [constructor|].
    constructor; [done|].
    destruct Hx as [|y l Hxy]; constructor.
    unfold pair_leb in Hxy.
    apply orb_true_iff in Hxy as [?%Z.ltb_lt|[?%Z.eqb_eq _]%andb_true_iff]; lia. }
  clear Hs. induction Hss as [|x l Hl IH Hx]; [constructor|].
  simpl in Hnd. apply NoDup_cons in Hnd as [Hx' Hnd].
  constructor; [by apply IH|].
  apply Forall_forall. intros y Hy.
  rewrite Forall_forall in Hx. specialize (Hx y Hy).
  assert (x.1 ≠ y.1).
  { intros Heq. apply Hx'. rewrite Heq. by apply list_elem_of_fmap_2. }
  lia.
Qed.

Lemma finish_tempos_sorted (seen : list TempoEvent) :
  StronglySorted (λ a b, te_tick a < te_tick b) (finish_tempos seen).
Proof.
  unfold finish_tempos. fold (default_tempos seen).
  set (d := tempo_dict (default_tempos seen)).
  assert (Hs : StronglySorted (λ a b : Z * Z, a.1 < b.1)
                 (sorted pair_leb (map_to_list d))).
  { apply pair_leb_strict.
    - apply sorted_Sorted. intros a b. unfold pair_leb.
      rewrite orb_false_iff, andb_false_iff, orb_true_iff, andb_true_iff.
      rewrite !Z.ltb_lt, Z.ltb_ge, !Z.eqb_eq, Z.eqb_neq, Z.leb_le, Z.leb_gt. lia.
    - rewrite sorted_Permutation. apply NoDup_fst_map_to_list. }
  induction Hs as [|[t b] l Hl IH Hx]; simpl; constructor; [done|].
  apply Forall_fmap. eapply Forall_impl; [exact Hx|]. by intros [t' b'].
Qed.

Lemma finish_tempos_nonempty (seen : list TempoEvent) : finish_tempos seen ≠ [].
Proof.
  assert (∃ t b, tempo_dict (default_tempos seen) !! t = Some b) as (t & b & Hl).
  { destruct (default_tempos seen) as [|e l] eqn:Hd using rev_ind.
    - by destruct seen.
    - destruct e as [t b]. exists t, b.
      rewrite <-(app_nil_r [mkTempo t b]). simpl.
      by apply tempo_dict_last_wins. }
  apply elem_of_finish_tempos in Hl. intros Hnil. rewrite Hnil in Hl.
  by apply elem_of_nil in Hl.
Qed.

Lemma finish_tempos_ok (bound : Z) (seen : list TempoEvent) :
  0 ≤ bound → Forall (tempo_ok bound) seen →
  Forall (tempo_ok bound) (finish_tempos seen).
Proof.
  intros Hb Hseen. apply Forall_forall. intros [t b] Hin.
  apply elem_of_finish_tempos in Hin.
  apply tempo_fold_lookup in Hin as [Hin|Hin]; [|done].
  destruct seen as [|e seen]; simpl in Hin.
  - apply list_elem_of_singleton in Hin as [= -> ->]. unfold tempo_ok; simpl. lia.
  - rewrite Forall_forall in Hseen. by apply Hseen.
Qed.

(** X3. Every note of a decoded song starts at a tick of at least 0, has a
    positive duration, ends no later than the song's final tick, and has a
    channel in 0..15, a pitch byte in 0..255 and a velocity byte in 1..255
    (pitch and velocity are data bytes as read, not masked to 7 bits). *)
Theorem decoded_notes_ok (data : list byte) (song : MidiSong) :
  parse_midi data = Ok song →
  0 ≤ song_end_tick song
  ∧ Forall (λ n, 0 ≤ start_tick n ∧ start_tick n < end_tick n
                 ∧ end_tick n ≤ song_end_tick song
                 ∧ 0 ≤ channel n ≤ 15 ∧ 0 ≤ note n ≤ 255
                 ∧ 1 ≤ velocity n ≤ 255) (notes song).
Proof.
  intros (header_len & track_count & seen & _ & Htracks & _)%parse_midi_inv.
  apply parse_tracks_ok in Htracks as (Hend & Hnotes & _ & _);
    [|lia|constructor|constructor|].
  - split; [done|exact Hnotes].
  - split; simpl; [lia|]. exists 2. split; [lia|done].
Qed.

Lemma decoded_notes_ok_witness :
  parse_midi retrigger_file
  = Ok (mkSong 480 [mkNote 5 8 0 60 80; mkNote 0 12 0 60 100] [mkTempo 0 120]
          (mkTimeSig 4 4) 12)
  ∧ 0 ≤ 12
  ∧ Forall (λ n, 0 ≤ start_tick n ∧ start_tick n < end_tick n
                 ∧ end_tick n ≤ 12
                 ∧ 0 ≤ channel n ≤ 15 ∧ 0 ≤ note n ≤ 255
                 ∧ 1 ≤ velocity n ≤ 255)
      [mkNote 5 8 0 60 80; mkNote 0 12 0 60 100].
Proof.
  split; [by vm_compute|].
  apply (decoded_notes_ok retrigger_file
           (mkSong 480 [mkNote 5 8 0 60 80; mkNote 0 12 0 60 100] [mkTempo 0 120]
              (mkTimeSig 4 4) 12)).
  by vm_compute.
Defined.

(** X4. The tempo list of a decoded song is never empty, is strictly
    ascending by tick (so holds one tempo per tick), and every tempo has a
    tick between 0 and the song's final tick and a BPM between 1 and
    60,000,000. *)
Theorem decoded_tempos_ok (data : list byte) (song : MidiSong) :
  parse_midi data = Ok song →
  tempos song ≠ []
  ∧ StronglySorted (λ a b, te_tick a < te_tick b) (tempos song)
  ∧ Forall (λ t, 0 ≤ te_tick t ≤ song_end_tick song
                 ∧ 1 ≤ te_bpm t ≤ 60000000) (tempos song).
Proof.
  intros (header_len & track_count & seen & _ & Htracks & ->)%parse_midi_inv.
  apply parse_tracks_ok in Htracks as (Hend & _ & Htempos & _);
    [|lia|constructor|constructor|].
  - split_and!; [apply finish_tempos_nonempty|apply finish_tempos_sorted|].
    by apply finish_tempos_ok.
  - split; simpl; [lia|]. exists 2. split; [lia|done].
Qed.

Lemma decoded_tempos_ok_witness :
  parse_midi two_note_file = Ok two_note_song
  ∧ tempos two_note_song ≠ []
  ∧ StronglySorted (λ a b, te_tick a < te_tick b) (tempos two_note_song)
  ∧ Forall (λ t, 0 ≤ te_tick t ≤ song_end_tick two_note_song
                 ∧ 1 ≤ te_bpm t ≤ 60000000) (tempos two_note_song).
Proof.
  split; [by vm_compute|].
  apply (decoded_tempos_ok two_note_file two_note_song). by vm_compute.
Defined.

(** X5. A decoded song has a resolution between 1 and 32767 and a time
    signature whose numerator is between 1 and 255 and whose denominator is
    a power of two [2^k] with [0 <= k <= 255]: in particular neither is 0. *)
Theorem decoded_header_ok (data : list byte) (song : MidiSong) :
  parse_midi data = Ok song →
  1 ≤ ppqn song ≤ 32767
  ∧ 1 ≤ numerator (time_signature song) ≤ 255
  ∧ ∃ k, 0 ≤ k ≤ 255 ∧ denominator (time_signature song) = 2 ^ k.
Proof.
  intros (header_len & track_count & seen & Hppqn & Htracks & _)%parse_midi_inv.
  apply parse_tracks_ok in Htracks as (_ & _ & _ & Hts);
    [|lia|constructor|constructor|].
  - split; [done|exact Hts].
  - split; simpl; [lia|]. exists 2. split; [lia|done].
Qed.

Lemma decoded_header_ok_witness :
  parse_midi (one_track_file zero_numerator_track)
  = Ok (mkSong 480 [mkNote 0 96 0 60 100] [mkTempo 0 120] (mkTimeSig 1 4) 96)
  ∧ 1 ≤ 480 ≤ 32767
  ∧ 1 ≤ 1 ≤ 255
  ∧ ∃ k, 0 ≤ k ≤ 255 ∧ 4 = 2 ^ k.
Proof.
  split; [by vm_compute|].
  apply (decoded_header_ok (one_track_file zero_numerator_track)
           (mkSong 480 [mkNote 0 96 0 60 100] [mkTempo 0 120] (mkTimeSig 1 4) 96)).
  by vm_compute.
Defined.

(** X6. Of the tempo events seen at one tick, the last in file order is the
    one kept: after the tempo list is finished, the tick carries that BPM
    and no other. *)
Theorem finish_tempos_last_wins (l1 l2 : list TempoEvent) (t b b' : Z) :
  Forall (λ e, te_tick e ≠ t) l2 →
  mkTempo t b' ∈ finish_tempos (l1 ++ mkTempo t b :: l2) ↔ b' = b.
Proof.
  intros Hl2. rewrite elem_of_finish_tempos.
  replace (default_tempos (l1 ++ mkTempo t b :: l2)) with (l1 ++ mkTempo t b :: l2)
    by by destruct l1.
  rewrite tempo_dict_last_wins by done. split; [by intros [= ->]|by intros ->].
Qed.

Lemma finish_tempos_last_wins_witness :
  Forall (λ e, te_tick e ≠ 96) [mkTempo 200 90]
  ∧ (mkTempo 96 140 ∈ finish_tempos ([mkTempo 96 100] ++ mkTempo 96 140 :: [mkTempo 200 90])
     ↔ 140 = 140).
Proof.
  assert (H : Forall (λ e, te_tick e ≠ 96) [mkTempo 200 90])
    by (repeat constructor; simpl; lia).
  split; [exact H|].
  exact (finish_tempos_last_wins [mkTempo 96 100] [mkTempo 200 90] 96 140 140 H).
Defined.

(** X7. A turn of the decode loop that returns has consumed at least one
    byte and has not moved the tick backwards, so the loop ends within as
    many turns as the track has bytes. *)
Theorem decode_turn_advances (track : list byte) (st : track_state)
    (fl : flow) (st' : track_state) :
  0 ≤ pos st →
  track_body track st = Ok (fl, st') →
  pos st < pos st' ∧ tick st ≤ tick st'
  ∧ ∀ n m : nat, len track - pos st ≤ Z.of_nat n → len track - pos st ≤ Z.of_nat m →
      track_loop n track st = track_loop m track st.
Proof.
  intros Hp Hbody. split_and!.
  - by eapply track_body_pos.
  - unfold track_body in Hbody.
    destruct (read_vlq track (pos st)) as [[delta p]|] eqn:Hvlq;
      simpl in Hbody; [|done].
    apply read_vlq_bounds in Hvlq as [Hdelta Hp']; [|done].
    destruct (len track <=? p); [injection Hbody as _ <-; simpl; lia|].
    destruct (read_status track _ p) as [[[status p1] running]|];
      simpl in Hbody; [|done].
    destruct (status =? 255).
    { unfold meta_event in Hbody.
      destruct (len track <=? p1); [done|].
      destruct (index track p1); simpl in Hbody; [|done].
      destruct (read_vlq track (p1 + 1)) as [[? ?]|]; simpl in Hbody; [|done].
      repeat match type of Hbody with
      | (if ?c then _ else _) = _ => destruct c
      | mbind _ (index ?l ?i) = _ => destruct (index l i); simpl in Hbody; [|done]
      end.
      all: injection Hbody as _ <-; simpl; lia. }
    destruct ((status =? 240) || (status =? 247)).
    { destruct (read_vlq track p1) as [[? ?]|]; simpl in Hbody; [|done].
      injection Hbody as _ <-; simpl; lia. }
    destruct ((Z.land status 240 =? 192) || (Z.land status 240 =? 208)).
    { destruct (len track <=? p1); [done|].
      injection Hbody as _ <-; simpl; lia. }
    unfold note_event in Hbody.
    destruct (len track <=? p1 + 1); [done|].
    destruct (index track p1); simpl in Hbody; [|done].
    destruct (index track (p1 + 1)); simpl in Hbody; [|done].
    repeat match type of Hbody with
    | (if ?c then _ else _) = _ => destruct c
    | match ?o with Some _ => _ | None => _ end = _ => destruct o as [[? ?]|]
    | match active_get ?k ?a with Some _ => _ | None => _ end = _ =>
        destruct (active_get k a)
    end.
    all: injection Hbody as _ <-; simpl; lia.
  - intros n m Hn Hm. by apply track_loop_fuel.
Qed.

Lemma decode_turn_advances_witness :
  (0 ≤ pos after_note
   ∧ track_body overrun_meta_track after_note
     = Ok (Continue,
           mkTrackState (Some 0x80) 22 96 [((0, 60), [])] [mkNote 0 96 0 60 100]
             [mkTempo 96 120] (mkTimeSig 4 4)))
  ∧ pos after_note < 22 ∧ tick after_note ≤ 96
  ∧ ∀ n m : nat,
      len overrun_meta_track - pos after_note ≤ Z.of_nat n →
      len overrun_meta_track - pos after_note ≤ Z.of_nat m →
      track_loop n overrun_meta_track after_note
      = track_loop m overrun_meta_track after_note.
Proof.
  split; [split; [by vm_compute|reflexivity]|].
  apply (decode_turn_advances overrun_meta_track after_note Continue
           (mkTrackState (Some 0x80) 22 96 [((0, 60), [])] [mkNote 0 96 0 60 100]
              [mkTempo 96 120] (mkTimeSig 4 4)));
    [by vm_compute|reflexivity].
Defined.

(** ** The channel list *)

(** The channel a part stands for, when it has one. *)
Definition part_channel (part : token) : option Z :=
  match part with
  | IntText _ value => Some (value - 1)
  | _ => None
  end.

(** A part that [parse_channel_list] lets through. *)
Definition part_accepted (part : token) : Prop :=
  match part with
  | Blank => True
  | IntText _ value => 1 ≤ value ≤ 16
  | NotInt _ => False
  end.

Definition channel_step (acc : result (list Z)) (part : token) : result (list Z) :=
  channels ← acc;
  match part with
  | Blank => Ok channels
  | NotInt text =>
      Raise (ValueError ("Invalid channel '" +:+ text +:+ "', expected integers 1-16"))
  | IntText text value =>
      if negb ((1 <=? value) && (value <=? 16))
      then Raise (ValueError ("Invalid channel '" +:+ text +:+ "', expected range 1-16"))
      else Ok (channels ++ [value - 1])
  end.

Lemma channel_fold (parts : list token) (acc : list Z) :
  (Forall part_accepted parts
   ∧ foldl channel_step (Ok acc) parts = Ok (acc ++ omap part_channel parts))
  ∨ (¬ Forall part_accepted parts
     ∧ ∃ msg, foldl channel_step (Ok acc) parts = Raise (ValueError msg)).
Proof.
  revert acc. induction parts as [|part parts IH]; intros acc; simpl.
  - left. by rewrite app_nil_r.
  - destruct part as [|text value|text]; simpl.
    + destruct (IH acc) as [[Hall Hok]|[Hnot Herr]].
      * left. split; [by constructor|done].
      * right. split; [|done]. by intros Hall%Forall_cons_1%proj2.
    + destruct (Z.leb_spec 1 value); destruct (Z.leb_spec value 16); simpl.
      2-4: right; split; [intros Hall%Forall_cons_1%proj1; simpl in Hall; lia|];
           rewrite foldl_raise by done; eauto.
      destruct (IH (acc ++ [value - 1])) as [[Hall Hok]|[Hnot Herr]].
      * left. split; [constructor; simpl; [lia|done]|].
        by rewrite Hok, <-app_assoc.
      * right. split; [|done]. by intros Hall%Forall_cons_1%proj2.
    + right. split; [by intros Hall%Forall_cons_1%proj1|].
      rewrite foldl_raise by done. eauto.
Qed.

(** X8. [parse_channel_list] accepts a list of parts exactly when every
    part is blank or an integer from 1 to 16; it then returns the integers
    in order, each lowered by one (so within 0..15), or [None] when no
    integer is left; any other part makes it raise a [ValueError]. *)
Theorem parse_channel_list_spec (parts : list token) :
  (Forall part_accepted parts
   ∧ parse_channel_list (Some parts)
     = Ok (match omap part_channel parts with [] => None | chs => Some chs end)
   ∧ Forall (λ ch, 0 ≤ ch ≤ 15) (omap part_channel parts))
  ∨ (¬ Forall part_accepted parts
     ∧ ∃ msg, parse_channel_list (Some parts) = Raise (ValueError msg)).
Proof.
  unfold parse_channel_list. fold channel_step.
  destruct (channel_fold parts []) as [[Hall Hok]|[Hnot [msg Herr]]].
  - left. split_and!; [done| |].
    + rewrite Hok. simpl. by destruct (omap part_channel parts).
    + clear Hok. induction Hall as [|part parts Hp Hall IH]; simpl; [constructor|].
      destruct part; simpl in *; try done. constructor; [lia|done].
  - right. split; [done|]. exists msg. by rewrite Herr.
Qed.

(** ** Automatic channel ranking *)

(** The number of notes on a channel. *)
Definition note_count (notes : list NoteEvent) (ch : Z) : Z :=
  len (filter (λ n, channel n = ch) notes).

Lemma count_fold_lookup (notes : list NoteEvent) (m : gmap Z Z) (ch : Z) :
  foldl (λ by_channel n,
    <[channel n := default 0 (by_channel !! channel n) + 1]> by_channel) m notes !! ch
  = if decide (note_count notes ch = 0) then m !! ch
    else Some (default 0 (m !! ch) + note_count notes ch).
Proof.
  unfold note_count, len. revert m.
  induction notes as [|n notes IH]; intros m; simpl; [done|].
  rewrite IH. destruct (decide (channel n = ch)) as [<-|Hne].
  - rewrite filter_cons_True by done. simpl length.
    rewrite lookup_insert_eq. simpl.
    repeat case_decide; try lia; f_equal; lia.
  - rewrite filter_cons_False by done. by rewrite lookup_insert_ne.
Qed.

Lemma count_channels_lookup (notes : list NoteEvent) (ch : Z) :
  count_channels notes !! ch
  = if decide (note_count notes ch = 0) then None else Some (note_count notes ch).
Proof.
  unfold count_channels. rewrite count_fold_lookup, lookup_empty. simpl.
  by case_decide.
Qed.

Lemma note_count_nonneg (notes : list NoteEvent) (ch : Z) : 0 ≤ note_count notes ch.
Proof. unfold note_count, len. lia. Qed.

(** The channels with notes, each with its count, in ranking order. *)
Definition ranking (notes : list NoteEvent) : list (Z * Z) :=
  sorted rank_leb (map_to_list (count_channels notes)).

Lemma elem_of_ranking (notes : list NoteEvent) (ch c : Z) :
  (ch, c) ∈ ranking notes ↔ c = note_count notes ch ∧ 0 < c.
Proof.
  unfold ranking. rewrite sorted_Permutation, elem_of_map_to_list.
  rewrite count_channels_lookup. pose proof (note_count_nonneg notes ch).
  case_decide; split; try done; try lia.
  - intros [= <-]. lia.
  - intros [-> _]. done.
Qed.

Lemma rank_leb_spec (a b : Z * Z) :
  rank_leb a b = true ↔ b.2 < a.2 ∨ (b.2 = a.2 ∧ a.1 ≤ b.1).
Proof.
  unfold rank_leb, pair_leb; simpl.
  rewrite orb_true_iff, andb_true_iff, Z.ltb_lt, Z.eqb_eq, Z.leb_le. lia.
Qed.

Lemma ranking_sorted (notes : list NoteEvent) :
  StronglySorted (λ a b, rank_leb a b = true) (ranking notes).
Proof.
  apply Sorted_StronglySorted.
  - intros a b c. rewrite !rank_leb_spec. lia.
  - apply sorted_Sorted. intros a b Hab.
    apply rank_leb_spec. apply not_true_iff_false in Hab.
    rewrite rank_leb_spec in Hab. lia.
Qed.

Lemma StronglySorted_app_elem {A} (R : A → A → Prop) (l1 l2 : list A) (x y : A) :
  StronglySorted R (l1 ++ l2) → x ∈ l1 → y ∈ l2 → R x y.
Proof.
  induction l1 as [|z l1 IH]; simpl; [by intros _ ?%elem_of_nil|].
  intros [Hs Hz]%StronglySorted_inv [->|Hx]%elem_of_cons Hy.
  - rewrite Forall_forall in Hz. apply Hz. apply elem_of_app. by right.
  - by apply IH.
Qed.

Lemma StronglySorted_filter {A} (R : A → A → Prop) (P : A → Prop)
    `{∀ x, Decision (P x)} (l : list A) :
  StronglySorted R l → StronglySorted R (filter P l).
Proof.
  induction 1 as [|x l Hl IH Hx]; [constructor|].
  destruct (decide (P x)).
  - rewrite filter_cons_True by done. constructor; [done|].
    apply Forall_forall. intros y [_ Hy]%list_elem_of_filter.
    rewrite Forall_forall in Hx. by apply Hx.
  - by rewrite filter_cons_False.
Qed.

Lemma unused_channels_sorted (used : list Z) :
  StronglySorted Z.lt (unused_channels used).
Proof.
  apply StronglySorted_filter.
  repeat (rewrite seqZ_cons by done; simpl). rewrite seqZ_nil by done.
  repeat (constructor; [|repeat (constructor; [lia|]); constructor]).
  constructor.
Qed.

Lemma elem_of_unused_channels (used : list Z) (ch : Z) :
  ch ∈ unused_channels used ↔ (ch ∉ used) ∧ 0 ≤ ch ≤ 15.
Proof.
  unfold unused_channels. rewrite list_elem_of_filter, elem_of_seqZ.
  split; (intros [? ?]; split; [done|lia]).
Qed.

Lemma elem_of_take_drop {A} (l : list A) (n : nat) (x : A) :
  x ∈ l → x ∈ take n l ∨ x ∈ drop n l.
Proof. rewrite <-(take_drop n l) at 1. apply elem_of_app. Qed.

Lemma elem_of_ranked (notes : list NoteEvent) (ch : Z) :
  ch ∈ (ranking notes).*1 ↔ 0 < note_count notes ch.
Proof.
  rewrite list_elem_of_fmap. split.
  - intros ([ch' c] & -> & [-> ?]%elem_of_ranking). done.
  - intros Hc. exists (ch, note_count notes ch). split; [done|].
    by apply elem_of_ranking.
Qed.

(** X9. Automatic selection takes the first [voices] channels in the order
    "more notes first, then lower channel index": a channel that is chosen
    has more notes than one that is not, or as many and a lower index (the
    channel left out being one of 0..15 or one that has notes). *)
Theorem automatic_selection_ranked (notes : list NoteEvent) (voices : nat)
    (explicit : option (list Z)) (a b : Z) :
  explicit = None ∨ explicit = Some [] →
  b ∈ choose_voice_channels notes voices explicit →
  a ∉ choose_voice_channels notes voices explicit →
  0 ≤ a ≤ 15 ∨ 0 < note_count notes a →
  note_count notes a < note_count notes b
  ∨ (note_count notes a = note_count notes b ∧ b < a).
Proof.
  intros Hauto.
  assert (Hdef : choose_voice_channels notes voices explicit
                 = choose_voice_channels notes voices None)
    by (by destruct Hauto as [-> | ->]).
  rewrite Hdef. clear Hauto Hdef. unfold choose_voice_channels.
  fold (ranking notes).
  pose proof (note_count_nonneg notes a) as Ha0.
  pose proof (note_count_nonneg notes b) as Hb0.
  destruct ((ranking notes).*1) as [|ch ranked] eqn:Hr.
  { intros Hb Ha Hrange.
    assert (Hnone : ∀ c, note_count notes c ≤ 0).
    { intros c. destruct (Z.le_gt_cases (note_count notes c) 0) as [|Hpos]; [done|].
      apply elem_of_ranked in Hpos. rewrite Hr in Hpos.
      by apply elem_of_nil in Hpos. }
    pose proof (Hnone a). pose proof (Hnone b).
    apply elem_of_seqZ in Hb. rewrite elem_of_seqZ in Ha. lia. }
  rewrite <-Hr. clear Hr ch ranked.
  pose proof (elem_of_ranked notes) as Hranked.
  set (r := (ranking notes).*1) in *.
  destruct (Nat.ltb_spec (length r) voices) as [Hshort|Hlong].
  - rewrite take_app_ge by lia.
    set (k := (voices - length r)%nat).
    intros Hb Ha Hrange.
    apply not_elem_of_app in Ha as [Har Hau].
    assert (Ha_count : note_count notes a = 0).
    { destruct (Z.le_gt_cases (note_count notes a) 0) as [|Hpos]; [lia|].
      by apply Hranked in Hpos. }
    apply elem_of_app in Hb as [Hb|Hb].
    + apply Hranked in Hb. lia.
    + assert (Hbu : b ∈ unused_channels r).
      { apply elem_of_take in Hb as (i & Hb & _).
        by apply list_elem_of_lookup_2 in Hb. }
      apply elem_of_unused_channels in Hbu as [Hbr _].
      assert (note_count notes b = 0).
      { destruct (Z.le_gt_cases (note_count notes b) 0) as [|Hpos]; [lia|].
        by apply Hranked in Hpos. }
      right. split; [lia|].
      assert (Hau' : a ∈ unused_channels r)
        by (apply elem_of_unused_channels; split; [done|lia]).
      apply (elem_of_take_drop _ k) in Hau' as [?|Had]; [done|].
      apply (StronglySorted_app_elem Z.lt (take k (unused_channels r))
               (drop k (unused_channels r))); [|done..].
      rewrite take_drop. apply unused_channels_sorted.
  - unfold r. rewrite <-fmap_take.
    intros ([b' cb] & -> & Hb)%list_elem_of_fmap Ha Hrange. simpl in *.
    assert (Hbr : (b', cb) ∈ ranking notes).
    { apply elem_of_take in Hb as (i & Hb & _).
      by apply list_elem_of_lookup_2 in Hb. }
    apply elem_of_ranking in Hbr as [-> Hbpos].
    destruct (Z.le_gt_cases (note_count notes a) 0) as [|Hpos]; [lia|].
    assert (Har : (a, note_count notes a) ∈ ranking notes)
      by by apply elem_of_ranking.
    apply (elem_of_take_drop _ voices) in Har as [Hat|Had].
    { exfalso. apply Ha. apply list_elem_of_fmap.
      by exists (a, note_count notes a). }
    pose proof (StronglySorted_app_elem _ (take voices (ranking notes))
                  (drop voices (ranking notes)) _ _
                  ltac:(rewrite take_drop; apply ranking_sorted) Hb Had) as Hle.
    apply rank_leb_spec in Hle; simpl in Hle.
    assert (b' ≠ a).
    { intros ->. apply Ha. apply list_elem_of_fmap.
      by exists (a, note_count notes a). }
    lia.
Qed.

Lemma automatic_selection_ranked_witness :
  ((@None (list Z) = None ∨ @None (list Z) = Some [])
   ∧ 0 ∈ choose_voice_channels (notes two_note_song) 1 (@None (list Z))
   ∧ (1 ∉ choose_voice_channels (notes two_note_song) 1 (@None (list Z)))
   ∧ (0 ≤ 1 ≤ 15 ∨ 0 < note_count (notes two_note_song) 1))
  ∧ (note_count (notes two_note_song) 1 < note_count (notes two_note_song) 0
     ∨ (note_count (notes two_note_song) 1 = note_count (notes two_note_song) 0
        ∧ 0 < 1)).
Proof.
  assert (H0 : 0 ∈ choose_voice_channels (notes two_note_song) 1 (@None (list Z)))
    by (vm_compute; left).
  assert (H1 : 1 ∉ choose_voice_channels (notes two_note_song) 1 (@None (list Z))).
  { vm_compute. intros [=]%list_elem_of_singleton. }
  split; [split_and!; [by left|exact H0|exact H1|left; lia]|].
  apply (automatic_selection_ranked (notes two_note_song) 1 None 1 0);
    [by left|exact H0|exact H1|left; lia].
Defined.

Lemma channel_fold_range (parts : list token) (chs : list Z) :
  foldl channel_step (Ok []) parts = Ok chs → Forall (λ ch, 0 ≤ ch ≤ 15) chs.
Proof.
  destruct (channel_fold parts []) as [[Hall ->]|[_ [msg ->]]]; [|done].
  intros [= <-]. simpl.
  induction Hall as [|part parts Hp Hall IH]; simpl; [constructor|].
  destruct part; simpl in *; try done. constructor; [lia|done].
Qed.

Lemma Forall_take {A} (P : A → Prop) (l : list A) (n : nat) :
  Forall P l → Forall P (take n l).
Proof.
  rewrite !Forall_forall. intros Hl x (i & Hx & _)%elem_of_take.
  apply Hl. by eapply list_elem_of_lookup_2.
Qed.

Lemma unused_channels_range (used : list Z) :
  Forall (λ ch, 0 ≤ ch ≤ 15) (unused_channels used).
Proof.
  apply Forall_forall. by intros ch [_ ?]%elem_of_unused_channels.
Qed.

(** X10. For a decoded song, a channel list that [parse_channel_list]
    accepted and at most 16 voices, every channel the selector returns is
    one of 0..15. *)
Theorem chosen_channels_in_range (data : list byte) (song : MidiSong)
    (raw : option (list token)) (explicit : option (list Z)) (voices : nat) :
  parse_midi data = Ok song →
  parse_channel_list raw = Ok explicit →
  (voices ≤ 16)%nat →
  Forall (λ ch, 0 ≤ ch ≤ 15) (choose_voice_channels (notes song) voices explicit).
Proof.
  intros (header_len & track_count & seen & _ & Htracks & _)%parse_midi_inv
    Hraw Hvoices.
  apply parse_tracks_ok in Htracks as (_ & Hnotes & _ & _);
    [|lia|constructor|constructor|split; simpl; [lia|exists 2; split; [lia|done]]].
  assert (Hexplicit : Forall (λ ch, 0 ≤ ch ≤ 15) (default [] explicit)).
  { unfold parse_channel_list in Hraw. fold channel_step in Hraw.
    destruct raw as [parts|]; [|injection Hraw as <-; constructor].
    destruct (foldl channel_step (Ok []) parts) as [chs|] eqn:Hfold;
      simpl in Hraw; [|done].
    apply channel_fold_range in Hfold.
    destruct chs; injection Hraw as <-; [constructor|done]. }
  assert (Hranked : Forall (λ ch, 0 ≤ ch ≤ 15) (ranking (notes song)).*1).
  { apply Forall_forall. intros ch Hch%elem_of_ranked.
    unfold note_count, len in Hch.
    destruct (filter (λ n, channel n = ch) (notes song)) as [|n l] eqn:Hf;
      [simpl in Hch; lia|].
    assert (Hn : n ∈ filter (λ n, channel n = ch) (notes song))
      by (rewrite Hf; left).
    apply list_elem_of_filter in Hn as [<- Hn].
    rewrite Forall_forall in Hnotes. apply Hnotes in Hn. unfold note_ok in Hn. lia. }
  unfold choose_voice_channels. fold (ranking (notes song)).
  assert (Hauto :
    Forall (λ ch, 0 ≤ ch ≤ 15)
      match (ranking (notes song)).*1 with
      | [] => seqZ 0 (Z.of_nat voices)
      | _ :: _ =>
          take voices
            (if (length (ranking (notes song)).*1 <? voices)%nat
             then (ranking (notes song)).*1
                    ++ unused_channels (ranking (notes song)).*1
             else (ranking (notes song)).*1)
      end).
  { destruct ((ranking (notes song)).*1) as [|ch ranked] eqn:Hr.
    - apply Forall_seqZ. lia.
    - apply Forall_take. destruct (_ <? _)%nat; [|done].
      apply Forall_app. split; [done|apply unused_channels_range]. }
  destruct explicit as [[|x explicit]|]; [done| |done].
  simpl in Hexplicit. clear Hauto.
  destruct (length (take voices (x :: explicit)) <? voices)%nat.
  - apply Forall_app. split; [by apply Forall_take|].
    apply Forall_take, unused_channels_range.
  - by apply Forall_take.
Qed.

Lemma chosen_channels_in_range_witness :
  (parse_midi two_note_file = Ok two_note_song
   ∧ parse_channel_list (Some [IntText "2" 2; Blank; IntText "16" 16])
     = Ok (Some [1; 15])
   ∧ (3 ≤ 16)%nat)
  ∧ Forall (λ ch, 0 ≤ ch ≤ 15)
      (choose_voice_channels (notes two_note_song) 3 (Some [1; 15])).
Proof.
  split; [split_and!; [by vm_compute|by vm_compute|lia]|].
  apply (chosen_channels_in_range two_note_file two_note_song
           (Some [IntText "2" 2; Blank; IntText "16" 16]) (Some [1; 15]) 3);
    [by vm_compute|by vm_compute|lia].
Defined.

(** ** The reducer, for any notes *)

Lemma candidates_Permutation (notes : list NoteEvent) (chan t : Z) :
  filter (onset_at chan t) (sorted onset_leb notes)
  ≡ₚ filter (onset_at chan t) notes.
Proof. by rewrite sorted_Permutation. Qed.

Lemma elem_of_candidates (notes : list NoteEvent) (chan t : Z) (n : NoteEvent) :
  n ∈ filter (onset_at chan t) (sorted onset_leb notes)
  ↔ onset_at chan t n ∧ n ∈ notes.
Proof. by rewrite candidates_Permutation, list_elem_of_filter. Qed.

(** X11. The reducer's map has an entry at a tick exactly when some note
    of the channel starts there, under every policy, and the entry is one
    of those notes. *)
Theorem select_onset_domain (notes : list NoteEvent) (chan : Z)
    (policy : chord_policy) (t : Z) :
  (select_monophonic_onsets notes chan policy !! t = None
   ↔ Forall (λ n, ¬ onset_at chan t n) notes)
  ∧ ∀ w, select_monophonic_onsets notes chan policy !! t = Some w →
         w ∈ notes ∧ channel w = chan ∧ start_tick w = t.
Proof.
  rewrite select_lookup.
  pose proof (elem_of_candidates notes chan t) as Hin.
  destruct (filter (onset_at chan t) (sorted onset_leb notes)) as [|c rest]; simpl.
  - split.
    + split; [intros _|done]. apply Forall_forall. intros n Hn Hat.
      by apply (elem_of_nil n), Hin.
    + done.
  - assert (Hw : ∃ w, foldl (pick_step policy) (Some c) rest = Some w
                      ∧ w ∈ c :: rest).
    { destruct policy.
      - destruct (pick_high rest c) as (w & -> & Hw & _). exists w.
        split; [done|]. destruct Hw as [->|?]; [left|by right].
      - destruct (pick_low rest c) as (w & -> & Hw & _). exists w.
        split; [done|]. destruct Hw as [->|?]; [left|by right].
      - rewrite pick_first. exists c. split; [done|left]. }
    destruct Hw as (w & -> & Hw). split.
    + split; [done|]. intros Hall. rewrite Forall_forall in Hall.
      assert (Hc : c ∈ c :: rest) by left.
      apply Hin in Hc as [Hat Hc]. by apply Hall in Hc.
    + intros w' [= <-]. apply Hin in Hw as [[? ?] ?]. done.
Qed.

(** X12. Under [High] the note kept at a tick has the highest pitch of all
    notes of the channel that start there, and under [Low] the lowest,
    whatever their number and order in the song. *)
Theorem select_extreme_pitch (notes : list NoteEvent) (chan t : Z)
    (high low n : NoteEvent) :
  select_monophonic_onsets notes chan High !! t = Some high →
  select_monophonic_onsets notes chan Low !! t = Some low →
  n ∈ notes → channel n = chan → start_tick n = t →
  note low ≤ note n ≤ note high.
Proof.
  rewrite !select_lookup. intros Hhigh Hlow Hn Hch Hst.
  assert (Hin : n ∈ filter (onset_at chan t) (sorted onset_leb notes))
    by by apply elem_of_candidates.
  destruct (filter (onset_at chan t) (sorted onset_leb notes)) as [|c rest];
    [done|]. simpl in *.
  destruct (pick_high rest c) as (w & Hw & _ & Hc & Hall).
  destruct (pick_low rest c) as (w' & Hw' & _ & Hc' & Hall').
  rewrite Hw in Hhigh. rewrite Hw' in Hlow.
  injection Hhigh as <-. injection Hlow as <-.
  apply elem_of_cons in Hin as [->|Hin]; [lia|].
  specialize (Hall n Hin). specialize (Hall' n Hin). lia.
Qed.

Lemma select_extreme_pitch_witness :
  (select_monophonic_onsets staggered_chord 0 High !! 0 = Some (mkNote 0 10 0 67 100)
   ∧ select_monophonic_onsets staggered_chord 0 Low !! 0 = Some (mkNote 0 20 0 60 100)
   ∧ mkNote 0 30 0 64 100 ∈ staggered_chord
   ∧ channel (mkNote 0 30 0 64 100) = 0
   ∧ start_tick (mkNote 0 30 0 64 100) = 0)
  ∧ note (mkNote 0 20 0 60 100) ≤ note (mkNote 0 30 0 64 100)
      ≤ note (mkNote 0 10 0 67 100).
Proof.
  assert (Hin : mkNote 0 30 0 64 100 ∈ staggered_chord) by (do 2 right; left).
  split; [split_and!; [by vm_compute|by vm_compute|exact Hin|done|done]|].
  apply (select_extreme_pitch staggered_chord 0 0 (mkNote 0 10 0 67 100)
           (mkNote 0 20 0 60 100) (mkNote 0 30 0 64 100));
    [by vm_compute|by vm_compute|exact Hin|done|done].
Defined.

(** X13. Under [First] the note kept at a tick is the one that comes first
    in the processing order: no note of the channel that starts there ends
    earlier, and none that ends with it has a lower pitch. *)
Theorem select_first_earliest (notes : list NoteEvent) (chan t : Z)
    (w n : NoteEvent) :
  select_monophonic_onsets notes chan First !! t = Some w →
  n ∈ notes → channel n = chan → start_tick n = t →
  end_tick w < end_tick n ∨ (end_tick w = end_tick n ∧ note w ≤ note n).
Proof.
  rewrite select_lookup. intros Hw Hn Hch Hst.
  assert (Hin : n ∈ filter (onset_at chan t) (sorted onset_leb notes))
    by by apply elem_of_candidates.
  pose proof (sorted_onsets_StronglySorted notes) as Hsorted.
  destruct (filter (onset_at chan t) (sorted onset_leb notes)) as [|c rest] eqn:Hf;
    [done|]. simpl in Hw. rewrite pick_first in Hw. injection Hw as <-.
  assert (Hc : c ∈ filter (onset_at chan t) (sorted onset_leb notes))
    by (rewrite Hf; left).
  apply elem_of_candidates in Hc as [[_ Hct] _].
  apply elem_of_cons in Hin as [->|Hin]; [lia|].
  pose proof (StronglySorted_filter_head _ _ _ _ _ Hsorted Hf) as Hhead.
  rewrite Forall_forall in Hhead. specialize (Hhead n Hin).
  apply onset_leb_spec in Hhead. lia.
Qed.

Lemma select_first_earliest_witness :
  (select_monophonic_onsets staggered_chord 0 First !! 0 = Some (mkNote 0 10 0 67 100)
   ∧ mkNote 0 20 0 60 100 ∈ staggered_chord
   ∧ channel (mkNote 0 20 0 60 100) = 0
   ∧ start_tick (mkNote 0 20 0 60 100) = 0)
  ∧ (end_tick (mkNote 0 10 0 67 100) < end_tick (mkNote 0 20 0 60 100)
     ∨ (end_tick (mkNote 0 10 0 67 100) = end_tick (mkNote 0 20 0 60 100)
        ∧ note (mkNote 0 10 0 67 100) ≤ note (mkNote 0 20 0 60 100))).
Proof.
  assert (Hin : mkNote 0 20 0 60 100 ∈ staggered_chord) by (right; left).
  split; [split_and!; [by vm_compute|exact Hin|done|done]|].
  apply (select_first_earliest staggered_chord 0 0 (mkNote 0 10 0 67 100)
           (mkNote 0 20 0 60 100)); [by vm_compute|exact Hin|done|done].
Defined.

(** ** The scheduler, for any song *)

Lemma elem_of_onset_ticks (per_voice : list (gmap Z NoteEvent)) (acc : gset Z) (t : Z) :
  t ∈ foldl (λ ticks onsets, ticks ∪ dom onsets) acc per_voice
  ↔ t ∈ acc ∨ ∃ onsets, onsets ∈ per_voice ∧ is_Some (onsets !! t).
Proof.
  revert acc. induction per_voice as [|o per_voice IH]; intros acc; simpl.
  - split; [by left|]. intros [?|(o & Ho & _)]; [done|]. by apply elem_of_nil in Ho.
  - rewrite IH, elem_of_union, elem_of_dom. split.
    + intros [[?|?]|(o' & Ho' & ?)]; [by left|right; exists o|right; exists o'].
      * split; [left|done].
      * split; [by right|done].
    + intros [?|(o' & [->|Ho']%elem_of_cons & ?)]; [left; by left|left; by right|].
      right. by exists o'.
Qed.

Lemma elem_of_all_ticks (per_voice : list (gmap Z NoteEvent)) (mode : tempo_mode)
    (by_tick : gmap Z Z) (song_end tail_ticks t : Z) :
  t ∈ all_ticks per_voice mode by_tick song_end tail_ticks
  ↔ (∃ onsets, onsets ∈ per_voice ∧ is_Some (onsets !! t))
    ∨ (mode = TrackTempo ∧ 0 < t ∧ is_Some (by_tick !! t))
    ∨ (0 < song_end ∧ t = song_end + Z.max 0 tail_ticks).
Proof.
  unfold all_ticks.
  assert (Hbase : ∀ s : gset Z,
            t ∈ (if 0 <? song_end then s ∪ {[song_end + Z.max 0 tail_ticks]} else s)
            ↔ t ∈ s ∨ (0 < song_end ∧ t = song_end + Z.max 0 tail_ticks)).
  { intros s. destruct (Z.ltb_spec 0 song_end).
    - rewrite elem_of_union, elem_of_singleton. tauto.
    - split; [by left|]. intros [?|[? _]]; [done|lia]. }
  rewrite Hbase. destruct mode.
  - rewrite elem_of_onset_ticks, elem_of_empty.
    split; [intros [[[]|?]|?]; tauto|]. intros [?|[[? _]|?]]; [tauto|done|tauto].
  - rewrite elem_of_union, elem_of_filter, elem_of_dom, elem_of_onset_ticks,
      elem_of_empty.
    split; [intros [[[[]|?]|[? ?]]|?]; tauto|]. intros [?|[[_ [? ?]]|?]]; tauto.
Qed.

Lemma elem_of_timeline (per_voice : list (gmap Z NoteEvent)) (mode : tempo_mode)
    (by_tick : gmap Z Z) (song_end tail_ticks t : Z) :
  t ∈ all_ticks per_voice mode by_tick song_end tail_ticks →
  t ∈ timeline per_voice mode by_tick song_end tail_ticks.
Proof.
  intros Ht. unfold timeline.
  assert (Hs : t ∈ sorted Z.leb
                 (elements (all_ticks per_voice mode by_tick song_end tail_ticks)))
    by by rewrite sorted_Permutation, elem_of_elements.
  destruct (sorted Z.leb _); [by apply elem_of_nil in Hs|done].
Qed.

Lemma timeline_cases (per_voice : list (gmap Z NoteEvent)) (mode : tempo_mode)
    (by_tick : gmap Z Z) (song_end tail_ticks : Z) :
  (all_ticks per_voice mode by_tick song_end tail_ticks = ∅
   ∧ timeline per_voice mode by_tick song_end tail_ticks = [0])
  ∨ (∀ t, t ∈ timeline per_voice mode by_tick song_end tail_ticks
          → t ∈ all_ticks per_voice mode by_tick song_end tail_ticks).
Proof.
  unfold timeline.
  set (s := all_ticks per_voice mode by_tick song_end tail_ticks).
  destruct (sorted Z.leb (elements s)) as [|t0 l] eqn:Hs.
  - left. split; [|done]. apply leibniz_equiv, elements_empty_inv.
    pose proof (sorted_Permutation Z.leb (elements s)) as Hp.
    rewrite Hs in Hp. by apply Permutation_nil_l in Hp.
  - right. intros t Ht. rewrite <-Hs, sorted_Permutation in Ht.
    by apply elem_of_elements in Ht.
Qed.

Lemma elem_of_make_rows (per_voice : list (gmap Z NoteEvent)) (mode : tempo_mode)
    (by_tick : gmap Z Z) (prev : Z) (ticks : list Z) (t : Z) :
  t ∈ ticks →
  ∃ prev', make_row per_voice mode by_tick prev' t
           ∈ make_rows per_voice mode by_tick prev ticks.
Proof.
  revert prev. induction ticks as [|t0 ticks IH]; intros prev; [by intros ?%elem_of_nil|].
  intros [->|Ht]%elem_of_cons; simpl.
  - exists prev. left.
  - destruct (IH t0 Ht) as [prev' Hin]. exists prev'. by right.
Qed.

Lemma make_rows_inv (per_voice : list (gmap Z NoteEvent)) (mode : tempo_mode)
    (by_tick : gmap Z Z) (prev : Z) (ticks : list Z) (r : row) :
  r ∈ make_rows per_voice mode by_tick prev ticks →
  ∃ prev' t, t ∈ ticks ∧ r = make_row per_voice mode by_tick prev' t.
Proof.
  revert prev. induction ticks as [|t0 ticks IH]; intros prev; simpl;
    [by intros ?%elem_of_nil|].
  intros [->|Hr]%elem_of_cons.
  - exists prev, t0. split; [left|done].
  - destruct (IH t0 Hr) as (prev' & t & Ht & ->). exists prev', t.
    split; [by right|done].
Qed.

Lemma elem_of_removelast {A} (l : list A) (x : A) :
  x ∈ removelast l → x ∈ l.
Proof.
  induction l as [|y l IH]; simpl; [done|].
  destruct l; [by intros ?%elem_of_nil|].
  intros [->|?]%elem_of_cons; [left|right; by apply IH].
Qed.

Lemma elem_of_drop_inert_tail (rows : list row) (r : row) :
  r ∈ rows → inert r = false → r ∈ drop_inert_tail rows.
Proof.
  intros Hr Hinert. unfold drop_inert_tail.
  destruct (last rows) as [l|] eqn:Hlast; [|done].
  destruct (inert l) eqn:Hl; [|done].
  apply last_Some in Hlast as [rows' ->].
  rewrite removelast_last. apply elem_of_app in Hr as [?|Hr]; [done|].
  apply list_elem_of_singleton in Hr as ->. congruence.
Qed.

Lemma voice_slot_length (t : Z) (onsets : gmap Z NoteEvent) :
  length (voice_slot t onsets) = 2%nat.
Proof. unfold voice_slot. by destruct (onsets !! t). Qed.

Lemma slots_lookup (per_voice : list (gmap Z NoteEvent)) (t : Z) (i : nat)
    (onsets : gmap Z NoteEvent) :
  per_voice !! i = Some onsets →
  flat_map (voice_slot t) per_voice !! (2 * i)%nat = voice_slot t onsets !! 0%nat
  ∧ flat_map (voice_slot t) per_voice !! (2 * i + 1)%nat = voice_slot t onsets !! 1%nat.
Proof.
  revert i. induction per_voice as [|o per_voice IH]; intros i; [done|].
  destruct i as [|i]; simpl.
  - intros [= ->]. pose proof (voice_slot_length t onsets).
    rewrite !lookup_app_l by lia. done.
  - intros Hi. destruct (IH i Hi) as [H0 H1].
    pose proof (voice_slot_length t o).
    rewrite !lookup_app_r by lia.
    replace (S (i + S (i + 0)) - length (voice_slot t o))%nat
      with (2 * i)%nat by lia.
    replace (S (i + S (i + 0) + 1) - length (voice_slot t o))%nat
      with (2 * i + 1)%nat by lia.
    done.
Qed.

Lemma slots_not_inert (per_voice : list (gmap Z NoteEvent)) (t : Z)
    (onsets : gmap Z NoteEvent) :
  onsets ∈ per_voice → is_Some (onsets !! t) →
  forallb (λ v, v =? 0) (flat_map (voice_slot t) per_voice) = false.
Proof.
  intros Hin [n Hn]. apply not_true_iff_false. intros Hall.
  rewrite forallb_forall in Hall.
  assert (Hd : In (Z.max 1 (end_tick n - start_tick n))
                 (flat_map (voice_slot t) per_voice)).
  { apply in_flat_map. exists onsets. split; [by apply list_elem_of_In|].
    unfold voice_slot. rewrite Hn. right. by left. }
  apply Hall in Hd. lia.
Qed.

Lemma timeline_sorted (per_voice : list (gmap Z NoteEvent)) (mode : tempo_mode)
    (by_tick : gmap Z Z) (song_end tail_ticks : Z) :
  StronglySorted Z.lt (timeline per_voice mode by_tick song_end tail_ticks).
Proof.
  unfold timeline.
  set (ticks := all_ticks _ _ _ _ _).
  pose proof (sorted_Z_ascending (elements ticks) (NoDup_elements ticks)) as Hs.
  destruct (sorted Z.leb (elements ticks)); [repeat constructor|done].
Qed.

Lemma make_rows_sorted_elem (per_voice : list (gmap Z NoteEvent)) (mode : tempo_mode)
    (by_tick : gmap Z Z) (prev : Z) (ticks : list Z) (t : Z) :
  StronglySorted Z.lt ticks → Forall (Z.lt prev) ticks → t ∈ ticks →
  ∃ prev', prev' < t
           ∧ make_row per_voice mode by_tick prev' t
             ∈ make_rows per_voice mode by_tick prev ticks.
Proof.
  intros Hs. revert prev. induction Hs as [|t0 ticks Hs IH Ht0]; intros prev Hprev;
    [by intros ?%elem_of_nil|].
  apply Forall_cons_1 in Hprev as [Hp0 Hprev].
  intros [->|Ht]%elem_of_cons; simpl.
  - exists prev. split; [done|left].
  - destruct (IH t0 Ht0 Ht) as (prev' & Hlt & Hin).
    exists prev'. split; [done|by right].
Qed.

Lemma timeline_row (per_voice : list (gmap Z NoteEvent)) (mode : tempo_mode)
    (by_tick : gmap Z Z) (song_end tail_ticks t : Z) :
  t ∈ timeline per_voice mode by_tick song_end tail_ticks → 0 < t →
  ∃ prev', prev' < t
           ∧ make_row per_voice mode by_tick prev' t
             ∈ make_rows per_voice mode by_tick 0
                 (timeline per_voice mode by_tick song_end tail_ticks).
Proof.
  pose proof (timeline_sorted per_voice mode by_tick song_end tail_ticks) as Hs.
  destruct (timeline _ _ _ _ _) as [|t0 rest]; [by intros ?%elem_of_nil|].
  apply StronglySorted_inv in Hs as [Hs Ht0].
  intros [->|Ht]%elem_of_cons Hpos; simpl.
  - exists 0. split; [done|left].
  - destruct (make_rows_sorted_elem per_voice mode by_tick t0 rest t Hs Ht0 Ht)
      as (prev' & Hlt & Hin).
    exists prev'. split; [done|by right].
Qed.

Lemma make_rows_positive (per_voice : list (gmap Z NoteEvent)) (mode : tempo_mode)
    (by_tick : gmap Z Z) (prev : Z) (ticks : list Z) :
  StronglySorted Z.lt ticks → Forall (Z.lt prev) ticks →
  Forall (λ r, 0 < wait_ticks r) (make_rows per_voice mode by_tick prev ticks).
Proof.
  intros Hs. revert prev. induction Hs as [|t0 ticks Hs IH Ht0]; intros prev Hprev;
    simpl; [constructor|].
  apply Forall_cons_1 in Hprev as [Hp0 Hprev].
  constructor; [simpl; lia|by apply IH].
Qed.

Lemma inert_false_wait (r : row) : 0 < wait_ticks r → inert r = false.
Proof.
  intros Hw. unfold inert. apply andb_false_iff. right. lia.
Qed.

(** X14. No onset is lost by the scheduler: when voice [i] has a note at a
    tick, the rows hold a row whose slot [i] is that note's frequency and
    its duration in ticks, at least 1. *)
Theorem every_onset_gets_a_row (per_voice : list (gmap Z NoteEvent))
    (mode : tempo_mode) (by_tick : gmap Z Z) (song_end tail_ticks : Z)
    (i : nat) (onsets : gmap Z NoteEvent) (t : Z) (n : NoteEvent) :
  per_voice !! i = Some onsets →
  onsets !! t = Some n →
  ∃ r, r ∈ make_events per_voice mode by_tick song_end tail_ticks
       ∧ slots r !! (2 * i)%nat = Some (midi_note_to_freq (note n))
       ∧ slots r !! (2 * i + 1)%nat
         = Some (Z.max 1 (end_tick n - start_tick n)).
Proof.
  intros Hi Hn.
  assert (Hin : onsets ∈ per_voice) by by eapply list_elem_of_lookup_2.
  assert (Ht : t ∈ timeline per_voice mode by_tick song_end tail_ticks).
  { apply elem_of_timeline, elem_of_all_ticks. left. by exists onsets. }
  destruct (elem_of_make_rows per_voice mode by_tick 0 _ t Ht) as [prev Hrow].
  exists (make_row per_voice mode by_tick prev t). split_and!.
  - apply elem_of_drop_inert_tail; [done|].
    unfold inert; simpl. rewrite (slots_not_inert per_voice t onsets) by done.
    by rewrite andb_false_r.
  - unfold make_row; cbn [slots].
    destruct (slots_lookup per_voice t i onsets Hi) as [-> _].
    unfold voice_slot. by rewrite Hn.
  - unfold make_row; cbn [slots].
    destruct (slots_lookup per_voice t i onsets Hi) as [_ ->].
    unfold voice_slot. by rewrite Hn.
Qed.

Lemma every_onset_gets_a_row_witness :
  (onsets_per_voice two_note_song 1 [0] High !! 0%nat
   = Some (select_monophonic_onsets (notes two_note_song) 0 High)
   ∧ select_monophonic_onsets (notes two_note_song) 0 High !! 480
     = Some (mkNote 480 960 0 64 100))
  ∧ ∃ r, r ∈ make_events (onsets_per_voice two_note_song 1 [0] High) FixedTempo
               (tempo_dict (tempos two_note_song)) 960 0
         ∧ slots r !! (2 * 0)%nat
           = Some (midi_note_to_freq (note (mkNote 480 960 0 64 100)))
         ∧ slots r !! (2 * 0 + 1)%nat
           = Some (Z.max 1 (end_tick (mkNote 480 960 0 64 100)
                            - start_tick (mkNote 480 960 0 64 100))).
Proof.
  split; [split; [reflexivity|by vm_compute]|].
  apply (every_onset_gets_a_row (onsets_per_voice two_note_song 1 [0] High)
           FixedTempo (tempo_dict (tempos two_note_song)) 960 0 0
           (select_monophonic_onsets (notes two_note_song) 0 High) 480
           (mkNote 480 960 0 64 100)); [reflexivity|by vm_compute].
Defined.

Lemma elem_of_make_events (per_voice : list (gmap Z NoteEvent)) (mode : tempo_mode)
    (by_tick : gmap Z Z) (song_end tail_ticks : Z) (r : row) :
  r ∈ make_events per_voice mode by_tick song_end tail_ticks →
  ∃ prev t, r = make_row per_voice mode by_tick prev t.
Proof.
  unfold make_events, drop_inert_tail. intros Hr.
  assert (Hrows : r ∈ make_rows per_voice mode by_tick 0
                        (timeline per_voice mode by_tick song_end tail_ticks)).
  { destruct (last _) as [l|]; [|done].
    destruct (inert l); [by apply elem_of_removelast|done]. }
  apply make_rows_inv in Hrows as (prev & t & _ & ->). eauto.
Qed.

(** In fixed tempo mode no row carries a tempo override, and in either
    mode every row has one pair of slots per voice. *)
Lemma rows_shape (per_voice : list (gmap Z NoteEvent)) (mode : tempo_mode)
    (by_tick : gmap Z Z) (song_end tail_ticks : Z) :
  Forall (λ r, length (slots r) = (2 * length per_voice)%nat
               ∧ (mode = FixedTempo → tempo r = 0))
    (make_events per_voice mode by_tick song_end tail_ticks).
Proof.
  apply Forall_forall. intros r (prev & t & ->)%elem_of_make_events. split.
  - simpl. clear. induction per_voice as [|o per_voice IH]; simpl; [done|].
    rewrite length_app, voice_slot_length, IH. lia.
  - by intros ->.
Qed.

(** X16. In track tempo mode every tempo of the tempo map at a tick above
    0 is emitted: the rows hold a row for that tick, with a positive wait,
    that tempo as its override and the voices' slots of that tick. *)
Theorem tempo_change_gets_a_row (per_voice : list (gmap Z NoteEvent))
    (by_tick : gmap Z Z) (song_end tail_ticks t bpm : Z) :
  by_tick !! t = Some bpm → 0 < t →
  ∃ r, r ∈ make_events per_voice TrackTempo by_tick song_end tail_ticks
       ∧ tempo r = bpm ∧ 0 < wait_ticks r
       ∧ slots r = flat_map (voice_slot t) per_voice.
Proof.
  intros Hbpm Hpos.
  assert (Ht : t ∈ timeline per_voice TrackTempo by_tick song_end tail_ticks).
  { apply elem_of_timeline, elem_of_all_ticks. right. left. by rewrite Hbpm. }
  destruct (timeline_row _ _ _ _ _ _ Ht Hpos) as (prev & Hlt & Hrow).
  exists (make_row per_voice TrackTempo by_tick prev t).
  assert (Hwait : 0 < wait_ticks (make_row per_voice TrackTempo by_tick prev t))
    by (simpl; lia).
  split_and!; [|simpl|done..].
  - apply elem_of_drop_inert_tail; [done|by apply inert_false_wait].
  - rewrite Hbpm. destruct (Z.eqb_spec t 0); [lia|done].
Qed.

Lemma tempo_change_gets_a_row_witness :
  ((<[480 := 90]> (tempo_dict (tempos two_note_song)) : gmap Z Z) !! 480 = Some 90
   ∧ 0 < 480)
  ∧ ∃ r, r ∈ make_events (onsets_per_voice two_note_song 1 [0] High) TrackTempo
               (<[480 := 90]> (tempo_dict (tempos two_note_song))) 960 0
         ∧ tempo r = 90 ∧ 0 < wait_ticks r
         ∧ slots r = flat_map (voice_slot 480)
                       (onsets_per_voice two_note_song 1 [0] High).
Proof.
  split; [split; [by vm_compute|lia]|].
  apply (tempo_change_gets_a_row (onsets_per_voice two_note_song 1 [0] High)
           (<[480 := 90]> (tempo_dict (tempos two_note_song))) 960 0 480 90);
    [by vm_compute|lia].
Defined.

(** ** What [emit_basic] writes *)

(** The rows of the program [emit_basic] returns. *)
Lemma emit_basic_lines_rows (song : MidiSong) (input_label title : string)
    (voices : nat) (voice_channels : list Z) (policy : chord_policy)
    (mode : tempo_mode) (bpm_override : option Z)
    (volume tail_ticks max_line_len : Z) (lines : list line) :
  emit_basic_lines song input_label title voices voice_channels policy mode
    bpm_override volume tail_ticks max_line_len = Ok lines →
  ∃ by_tick,
    tempo_by_tick song = Ok by_tick
    ∧ data_rows lines
      = make_events (onsets_per_voice song voices voice_channels policy) mode
          by_tick (song_end_tick song) tail_ticks ++ [sentinel voices]
    ∧ check_lengths max_line_len lines = Ok ().
Proof.
  unfold emit_basic_lines.
  destruct (tempo_by_tick song) as [by_tick|] eqn:Hby; simpl; [|done].
  destruct (initial_bpm _ _) as [bpm0|]; simpl; [|done].
  destruct (denominator _ =? 0); [done|].
  destruct (program_lines _ _ _ _ _ _ _ _ _ _) as [head|] eqn:Hhead; simpl; [|done].
  destruct (data_lines _ _ _ _ _) as [all|] eqn:Hdata; simpl; [|done].
  destruct (check_lengths _ _) as [[]|] eqn:Hcheck; simpl; [|done].
  intros [= <-].
  apply program_lines_data_rows in Hhead.
  apply data_lines_rows in Hdata as [Hrows _].
  rewrite Hhead in Hrows. exists by_tick. done.
Qed.

(** X15. Every row of the program, the sentinel included, has the same
    number of fields, two and two per voice, when the channel list has at
    least one channel per voice; in fixed tempo mode the tempo field of
    every row is 0. *)
Theorem emitted_rows_shape (song : MidiSong) (input_label title : string)
    (voices : nat) (voice_channels : list Z) (policy : chord_policy)
    (mode : tempo_mode) (bpm_override : option Z)
    (volume tail_ticks max_line_len : Z) (lines : list line) :
  emit_basic_lines song input_label title voices voice_channels policy mode
    bpm_override volume tail_ticks max_line_len = Ok lines →
  (voices ≤ length voice_channels)%nat →
  Forall (λ r, length (fields r) = (2 + 2 * voices)%nat
               ∧ (mode = FixedTempo → tempo r = 0)) (data_rows lines).
Proof.
  intros (by_tick & _ & -> & _)%emit_basic_lines_rows Hvoices.
  apply Forall_app. split.
  - eapply Forall_impl; [apply rows_shape|]. intros r [Hlen Htempo]; simpl in *.
    split; [|done]. rewrite Hlen. unfold onsets_per_voice.
    rewrite length_fmap, length_take. lia.
  - constructor; [|constructor]. split; [|done].
    unfold sentinel, fields; simpl. rewrite length_replicate. lia.
Qed.

Lemma emitted_rows_shape_witness :
  ∃ lines,
    (emit_basic_lines two_note_song "two_note.mid" "SCORE PLAYER" 1 [0]
       High FixedTempo None 12 0 68 = Ok lines
     ∧ (1 ≤ length [0])%nat)
    ∧ Forall (λ r, length (fields r) = (2 + 2 * 1)%nat
                   ∧ (FixedTempo = FixedTempo → tempo r = 0)) (data_rows lines).
Proof.
  eexists. split; [split; [vm_compute; reflexivity|simpl; lia]|].
  eapply (emitted_rows_shape two_note_song "two_note.mid" "SCORE PLAYER" 1 [0]
            High FixedTempo None 12 0 68); [vm_compute; reflexivity|simpl; lia].
Defined.

(** X17. No row of the schedule is a no-op: every row has a positive wait,
    a tempo override or a note in some voice. *)
Theorem no_inert_row (per_voice : list (gmap Z NoteEvent)) (mode : tempo_mode)
    (by_tick : gmap Z Z) (song_end tail_ticks : Z) :
  Forall (λ r, inert r = false)
    (make_events per_voice mode by_tick song_end tail_ticks).
Proof.
  unfold make_events.
  destruct (timeline_cases per_voice mode by_tick song_end tail_ticks)
    as [[_ ->]|Hticks].
  { simpl. unfold drop_inert_tail; simpl.
    destruct (inert _) eqn:Hinert; [constructor|].
    constructor; [done|constructor]. }
  pose proof (timeline_sorted per_voice mode by_tick song_end tail_ticks) as Hs.
  assert (Hrows : Forall (λ r, inert r = false)
            (make_rows per_voice mode by_tick 0
               (timeline per_voice mode by_tick song_end tail_ticks))).
  { destruct (timeline _ _ _ _ _) as [|t0 rest]; [constructor|].
    apply StronglySorted_inv in Hs as [Hs Ht0]. simpl. constructor.
    - destruct (Z.lt_ge_cases 0 t0) as [Hpos|Hneg].
      { apply inert_false_wait. simpl. lia. }
      assert (Hin : t0 ∈ t0 :: rest) by left.
      apply Hticks, elem_of_all_ticks in Hin
        as [(onsets & Hin & Hsome)|[(_ & ? & _)|[? ?]]]; [|lia|lia].
      unfold inert; simpl. rewrite (slots_not_inert per_voice t0 onsets) by done.
      by rewrite andb_false_r.
    - eapply Forall_impl; [by apply make_rows_positive|].
      intros r. apply inert_false_wait. }
  unfold drop_inert_tail. destruct (last _) as [l|]; [|done].
  destruct (inert l); [by apply Forall_removelast|done].
Qed.

(** The tick the encoder's loop computes for each row (lines 513-514):
    the previous tick plus the row's wait. *)
Fixpoint row_ticks (prev_tick : Z) (events : list row) : list Z :=
  match events with
  | [] => []
  | event :: events' =>
      let tick := prev_tick + wait_ticks event in
      tick :: row_ticks tick events'
  end.

Lemma row_ticks_make_rows (per_voice : list (gmap Z NoteEvent)) (mode : tempo_mode)
    (by_tick : gmap Z Z) (prev : Z) (ticks : list Z) :
  StronglySorted Z.lt ticks → Forall (Z.le prev) ticks →
  row_ticks prev (make_rows per_voice mode by_tick prev ticks) = ticks.
Proof.
  intros Hs. revert prev. induction Hs as [|t0 ticks Hs IH Ht0]; intros prev Hprev;
    simpl; [done|].
  apply Forall_cons_1 in Hprev as [Hp0 Hprev].
  replace (prev + Z.max 0 (t0 - prev)) with t0 by lia.
  f_equal. apply IH. eapply Forall_impl; [exact Ht0|]. simpl. lia.
Qed.

Lemma row_ticks_take (prev : Z) (rows : list row) (k : nat) :
  row_ticks prev (take k rows) = take k (row_ticks prev rows).
Proof.
  revert prev k. induction rows as [|r rows IH]; intros prev [|k]; simpl; try done.
  by rewrite IH.
Qed.

Lemma row_ticks_length (prev : Z) (rows : list row) :
  length (row_ticks prev rows) = length rows.
Proof. revert prev. induction rows as [|r rows IH]; intros prev; simpl; auto. Qed.

Lemma removelast_take {A} (l : list A) : removelast l = take (length l - 1) l.
Proof.
  induction l as [|x l IH]; simpl; [done|].
  destruct l as [|y l]; [done|]. rewrite IH. simpl.
  by rewrite Nat.sub_0_r.
Qed.

Lemma drop_inert_tail_take (rows : list row) :
  drop_inert_tail rows = take (length (drop_inert_tail rows)) rows.
Proof.
  unfold drop_inert_tail. destruct (last rows) as [l|]; [|by rewrite take_ge].
  destruct (inert l); [|by rewrite take_ge].
  rewrite removelast_take at 1. f_equal. rewrite removelast_take, length_take. lia.
Qed.

Lemma select_entry (notes : list NoteEvent) (chan : Z) (policy : chord_policy)
    (t : Z) (w : NoteEvent) :
  select_monophonic_onsets notes chan policy !! t = Some w →
  w ∈ notes ∧ start_tick w = t.
Proof.
  rewrite select_lookup.
  pose proof (elem_of_candidates notes chan t) as Hin.
  destruct (filter (onset_at chan t) (sorted onset_leb notes)) as [|c rest];
    simpl; [done|].
  assert (Hw : ∃ w', foldl (pick_step policy) (Some c) rest = Some w'
                     ∧ w' ∈ c :: rest).
  { destruct policy.
    - destruct (pick_high rest c) as (w' & -> & Hw & _). exists w'.
      split; [done|]. destruct Hw as [->|?]; [left|by right].
    - destruct (pick_low rest c) as (w' & -> & Hw & _). exists w'.
      split; [done|]. destruct Hw as [->|?]; [left|by right].
    - rewrite pick_first. exists c. split; [done|left]. }
  destruct Hw as (w' & -> & Hw). intros [= <-].
  apply Hin in Hw as [[_ ?] ?]. done.
Qed.

(** X18. For a decoded song, the ticks the encoder adds up from the waits
    are the scheduled ticks themselves: no wait is clamped, so the running
    tick of each row is the tick of the timeline it was made for. *)
Theorem row_ticks_are_timeline (data : list byte) (song : MidiSong)
    (voices : nat) (voice_channels : list Z) (policy : chord_policy)
    (mode : tempo_mode) (by_tick : gmap Z Z) (tail_ticks : Z) :
  parse_midi data = Ok song →
  let per_voice := onsets_per_voice song voices voice_channels policy in
  let events := make_events per_voice mode by_tick (song_end_tick song) tail_ticks in
  row_ticks 0 events
  = take (length events)
      (timeline per_voice mode by_tick (song_end_tick song) tail_ticks).
Proof.
  intros (header_len & track_count & seen & _ & Htracks & _)%parse_midi_inv
    per_voice events.
  apply parse_tracks_ok in Htracks as (_ & Hnotes & _ & _);
    [|lia|constructor|constructor|split; simpl; [lia|exists 2; split; [lia|done]]].
  set (ticks := timeline per_voice mode by_tick (song_end_tick song) tail_ticks).
  assert (Hnonneg : Forall (Z.le 0) ticks).
  { apply Forall_forall. intros t Ht. unfold ticks in Ht.
    destruct (timeline_cases per_voice mode by_tick (song_end_tick song) tail_ticks)
      as [[_ Heq]|Hticks].
    { rewrite Heq in Ht. apply list_elem_of_singleton in Ht as ->. lia. }
    apply Hticks, elem_of_all_ticks in Ht
      as [(onsets & Hin & [w Hw])|[(_ & ? & _)|[? ?]]]; [|lia|lia].
    unfold per_voice, onsets_per_voice in Hin.
    apply list_elem_of_fmap in Hin as (chan & -> & _).
    apply select_entry in Hw as [Hw <-].
    rewrite Forall_forall in Hnotes. apply Hnotes in Hw. unfold note_ok in Hw. lia. }
  unfold events, make_events. rewrite drop_inert_tail_take at 1.
  rewrite row_ticks_take, row_ticks_make_rows;
    [done|apply timeline_sorted|done].
Qed.

Lemma row_ticks_are_timeline_witness :
  parse_midi two_note_file = Ok two_note_song
  ∧ row_ticks 0
      (make_events (onsets_per_voice two_note_song 1 [0] High) FixedTempo
         (tempo_dict (tempos two_note_song)) (song_end_tick two_note_song) 0)
    = take (length
              (make_events (onsets_per_voice two_note_song 1 [0] High) FixedTempo
                 (tempo_dict (tempos two_note_song)) (song_end_tick two_note_song) 0))
        (timeline (onsets_per_voice two_note_song 1 [0] High) FixedTempo
           (tempo_dict (tempos two_note_song)) (song_end_tick two_note_song) 0).
Proof.
  split; [by vm_compute|].
  apply (row_ticks_are_timeline two_note_file two_note_song 1 [0] High FixedTempo
           (tempo_dict (tempos two_note_song)) 0).
  by vm_compute.
Defined.

Lemma data_step_prev_tick ticks_per_bar max_line_len st event st' :
  data_step ticks_per_bar max_line_len st event = Ok st' →
  d_prev_tick st' = d_prev_tick st + wait_ticks event.
Proof.
  unfold data_step.
  destruct (d_current_measure st * ticks_per_bar <=? _);
    [destruct (ticks_per_bar =? 0); simpl; [done|]|simpl].
  all: destruct (max_line_len <? _).
  all: destruct (d_chunk st); try done.
  all: by intros [= <-].
Qed.

Lemma check_lengths_ok (max_line_len : Z) (lines : list line) :
  check_lengths max_line_len lines = Ok () →
  Forall (λ l, slen (render l) ≤ max_line_len) lines.
Proof.
  unfold check_lengths.
  induction lines as [|l lines IH] using rev_ind; [constructor|].
  rewrite foldl_app; simpl.
  destruct (foldl _ _ lines) as [[]|]; simpl; [|done].
  destruct (Z.ltb_spec max_line_len (slen (render l))); [done|].
  intros _. apply Forall_app. split; [by apply IH|].
  constructor; [done|constructor].
Qed.

(** X19. No line of a program that [emit_basic] returns, rendered as text,
    is longer than the maximum line length. *)
Theorem emitted_lines_fit (song : MidiSong) (input_label title : string)
    (voices : nat) (voice_channels : list Z) (policy : chord_policy)
    (mode : tempo_mode) (bpm_override : option Z)
    (volume tail_ticks max_line_len : Z) (lines : list line) :
  emit_basic_lines song input_label title voices voice_channels policy mode
    bpm_override volume tail_ticks max_line_len = Ok lines →
  Forall (λ l, slen (render l) ≤ max_line_len) lines.
Proof.
  intros (by_tick & _ & _ & Hcheck)%emit_basic_lines_rows.
  by apply check_lengths_ok.
Qed.

Lemma emitted_lines_fit_witness :
  ∃ lines,
    emit_basic_lines two_note_song "two_note.mid" "SCORE PLAYER" 1 [0]
      High FixedTempo None 12 0 53 = Ok lines
    ∧ Forall (λ l, slen (render l) ≤ 53) lines.
Proof.
  eexists. split; [vm_compute; reflexivity|].
  eapply (emitted_lines_fit two_note_song "two_note.mid" "SCORE PLAYER" 1 [0]
            High FixedTempo None 12 0 53). vm_compute. reflexivity.
Defined.

(** X20. With a ticks-per-bar value of 0 the encoder cannot place the
    first row in a measure: whenever there is a row to encode, the loop
    over the rows raises [ZeroDivisionError]. *)
Theorem zero_ticks_per_bar_raises (lines : list line) (events : list row)
    (voices : nat) (max_line_len : Z) :
  events ≠ [] → Forall (λ r, 0 ≤ wait_ticks r) events →
  data_lines lines events voices 0 max_line_len = Raise ZeroDivisionError.
Proof.
  intros Hne Hwait. unfold data_lines.
  destruct events as [|event events]; [done|]. simpl.
  apply Forall_cons_1 in Hwait as [Hw _].
  unfold data_step at 2. simpl.
  destruct (Z.leb_spec (1 * 0) (0 + wait_ticks event)); [|lia]. simpl.
  by rewrite foldl_raise.
Qed.

(** A file of resolution 1 whose time signature is 1/8: half a tick per
    bar, which rounds to 0. *)
Definition eighth_bar_file : list byte := bytes
  [ 77; 84; 104; 100; 0; 0; 0; 6; 0; 0; 0; 1; 0; 1;
    77; 84; 114; 107; 0; 0; 0; 16;
    0; 255; 88; 4; 1; 3; 24; 8;
    0; 144; 60; 100;
    4; 128; 60; 0 ].

Lemma zero_ticks_per_bar_raises_witness :
  ∃ song,
    parse_midi eighth_bar_file = Ok song
    ∧ round_half_even (ppqn song * 4 * numerator (time_signature song))
        (denominator (time_signature song)) = 0
    ∧ emit_basic_lines song "eighth.mid" "SCORE PLAYER" 1 [0] High FixedTempo
        None 12 0 68 = Raise ZeroDivisionError
    ∧ (make_events (onsets_per_voice song 1 [0] High) FixedTempo
         (tempo_dict (tempos song)) (song_end_tick song) 0 ≠ []
       ∧ Forall (λ r, 0 ≤ wait_ticks r)
           (make_events (onsets_per_voice song 1 [0] High) FixedTempo
              (tempo_dict (tempos song)) (song_end_tick song) 0))
    ∧ data_lines []
        (make_events (onsets_per_voice song 1 [0] High) FixedTempo
           (tempo_dict (tempos song)) (song_end_tick song) 0) 1 0 68
      = Raise ZeroDivisionError.
Proof.
  eexists. split; [vm_compute; reflexivity|].
  split; [by vm_compute|]. split; [by vm_compute|].
  assert (Hne : make_events
                  (onsets_per_voice (mkSong 1 [mkNote 0 4 0 60 100] [mkTempo 0 120]
                                       (mkTimeSig 1 8) 4) 1 [0] High)
                  FixedTempo (tempo_dict [mkTempo 0 120]) 4 0 ≠ [])
    by by vm_compute.
  split; [split; [exact Hne|apply make_events_wait]|].
  apply zero_ticks_per_bar_raises; [exact Hne|apply make_events_wait].
Defined.

(** ** Line numbers *)

Definition line_number (l : line) : Z :=
  match l with
  | Stmt line_no _ => line_no
  | Data line_no _ => line_no
  end.

(** A listing whose lines are numbered 10, 20, ... and whose next number
    follows on. *)
Definition listing_ok (out : listing) : Prop :=
  out.2 = 10 + 10 * len out.1
  ∧ StronglySorted Z.lt (line_number <$> out.1)
  ∧ Forall (λ l, line_number l < out.2) out.1.

Lemma StronglySorted_snoc {A} (R : A → A → Prop) (l : list A) (x : A) :
  StronglySorted R l → Forall (λ y, R y x) l → StronglySorted R (l ++ [x]).
Proof.
  induction 1 as [|y l Hl IH Hy]; intros Hx; simpl.
  - repeat constructor.
  - apply Forall_cons_1 in Hx as [Hyx Hx].
    constructor; [by apply IH|]. apply Forall_app. split; [done|].
    constructor; [done|constructor].
Qed.

Lemma numbers_snoc (lines : list line) (l : line) (next : Z) :
  StronglySorted Z.lt (line_number <$> lines) →
  Forall (λ l', line_number l' < next) lines →
  line_number l = next →
  StronglySorted Z.lt (line_number <$> (lines ++ [l]))
  ∧ Forall (λ l', line_number l' < next + 10) (lines ++ [l]).
Proof.
  intros Hs Hlt Hl. split.
  - rewrite fmap_app. apply StronglySorted_snoc; [done|].
    apply Forall_fmap. eapply Forall_impl; [exact Hlt|]. simpl. lia.
  - apply Forall_app. split.
    + eapply Forall_impl; [exact Hlt|]. simpl. lia.
    + constructor; [lia|constructor].
Qed.

Lemma put_ok (text : string) (out : listing) :
  listing_ok out → listing_ok (put text out) ∧ len (put text out).1 = len out.1 + 1.
Proof.
  intros (Hnext & Hs & Hlt). unfold put, listing_ok; simpl.
  destruct (numbers_snoc out.1 (Stmt out.2 text) out.2 Hs Hlt eq_refl) as [? ?].
  unfold len in *. rewrite length_app; simpl. split_and!; try done; lia.
Qed.

Lemma put_elem (text : string) (out : listing) (l : line) :
  l ∈ out.1 → l ∈ (put text out).1.
Proof. intros Hl. unfold put; simpl. apply elem_of_app. by left. Qed.

Lemma put4_ok (t1 t2 t3 t4 : string) (out : listing) :
  listing_ok out →
  listing_ok (put t4 (put t3 (put t2 (put t1 out))))
  ∧ len (put t4 (put t3 (put t2 (put t1 out)))).1 = len out.1 + 4.
Proof.
  intros Hok.
  destruct (put_ok t1 _ Hok) as [H1 L1]. destruct (put_ok t2 _ H1) as [H2 L2].
  destruct (put_ok t3 _ H2) as [H3 L3]. destruct (put_ok t4 _ H3) as [H4 L4].
  split; [done|lia].
Qed.

Lemma sound_fold_ok (vs : list Z) (out : listing) :
  listing_ok out →
  let out' :=
    foldl (λ out v,
      let skip_line := out.2 + 40 in
      let out := put ("IF F" +:+ str v +:+ "=0 THEN " +:+ str skip_line) out in
      let out := put ("L=INT(D" +:+ str v +:+ "*SC+0.5)") out in
      let out := put "IF L<1 THEN L=1" out in
      put ("SOUND " +:+ str v +:+ ",F" +:+ str v +:+ ",L") out) out vs in
  listing_ok out' ∧ len out'.1 = len out.1 + 4 * len vs
  ∧ ∀ l, l ∈ out.1 → l ∈ out'.1.
Proof.
  revert out. induction vs as [|v vs IH]; intros out Hok; simpl.
  - split_and!; [done|unfold len; simpl; lia|done].
  - match goal with
    | |- context [foldl _ ?o vs] => set (out1 := o)
    end.
    assert (listing_ok out1 ∧ len out1.1 = len out.1 + 4) as [Hok1 Hlen1]
      by (by apply put4_ok).
    destruct (IH out1 Hok1) as (Hok' & Hlen' & Helem).
    split_and!; [done|unfold len in *; simpl; lia|].
    intros l Hl. apply Helem. unfold out1. by do 4 apply put_elem.
Qed.

Lemma sound_lines_ok (voices : nat) (out : listing) :
  listing_ok out →
  listing_ok (sound_lines voices out)
  ∧ len (sound_lines voices out).1 = len out.1 + 4 * Z.of_nat voices
  ∧ ∀ l, l ∈ out.1 → l ∈ (sound_lines voices out).1.
Proof.
  intros Hok. destruct (sound_fold_ok (seqZ 0 (Z.of_nat voices)) out Hok)
    as (Hok' & Hlen & Helem).
  split_and!; [exact Hok'| |exact Helem].
  etransitivity; [exact Hlen|]. unfold len. rewrite length_seqZ. lia.
Qed.

Lemma envelope_fold_ok (vs : list Z) (out out' : listing) :
  listing_ok out →
  foldl (λ acc v,
      out ← acc;
      match DEFAULT_VOICES !! Z.to_nat v with
      | None => Raise IndexError
      | Some vc =>
          Ok (put ("ENVELOPE " +:+ str v +:+ "," +:+ str (attack vc) +:+ ","
                   +:+ str (decay vc) +:+ "," +:+ str (sustain vc) +:+ ","
                   +:+ str (release vc) +:+ ":WAVE " +:+ str v +:+ ","
                   +:+ str (wave vc)) out)
      end) (Ok out) vs = Ok out' →
  listing_ok out' ∧ len out'.1 = len out.1 + len vs
  ∧ Forall (λ v, (Z.to_nat v < 4)%nat) vs
  ∧ ∀ l, l ∈ out.1 → l ∈ out'.1.
Proof.
  revert out. induction vs as [|v vs IH]; intros out Hok; simpl.
  - intros [= <-]. split_and!; [done|unfold len; simpl; lia|constructor|done].
  - destruct (DEFAULT_VOICES !! Z.to_nat v) as [vc|] eqn:Hvc; simpl.
    + intros H. destruct (put_ok
        ("ENVELOPE " +:+ str v +:+ "," +:+ str (attack vc) +:+ ","
         +:+ str (decay vc) +:+ "," +:+ str (sustain vc) +:+ ","
         +:+ str (release vc) +:+ ":WAVE " +:+ str v +:+ ","
         +:+ str (wave vc)) out Hok) as [Hok1 Hlen1].
      destruct (IH _ Hok1 H) as (Hok' & Hlen' & Hvs & Helem).
      split_and!; [done|unfold len in *; simpl; lia| |].
      * constructor; [|done]. by apply lookup_lt_Some in Hvc.
      * intros l Hl. by apply Helem, put_elem.
    + by rewrite foldl_raise.
Qed.

Lemma envelope_lines_ok (voices : nat) (out out' : listing) :
  listing_ok out → envelope_lines voices out = Ok out' →
  listing_ok out' ∧ len out'.1 = len out.1 + Z.of_nat voices
  ∧ (voices ≤ 4)%nat
  ∧ ∀ l, l ∈ out.1 → l ∈ out'.1.
Proof.
  intros Hok H. unfold envelope_lines in H.
  destruct (envelope_fold_ok _ _ _ Hok H) as (Hok' & Hlen & Hvs & Helem).
  split_and!; [done| | |done].
  - rewrite Hlen. unfold len. rewrite length_seqZ. lia.
  - destruct (Nat.le_gt_cases voices 4) as [|Hbig]; [done|].
    rewrite Forall_seqZ in Hvs. specialize (Hvs 4 ltac:(lia)). simpl in Hvs. lia.
Qed.

Ltac step_put :=
  match goal with
  | H : listing_ok ?o |- context [put ?t ?o] =>
      lazymatch goal with
      | _ : listing_ok (put t o) |- _ => fail
      | _ =>
          let H1 := fresh "Hok" in
          let H2 := fresh "Hlen" in
          destruct (put_ok t o H) as [H1 H2]
      end
  end.

Definition tempo_line : string := "IF T>0 THEN BPM=T*SCALE/100:SC=3600/(BPM*PP)".

Lemma put_new (text : string) (out : listing) : Stmt out.2 text ∈ (put text out).1.
Proof. unfold put; simpl. apply elem_of_app. right. left. Qed.

(** The numbering of the lines before the data rows, and the places of the
    statements that jump or are jumped to. *)
Lemma program_lines_numbers song input_label title voices voice_channels
    policy bpm0 volume ticks_per_bar ticks_per_beat lines :
  program_lines song input_label title voices voice_channels policy bpm0 volume
    ticks_per_bar ticks_per_beat = Ok lines →
  (voices ≤ 4)%nat
  ∧ StronglySorted Z.lt (line_number <$> lines)
  ∧ Forall (λ l, line_number l ≤ 370 ∨ line_number l = 2000) lines
  ∧ Stmt (150 + 10 * Z.of_nat voices) tempo_line ∈ lines
  ∧ Stmt (80 + 10 * Z.of_nat voices) "RESTORE 2000" ∈ lines
  ∧ (∃ vars, Stmt (90 + 10 * Z.of_nat voices) ("READ " +:+ vars) ∈ lines)
  ∧ Stmt (100 + 10 * Z.of_nat voices) "IF W<0 THEN 900" ∈ lines
  ∧ Stmt (160 + 50 * Z.of_nat voices)
      ("GOTO " +:+ str (90 + 10 * Z.of_nat voices)) ∈ lines
  ∧ (∃ text, Stmt 2000 text ∈ lines).
Proof.
  unfold program_lines. cbv zeta.
  assert (H0 : listing_ok ([], 10)).
  { unfold listing_ok; simpl. split_and!; [done|constructor|constructor]. }
  repeat step_put.
  match goal with
  | |- context [envelope_lines ?v ?o] =>
      destruct (envelope_lines v o) as [oe|] eqn:Henv;
        cbv beta iota delta [mbind result_bind]; [|done]
  end.
  apply envelope_lines_ok in Henv as (Hoke & Hlene & Hvoices & _); [|done].
  intros H.
  match type of H with
  | Ok ?l = Ok _ => assert (Hl : lines = l) by (by injection H)
  end.
  clear H. subst lines.
  repeat step_put.
  match goal with
  | |- context [sound_lines voices ?o] =>
      match goal with
      | H : listing_ok o |- _ =>
          destruct (sound_lines_ok voices o H) as (Hoks & Hlens & Helems)
      end
  end.
  repeat step_put.
  match goal with
  | |- context [put "RESTORE 2000" ?x] => set (P := x) in *
  end.
  match goal with
  | |- context [put "IF W<0 THEN 900" (put ("READ " +:+ ?t) ?x)] =>
      set (vars := t) in *; set (L := x) in *;
      set (R := put ("READ " +:+ vars) L) in *
  end.
  match goal with
  | |- context [put "IF T>0 THEN BPM=T*SCALE/100:SC=3600/(BPM*PP)" ?x] =>
      set (X := x) in *
  end.
  match goal with
  | |- context [put ?t (sound_lines voices ?o)] =>
      set (S := sound_lines voices o) in *; set (G := put t S) in *
  end.
  assert (HP : P.2 = 80 + 10 * Z.of_nat voices).
  { match goal with H : listing_ok P |- _ => destruct H as (-> & _) end.
    unfold len in *; simpl in *. lia. }
  assert (HL : L.2 = 90 + 10 * Z.of_nat voices).
  { match goal with H : listing_ok L |- _ => destruct H as (-> & _) end.
    unfold len in *; simpl in *. lia. }
  assert (HR : R.2 = 100 + 10 * Z.of_nat voices).
  { match goal with H : listing_ok R |- _ => destruct H as (-> & _) end.
    unfold len in *; simpl in *. lia. }
  assert (HX : X.2 = 150 + 10 * Z.of_nat voices).
  { match goal with H : listing_ok X |- _ => destruct H as (-> & _) end.
    unfold len in *; simpl in *. lia. }
  assert (HS : S.2 = 160 + 50 * Z.of_nat voices).
  { destruct Hoks as (-> & _). unfold len in *; simpl in *. lia. }
  assert (HG : G.2 ≤ 370).
  { match goal with H : listing_ok G |- _ => destruct H as (-> & _) end.
    unfold len in *; simpl in *. lia. }
  assert (Hin : Stmt X.2 tempo_line ∈ G.1
                ∧ Stmt P.2 "RESTORE 2000" ∈ G.1
                ∧ Stmt L.2 ("READ " +:+ vars) ∈ G.1
                ∧ Stmt R.2 "IF W<0 THEN 900" ∈ G.1
                ∧ Stmt S.2 ("GOTO " +:+ str L.2) ∈ G.1).
  { split_and!.
    - apply put_elem, Helems, put_new.
    - apply put_elem, Helems, put_elem. unfold X. do 5 apply put_elem.
      unfold R. apply put_elem. unfold L. apply put_new.
    - apply put_elem, Helems, put_elem. unfold X. do 5 apply put_elem.
      unfold R. apply put_new.
    - apply put_elem, Helems, put_elem. unfold X. do 4 apply put_elem.
      apply put_new.
    - apply put_new. }
  rewrite HX, HP, HL, HR, HS in Hin.
  destruct Hin as (Hin1 & Hin2 & Hin3 & Hin4 & Hin5).
  match goal with H : listing_ok G |- _ => destruct H as (_ & Hs & Hlt) end.
  clearbody G vars. clear -Hvoices HG Hs Hlt Hin1 Hin2 Hin3 Hin4 Hin5.
  destruct (numbers_snoc G.1 (Stmt G.2 "END") G.2 Hs Hlt eq_refl) as [Hs1 Hlt1].
  destruct (numbers_snoc (G.1 ++ [Stmt G.2 "END"])
              (Stmt 2000 ("REM M1 TICKS/BAR=" +:+ str ticks_per_bar
                          +:+ " TICKS/BEAT=" +:+ str ticks_per_beat
                          +:+ " POLICY=" +:+ upper policy)) 2000 Hs1) as [Hs2 _];
    [eapply Forall_impl; [exact Hlt1|]; intros l Hl; simpl in Hl; lia|done|].
  assert (Hfront : ∀ l, l ∈ G.1 → l ∈ (G.1 ++ [Stmt G.2 "END"])
                     ++ [Stmt 2000 ("REM M1 TICKS/BAR=" +:+ str ticks_per_bar
                                    +:+ " TICKS/BEAT=" +:+ str ticks_per_beat
                                    +:+ " POLICY=" +:+ upper policy)]).
  { intros l Hl. apply elem_of_app. left. apply elem_of_app. by left. }
  split_and!.
  - done.
  - exact Hs2.
  - apply Forall_app. split; [apply Forall_app; split|by repeat constructor].
    + eapply Forall_impl; [exact Hlt|]. intros l Hl; simpl in Hl. lia.
    + constructor; [simpl; lia|constructor].
  - by apply Hfront.
  - by apply Hfront.
  - exists vars. by apply Hfront.
  - by apply Hfront.
  - by apply Hfront.
  - eexists. apply elem_of_app. right. left.
Qed.

Definition data_ok (st : data_state) : Prop :=
  StronglySorted Z.lt (line_number <$> d_lines st)
  ∧ Forall (λ l, line_number l < d_data_line st) (d_lines st)
  ∧ 2010 ≤ d_data_line st.

(** The lines that one or more turns add: numbered from 2010 on. *)
Definition data_more (before after more : list line) : Prop :=
  after = before ++ more ∧ Forall (λ l, 2010 ≤ line_number l) more.

Lemma data_more_refl (lines : list line) : data_more lines lines [].
Proof. split; [by rewrite app_nil_r|constructor]. Qed.

Lemma data_more_trans (l1 l2 l3 m1 m2 : list line) :
  data_more l1 l2 m1 → data_more l2 l3 m2 → data_more l1 l3 (m1 ++ m2).
Proof.
  intros [-> H1] [-> H2]. split; [by rewrite app_assoc|].
  apply Forall_app. by split.
Qed.

Lemma data_step_ok ticks_per_bar max_line_len st event st' :
  data_ok st →
  data_step ticks_per_bar max_line_len st event = Ok st' →
  data_ok st' ∧ ∃ more, data_more (d_lines st) (d_lines st') more.
Proof.
  intros (Hs & Hlt & Hge). unfold data_step.
  set (rem := Stmt (d_data_line st) ("REM M" +:+ str (d_current_measure st + 1))).
  destruct (numbers_snoc (d_lines st) rem (d_data_line st) Hs Hlt eq_refl)
    as [Hs1 Hlt1].
  destruct (d_current_measure st * ticks_per_bar <=? _);
    [destruct (ticks_per_bar =? 0); simpl; [done|]|simpl].
  all: destruct (max_line_len <? _).
  all: destruct (d_chunk st) as [|r chunk] eqn:Hc; try done.
  all: intros [= <-]; unfold data_ok, data_more; simpl.
  - destruct (numbers_snoc _ (Data (d_data_line st + 10) (r :: chunk))
                (d_data_line st + 10) Hs1 Hlt1 eq_refl) as [Hs2 Hlt2].
    split; [split_and!; [done..|lia]|].
    exists [rem; Data (d_data_line st + 10) (r :: chunk)].
    split; [by rewrite <-app_assoc|].
    repeat constructor; simpl; lia.
  - split; [split_and!; [done..|lia]|]. exists [rem].
    split; [done|]. repeat constructor; simpl; lia.
  - split; [split_and!; [done..|lia]|]. exists [rem].
    split; [done|]. repeat constructor; simpl; lia.
  - destruct (numbers_snoc _ (Data (d_data_line st) (r :: chunk))
                (d_data_line st) Hs Hlt eq_refl) as [Hs2 Hlt2].
    split; [split_and!; [done..|lia]|]. eexists.
    split; [done|]. repeat constructor; simpl; lia.
  - split; [done|]. exists []. split; [by rewrite app_nil_r|constructor].
  - split; [done|]. exists []. split; [by rewrite app_nil_r|constructor].
Qed.

Lemma data_loop_ok ticks_per_bar max_line_len events st st' :
  data_ok st →
  foldl (λ acc event, st ← acc; data_step ticks_per_bar max_line_len st event)
    (Ok st) events = Ok st' →
  data_ok st' ∧ ∃ more, data_more (d_lines st) (d_lines st') more.
Proof.
  revert st. induction events as [|event events IH]; intros st Hok; simpl.
  - intros [= <-]. split; [done|]. exists []. apply data_more_refl.
  - destruct (data_step _ _ st event) as [st1|] eqn:Hstep; simpl.
    + intros H. apply data_step_ok in Hstep as [Hok1 [m1 Hm1]]; [|done].
      apply IH in H as [Hok' [m2 Hm2]]; [|done]. split; [done|].
      exists (m1 ++ m2). by eapply data_more_trans.
    + by rewrite foldl_raise.
Qed.

Lemma data_lines_numbers lines events voices ticks_per_bar max_line_len lines' :
  StronglySorted Z.lt (line_number <$> lines) →
  Forall (λ l, line_number l < 2010) lines →
  data_lines lines events voices ticks_per_bar max_line_len = Ok lines' →
  StronglySorted Z.lt (line_number <$> lines')
  ∧ ∃ more, data_more lines lines' more.
Proof.
  intros Hs Hlt. unfold data_lines.
  destruct (foldl _ _ _) as [st|] eqn:Hloop; simpl; [|done].
  apply data_loop_ok in Hloop as [(Hs' & Hlt' & Hge) [more Hmore]];
    [|by split_and!].
  simpl in Hmore.
  destruct (d_chunk st) as [|r chunk]; intros [= <-].
  - destruct (numbers_snoc _ (Data (d_data_line st) [sentinel voices])
                (d_data_line st) Hs' Hlt' eq_refl) as [Hs2 _].
    split; [done|]. eexists. eapply data_more_trans; [exact Hmore|].
    split; [done|]. repeat constructor; simpl; lia.
  - destruct (numbers_snoc _ (Data (d_data_line st) (r :: chunk))
                (d_data_line st) Hs' Hlt' eq_refl) as [Hs1 Hlt1].
    destruct (numbers_snoc _ (Data (d_data_line st + 10) [sentinel voices])
                (d_data_line st + 10) Hs1 Hlt1 eq_refl) as [Hs2 _].
    split; [done|]. eexists. eapply data_more_trans; [exact Hmore|].
    split; [by rewrite <-app_assoc|]. repeat constructor; simpl; lia.
Qed.

(** What the statements that jump, and the numbers of the lines, are in a
    program of [voices] voices. *)
Definition jumps_ok (voices : nat) (lines : list line) : Prop :=
  Stmt (80 + 10 * Z.of_nat voices) "RESTORE 2000" ∈ lines
  ∧ (∃ vars, Stmt (90 + 10 * Z.of_nat voices) ("READ " +:+ vars) ∈ lines)
  ∧ Stmt (100 + 10 * Z.of_nat voices) "IF W<0 THEN 900" ∈ lines
  ∧ Stmt (160 + 50 * Z.of_nat voices)
      ("GOTO " +:+ str (90 + 10 * Z.of_nat voices)) ∈ lines
  ∧ (∃ text, Stmt 2000 text ∈ lines)
  ∧ Forall (λ l, line_number l ≤ 370 ∨ 2000 ≤ line_number l) lines.

(** The program and data lines of a program that [emit_basic] returns. *)
Lemma emit_basic_lines_inv (song : MidiSong) (input_label title : string)
    (voices : nat) (voice_channels : list Z) (policy : chord_policy)
    (mode : tempo_mode) (bpm_override : option Z)
    (volume tail_ticks max_line_len : Z) (lines : list line) :
  emit_basic_lines song input_label title voices voice_channels policy mode
    bpm_override volume tail_ticks max_line_len = Ok lines →
  (voices ≤ 4)%nat
  ∧ StronglySorted Z.lt (line_number <$> lines)
  ∧ Stmt (150 + 10 * Z.of_nat voices) tempo_line ∈ lines
  ∧ Forall (λ l, slen (render l) ≤ max_line_len) lines
  ∧ jumps_ok voices lines.
Proof.
  unfold emit_basic_lines.
  destruct (tempo_by_tick song) as [by_tick|]; simpl; [|done].
  destruct (initial_bpm _ _) as [bpm0|]; simpl; [|done].
  destruct (denominator _ =? 0); [done|].
  destruct (program_lines _ _ _ _ _ _ _ _ _ _) as [head|] eqn:Hhead; simpl; [|done].
  destruct (data_lines _ _ _ _ _) as [all|] eqn:Hdata; simpl; [|done].
  destruct (check_lengths _ _) as [[]|] eqn:Hcheck; simpl; [|done].
  intros [= <-].
  apply program_lines_numbers in Hhead
    as (Hvoices & Hs & Hnum & Hin & Hre & [vars Hread] & Hexit & Hgoto & [text H2000]).
  apply data_lines_numbers in Hdata as [Hs' [more [-> Hmore]]]; [|done|].
  - assert (Hfront : ∀ l, l ∈ head → l ∈ head ++ more).
    { intros l Hl. apply elem_of_app. by left. }
    split_and!; [done|done|by apply Hfront|by apply check_lengths_ok|].
    unfold jumps_ok. split_and!.
    + by apply Hfront.
    + exists vars. by apply Hfront.
    + by apply Hfront.
    + by apply Hfront.
    + exists text. by apply Hfront.
    + apply Forall_app. split.
      * eapply Forall_impl; [exact Hnum|]. intros l Hl; simpl in Hl. lia.
      * eapply Forall_impl; [exact Hmore|]. intros l Hl; simpl in Hl. lia.
  - eapply Forall_impl; [exact Hnum|]. intros l Hl; simpl in Hl. lia.
Qed.

(** X21. The line numbers of a program that [emit_basic] returns are
    strictly ascending, and such a program has at most four voices. *)
Theorem emitted_line_numbers_ascending (song : MidiSong)
    (input_label title : string) (voices : nat) (voice_channels : list Z)
    (policy : chord_policy) (mode : tempo_mode) (bpm_override : option Z)
    (volume tail_ticks max_line_len : Z) (lines : list line) :
  emit_basic_lines song input_label title voices voice_channels policy mode
    bpm_override volume tail_ticks max_line_len = Ok lines →
  StronglySorted Z.lt (line_number <$> lines) ∧ (voices ≤ 4)%nat.
Proof. intros (? & ? & _)%emit_basic_lines_inv. done. Qed.

Lemma emitted_line_numbers_ascending_witness :
  ∃ lines,
    emit_basic_lines two_note_song "two_note.mid" "SCORE PLAYER" 1 [0]
      High TrackTempo None 12 0 53 = Ok lines
    ∧ StronglySorted Z.lt (line_number <$> lines) ∧ (1 ≤ 4)%nat.
Proof.
  eexists. split; [vm_compute; reflexivity|].
  eapply (emitted_line_numbers_ascending two_note_song "two_note.mid"
            "SCORE PLAYER" 1 [0] High TrackTempo None 12 0 53).
  vm_compute. reflexivity.
Defined.

Lemma tempo_line_width (voices : nat) :
  (voices ≤ 4)%nat →
  slen (render (Stmt (150 + 10 * Z.of_nat voices) tempo_line)) = 48.
Proof.
  intros Hvoices.
  destruct voices as [|[|[|[|[|]]]]]; try lia; vm_compute; reflexivity.
Qed.

(** X22. [emit_basic] returns a program only for a maximum line length of
    at least 48: the statement that applies a tempo row, with its
    three-digit line number, is 48 characters long whatever the song. *)
Theorem emit_basic_needs_48_columns (song : MidiSong)
    (input_label title : string) (voices : nat) (voice_channels : list Z)
    (policy : chord_policy) (mode : tempo_mode) (bpm_override : option Z)
    (volume tail_ticks max_line_len : Z) (lines : list line) :
  emit_basic_lines song input_label title voices voice_channels policy mode
    bpm_override volume tail_ticks max_line_len = Ok lines →
  48 ≤ max_line_len.
Proof.
  intros (Hvoices & _ & Hin & Hfit & _)%emit_basic_lines_inv.
  rewrite Forall_forall in Hfit. apply Hfit in Hin.
  by rewrite tempo_line_width in Hin.
Qed.

Lemma emit_basic_needs_48_columns_witness :
  ∃ lines,
    emit_basic_lines two_note_song "two_note.mid" "SCORE PLAYER" 1 [0]
      High FixedTempo None 12 0 53 = Ok lines
    ∧ 48 ≤ 53.
Proof.
  eexists. split; [vm_compute; reflexivity|].
  eapply (emit_basic_needs_48_columns two_note_song "two_note.mid"
            "SCORE PLAYER" 1 [0] High FixedTempo None 12 0 53).
  vm_compute. reflexivity.
Defined.

(** X23. A program that [emit_basic] returns always holds the statement
    [IF W<0 THEN 900], and none of its lines is numbered 900: every line
    number is at most 370 or at least 2000. *)
Theorem exit_jump_has_no_target (song : MidiSong)
    (input_label title : string) (voices : nat) (voice_channels : list Z)
    (policy : chord_policy) (mode : tempo_mode) (bpm_override : option Z)
    (volume tail_ticks max_line_len : Z) (lines : list line) :
  emit_basic_lines song input_label title voices voice_channels policy mode
    bpm_override volume tail_ticks max_line_len = Ok lines →
  Stmt (100 + 10 * Z.of_nat voices) "IF W<0 THEN 900" ∈ lines
  ∧ ∀ l, l ∈ lines →
      (line_number l ≤ 370 ∨ 2000 ≤ line_number l) ∧ line_number l ≠ 900.
Proof.
  intros (_ & _ & _ & _ & _ & _ & Hexit & _ & _ & Hnum)%emit_basic_lines_inv.
  split; [done|]. intros l Hl. rewrite Forall_forall in Hnum.
  apply Hnum in Hl. lia.
Qed.

Lemma exit_jump_has_no_target_witness :
  ∃ lines,
    emit_basic_lines two_note_song "two_note.mid" "SCORE PLAYER" 1 [0]
      High TrackTempo None 12 0 60 = Ok lines
    ∧ Stmt (100 + 10 * Z.of_nat 1) "IF W<0 THEN 900" ∈ lines
    ∧ ∀ l, l ∈ lines →
        (line_number l ≤ 370 ∨ 2000 ≤ line_number l) ∧ line_number l ≠ 900.
Proof.
  eexists. split; [vm_compute; reflexivity|].
  eapply (exit_jump_has_no_target two_note_song "two_note.mid"
            "SCORE PLAYER" 1 [0] High TrackTempo None 12 0 60).
  vm_compute. reflexivity.
Defined.

(** X24. In a program that [emit_basic] returns the other two jumps have
    their targets: the [GOTO] that closes the player loop names the line of
    the [READ] statement, and [RESTORE 2000] names line 2000, which is in
    the program. *)
Theorem loop_jumps_have_targets (song : MidiSong)
    (input_label title : string) (voices : nat) (voice_channels : list Z)
    (policy : chord_policy) (mode : tempo_mode) (bpm_override : option Z)
    (volume tail_ticks max_line_len : Z) (lines : list line) :
  emit_basic_lines song input_label title voices voice_channels policy mode
    bpm_override volume tail_ticks max_line_len = Ok lines →
  ∃ loop_line vars text,
    Stmt loop_line ("READ " +:+ vars) ∈ lines
    ∧ Stmt (160 + 50 * Z.of_nat voices) ("GOTO " +:+ str loop_line) ∈ lines
    ∧ Stmt (80 + 10 * Z.of_nat voices) "RESTORE 2000" ∈ lines
    ∧ Stmt 2000 text ∈ lines.
Proof.
  intros (_ & _ & _ & _ & Hre & [vars Hread] & _ & Hgoto & [text H2000] & _)
    %emit_basic_lines_inv.
  by exists (90 + 10 * Z.of_nat voices), vars, text.
Qed.

Lemma loop_jumps_have_targets_witness :
  ∃ lines,
    emit_basic_lines two_note_song "two_note.mid" "SCORE PLAYER" 1 [0]
      High TrackTempo None 12 0 60 = Ok lines
    ∧ ∃ loop_line vars text,
        Stmt loop_line ("READ " +:+ vars) ∈ lines
        ∧ Stmt (160 + 50 * Z.of_nat 1) ("GOTO " +:+ str loop_line) ∈ lines
        ∧ Stmt (80 + 10 * Z.of_nat 1) "RESTORE 2000" ∈ lines
        ∧ Stmt 2000 text ∈ lines.
Proof.
  eexists. split; [vm_compute; reflexivity|].
  eapply (loop_jumps_have_targets two_note_song "two_note.mid"
            "SCORE PLAYER" 1 [0] High TrackTempo None 12 0 60).
  vm_compute. reflexivity.
Defined.

(** X25. For a pitch from 0 to 127, [midi_note_to_freq]
    is the integer nearest to [440 * 2^((note - 69) / 12)] (compared on
    twelfth powers, the power of two on the side where its exponent is not
    negative), and lies between 8 and 12544. *)
Theorem pitch_frequency (note : Z) :
  0 ≤ note ≤ 127 →
  let f := midi_note_to_freq note in
  let up := Z.max 0 (note - 69) in
  let down := Z.max 0 (69 - note) in
  8 ≤ f ≤ 12544
  ∧ (2 * f - 1) ^ 12 * 2 ^ down ≤ 880 ^ 12 * 2 ^ up < (2 * f + 1) ^ 12 * 2 ^ down.
Proof.
  intros Hn f up down. split; [|apply midi_note_to_freq_nearest; lia].
  assert (Hall : Forall (λ n, 8 ≤ midi_note_to_freq n ≤ 12544) (seqZ 0 128)).
  { apply (bool_decide_unpack _). vm_compute. exact I. }
  rewrite Forall_forall in Hall. apply Hall, elem_of_seqZ. lia.
Qed.

Lemma pitch_frequency_witness :
  0 ≤ 60 ≤ 127
  ∧ let f := midi_note_to_freq 60 in
    let up := Z.max 0 (60 - 69) in
    let down := Z.max 0 (69 - 60) in
    8 ≤ f ≤ 12544
    ∧ (2 * f - 1) ^ 12 * 2 ^ down ≤ 880 ^ 12 * 2 ^ up
      < (2 * f + 1) ^ 12 * 2 ^ down.
Proof. split; [lia|apply (pitch_frequency 60); lia]. Defined.

(** ** The ways the encoder fails on a decoded song *)

Lemma foldl_min_elem (k : Z) (ks : list Z) : foldl Z.min k ks ∈ k :: ks.
Proof.
  revert k. induction ks as [|k' ks IH]; intros k; simpl; [left|].
  specialize (IH (Z.min k k')). apply elem_of_cons in IH as [->|IH].
  - destruct (Z.min_spec k k') as [[_ ->]|[_ ->]]; [left|right; left].
  - by do 2 right.
Qed.

Lemma at_min_key_total (d : gmap Z Z) :
  is_Some (d !! 0) → ∃ v, at_min_key d = Ok v.
Proof.
  intros H0. unfold at_min_key.
  destruct (elements (dom d)) as [|k ks] eqn:Hel.
  - apply elem_of_dom, elem_of_elements in H0. rewrite Hel in H0.
    by apply elem_of_nil in H0.
  - pose proof (foldl_min_elem k ks) as Hmin. rewrite <-Hel in Hmin.
    apply elem_of_elements, elem_of_dom in Hmin as [v ->]. by exists v.
Qed.

Lemma tempo_by_tick_total (song : MidiSong) :
  tempos song ≠ [] →
  ∃ by_tick, tempo_by_tick song = Ok by_tick ∧ is_Some (by_tick !! 0).
Proof.
  intros Hne. unfold tempo_by_tick.
  destruct (tempo_dict (tempos song) !! 0) as [b|] eqn:H0.
  - eexists. split; [done|]. by rewrite H0.
  - destruct (tempos song) as [|t ts]; [done|].
    eexists. split; [done|]. by rewrite lookup_insert_eq.
Qed.

Lemma envelope_fold_total (vs : list Z) (out : listing) :
  Forall (λ v, 0 ≤ v < 4) vs →
  ∃ out',
    foldl (λ acc v,
      out ← acc;
      match DEFAULT_VOICES !! Z.to_nat v with
      | None => Raise IndexError
      | Some vc =>
          Ok (put ("ENVELOPE " +:+ str v +:+ "," +:+ str (attack vc) +:+ ","
                   +:+ str (decay vc) +:+ "," +:+ str (sustain vc) +:+ ","
                   +:+ str (release vc) +:+ ":WAVE " +:+ str v +:+ ","
                   +:+ str (wave vc)) out)
      end) (Ok out) vs = Ok out'.
Proof.
  intros Hvs. revert out.
  induction Hvs as [|v vs Hv _ IH]; intros out; simpl; [by eexists|].
  destruct (lookup_lt_is_Some_2 DEFAULT_VOICES (Z.to_nat v)) as [vc ->];
    [simpl; lia|].
  simpl. apply IH.
Qed.

Lemma program_lines_total song input_label title voices voice_channels
    policy bpm0 volume ticks_per_bar ticks_per_beat :
  (voices ≤ 4)%nat →
  ∃ lines,
    program_lines song input_label title voices voice_channels policy bpm0 volume
      ticks_per_bar ticks_per_beat = Ok lines.
Proof.
  intros Hvoices. unfold program_lines. cbv zeta.
  match goal with
  | |- context [envelope_lines voices ?o] =>
      destruct (envelope_fold_total (seqZ 0 (Z.of_nat voices)) o) as [oe Henv]
  end.
  - apply Forall_seqZ. intros v Hv. lia.
  - unfold envelope_lines. rewrite Henv.
    cbv beta iota delta [mbind result_bind]. by eexists.
Qed.

(** What an exception of the encoder's last stage can be. *)
Definition encoder_failure (ticks_per_bar : Z) (e : exn) : Prop :=
  (e = ZeroDivisionError ∧ ticks_per_bar = 0) ∨ ∃ msg, e = RuntimeError msg.

Lemma data_step_raises ticks_per_bar max_line_len st event e :
  data_step ticks_per_bar max_line_len st event = Raise e →
  encoder_failure ticks_per_bar e.
Proof.
  unfold data_step, encoder_failure.
  destruct (d_current_measure st * ticks_per_bar <=? _);
    [destruct (Z.eqb_spec ticks_per_bar 0); simpl;
       [intros [= <-]; by left|]|simpl].
  all: destruct (max_line_len <? _); [|done].
  all: destruct (d_chunk st); [|done].
  all: intros [= <-]; right; by eexists.
Qed.

Lemma data_lines_raises lines events voices ticks_per_bar max_line_len e :
  data_lines lines events voices ticks_per_bar max_line_len = Raise e →
  encoder_failure ticks_per_bar e.
Proof.
  unfold data_lines. generalize (mkData lines 2010 [] 1 0).
  induction events as [|event events IH]; intros st; simpl.
  - by destruct (d_chunk st).
  - destruct (data_step ticks_per_bar max_line_len st event) as [st1|e1] eqn:Hstep.
    + apply IH.
    + rewrite foldl_raise by done. simpl. intros [= <-].
      by eapply data_step_raises.
Qed.

Lemma check_lengths_raises (max_line_len : Z) (lines : list line) (e : exn) :
  check_lengths max_line_len lines = Raise e → ∃ msg, e = RuntimeError msg.
Proof.
  unfold check_lengths. generalize tt.
  induction lines as [|l lines IH]; intros u; simpl; [done|].
  destruct (max_line_len <? slen (render l)).
  - rewrite foldl_raise by done. intros [= <-]. by eexists.
  - apply IH.
Qed.

(** X26. On a decoded song and with at most four voices, [emit_basic] can
    fail in two ways only: with [ZeroDivisionError], and then the ticks per
    bar round to 0, or with the [RuntimeError] of a line that is too long.
    The tempo lookups, the division by the denominator and the envelope
    table never fail. *)
Theorem decoded_song_failures (data : list byte) (song : MidiSong)
    (input_label title : string) (voices : nat) (voice_channels : list Z)
    (policy : chord_policy) (mode : tempo_mode) (bpm_override : option Z)
    (volume tail_ticks max_line_len : Z) (e : exn) :
  parse_midi data = Ok song →
  (voices ≤ 4)%nat →
  emit_basic_lines song input_label title voices voice_channels policy mode
    bpm_override volume tail_ticks max_line_len = Raise e →
  (e = ZeroDivisionError
   ∧ round_half_even (ppqn song * 4 * numerator (time_signature song))
       (denominator (time_signature song)) = 0)
  ∨ ∃ msg, e = RuntimeError msg.
Proof.
  intros (header_len & track_count & seen & _ & Htracks & Htempos)%parse_midi_inv
    Hvoices.
  apply parse_tracks_ok in Htracks as (_ & _ & _ & _ & k & Hk & Hden);
    [|lia|constructor|constructor|].
  2: { split; simpl; [lia|]. exists 2. split; [lia|done]. }
  unfold emit_basic_lines.
  destruct (tempo_by_tick_total song) as (by_tick & -> & H0).
  { rewrite Htempos. apply finish_tempos_nonempty. }
  simpl.
  assert (∃ bpm0, initial_bpm bpm_override by_tick = Ok bpm0) as [bpm0 ->].
  { unfold initial_bpm. destruct bpm_override as [bpm|]; simpl; [by eexists|].
    destruct (at_min_key_total by_tick H0) as [v ->]. by eexists. }
  simpl.
  destruct (Z.eqb_spec (denominator (time_signature song)) 0) as [Hzero|_].
  { pose proof (Z.pow_pos_nonneg 2 k). lia. }
  match goal with
  | |- context [program_lines ?a ?b ?c ?d ?f ?g ?h ?i ?j ?l] =>
      destruct (program_lines_total a b c d f g h i j l Hvoices) as [head ->]
  end.
  simpl.
  destruct (data_lines _ _ _ _ _) as [all|e1] eqn:Hdata; simpl.
  - destruct (check_lengths _ _) as [[]|e2] eqn:Hcheck; simpl; [done|].
    intros [= <-]. right. by eapply check_lengths_raises.
  - intros [= <-]. by apply data_lines_raises in Hdata.
Qed.

Lemma decoded_song_failures_witness :
  ∃ song,
    parse_midi eighth_bar_file = Ok song
    ∧ (1 ≤ 4)%nat
    ∧ emit_basic_lines song "eighth.mid" "SCORE PLAYER" 1 [0] High TrackTempo
        None 12 0 68 = Raise ZeroDivisionError
    ∧ ((ZeroDivisionError = ZeroDivisionError
        ∧ round_half_even (ppqn song * 4 * numerator (time_signature song))
            (denominator (time_signature song)) = 0)
       ∨ ∃ msg, ZeroDivisionError = RuntimeError msg).
Proof.
  eexists. split; [vm_compute; reflexivity|]. split; [lia|].
  split; [by vm_compute|].
  eapply (decoded_song_failures eighth_bar_file _ "eighth.mid" "SCORE PLAYER"
            1 [0] High TrackTempo None 12 0 68 ZeroDivisionError).
  - vm_compute. reflexivity.
  - lia.
  - by vm_compute.
Defined.
